(** * ComputationNode.h: the node abstraction of the computation network

    A shallow embedding of [Source/ComputationNetworkLib/ComputationNode.h].
    Nodes live in a store indexed by pointers; a [shared_ptr] that may be
    null is an [option] of a pointer.  Methods that only read are functions
    of the store, methods that write are computations in a state monad with
    failure, in which a C++ exception leaves the store as it was when the
    exception was thrown. *)

From Stdlib Require Import ZArith Lia.
From stdpp Require Import base option list gmap sets strings pretty.

Open Scope Z_scope.
Open Scope nat_scope.

(** ** Pointers, failures and results *)

(** [shared_ptr<ComputationNodeBase>] and [shared_ptr<Matrix<ElemType>>]:
    addresses into the node store and the matrix store. *)
Definition NodePtr := nat.
Definition MatrixPtr := nat.

(** The three exception helpers the header calls. *)
Inductive Exception :=
  | RuntimeError
  | LogicError
  | InvalidArgument.

(** Ways a call can fail to return: a thrown exception, the dereference of a
    null [shared_ptr] (undefined behaviour in C++), a failed [assert], an
    address outside the store (excluded by [closed] below; a [shared_ptr]
    never dangles), and a recursion that used up its fuel. *)
Inductive Failure :=
  | Thrown (e : Exception)
  | NullDereference
  | AssertionFailed
  | DanglingPointer
  | OutOfFuel.

Inductive Result (A : Type) :=
  | Ok (a : A)
  | Fail (f : Failure).
Arguments Ok {A} a.
Arguments Fail {A} f.

Definition bindR {A B} (r : Result A) (k : A → Result B) : Result B :=
  match r with
  | Ok a => k a
  | Fail f => Fail f
  end.

Notation "'let?' x ':=' r 'in' k" := (bindR r (fun x => k))
  (at level 10, x name, r at level 100, k at level 200).

(** ** The backend types the header only uses *)

(** Modelled from the spec: [TensorShape] (TensorShape.h is not part of the
    sources) is "an ordered sequence of per-axis extents describing one
    sample's shape"; its number of elements is the product of the extents,
    and a shape without any axis holds no element. *)
Record TensorShape := mkTensorShape { GetDims : list nat }.

Definition GetRank (s : TensorShape) : nat := length (GetDims s).

Definition GetNumElements (s : TensorShape) : nat :=
  match GetDims s with
  | [] => 0
  | _ => foldr Nat.mul 1 (GetDims s)
  end.

(** [shape[k]] *)
Definition dimAt (s : TensorShape) (k : nat) : nat := default 0 (GetDims s !! k).

(** Modelled from the spec: [MBLayout] (Sequences.h is not part of the
    sources) "describes how columns of a sample-flattened buffer map to
    (time-step, parallel-sequence) pairs"; it provides the time-step count
    and the parallel-sequence count, and a layout with T time steps and S
    sequences has T×S columns. *)
Record MBLayout := mkMBLayout {
  GetNumTimeSteps : nat;
  GetNumParallelSequences : nat
}.

Definition GetNumCols (l : MBLayout) : nat :=
  GetNumTimeSteps l * GetNumParallelSequences l.

(** Modelled from the spec: [FrameRange] (Sequences.h is not part of the
    sources) is "a selector identifying either the whole minibatch or a
    single time step (optionally restricted to one sequence)". *)
Inductive FrameRange :=
  | AllFrames
  | TimeStep (t : nat) (seq : option nat).

Definition IsAllFrames (fr : FrameRange) : bool :=
  match fr with
  | AllFrames => true
  | TimeStep _ _ => false
  end.

(** Modelled from the spec: [Matrix<ElemType>] (Matrix.h is not part of the
    sources) is the opaque backend buffer with "resize-to(rows, cols),
    sparse/dense format query, ... elementwise value set/get".  Elements are
    kept as integers: the code under study only stores the constant 0 and
    copies whole matrices, it never computes with an element. *)
Inductive MatrixType := DENSE | SPARSE.

Record Matrix := mkMatrix {
  GetNumRows : nat;
  GetNumColsOf : nat;
  GetMatrixType : MatrixType;
  elems : list Z
}.

(** [m.Resize(rows, cols)]: the dimensions become [rows] × [cols]; the old
    contents are cut or padded to the new number of elements. *)
Definition Resize (rows cols : nat) (m : Matrix) : Matrix :=
  {| GetNumRows := rows; GetNumColsOf := cols;
     GetMatrixType := GetMatrixType m;
     elems := resize (rows * cols) 0%Z (elems m) |}.

(** [m.SetValue(v)]: every element becomes [v]. *)
Definition SetValue (v : Z) (m : Matrix) : Matrix :=
  {| GetNumRows := GetNumRows m; GetNumColsOf := GetNumColsOf m;
     GetMatrixType := GetMatrixType m;
     elems := replicate (GetNumRows m * GetNumColsOf m) v |}.

(** ** CopyNodeFlags *)

Inductive CopyNodeFlags :=
  | copyNodeNull
  | copyNodeValue
  | copyNodeChildren
  | copyNodeAll
  | copyNodeChildrenCrossNetwork.

Definition flagBits (f : CopyNodeFlags) : Z :=
  match f with
  | copyNodeNull => 0
  | copyNodeValue => 1
  | copyNodeChildren => 2
  | copyNodeAll => 3
  | copyNodeChildrenCrossNetwork => 4
  end.

(** [flags & bit] used as a condition *)
Definition hasFlag (flags bit : CopyNodeFlags) : bool :=
  negb (Z.land (flagBits flags) (flagBits bit) =? 0)%Z.

(** ** Nodes *)

(** The element type a [ComputationNode<ElemType>] is instantiated with. *)
Inductive ElemType := Float | Double.

Global Instance ElemType_eq_dec : EqDecision ElemType.
Proof. solve_decision. Defined.

(** The class of the object behind a [ComputationNodeBase] pointer, as far
    as [dynamic_cast] can tell: a [ComputationNode<ElemType>] or a
    [FlowControlNode]. *)
Inductive NodeClass :=
  | ComputationNodeOf (e : ElemType)
  | FlowControlNode.

Global Instance NodeClass_eq_dec : EqDecision NodeClass.
Proof. solve_decision. Defined.

(** What the concrete operator class of a node fixes: the result of the
    virtual [OperationName()], whether the class derives from
    [NumInputs<N>] (and with which N), the virtual [RequiresPreCompute()],
    whether the class derives from [ComputationNodeNonLooping], and the
    class seen by [dynamic_cast]. *)
Record NodeType := mkNodeType {
  OperationName : string;
  ExpectedNumInputs : option nat;
  RequiresPreCompute : bool;
  IsNonLooping : bool;
  nodeClass : NodeClass
}.

(** The data members of [ComputationNetworkOwnedNodeState] (without the
    scratch fields of loop formation), [TimeStamp], [ComputationNodeBase]
    and [ComputationNode<ElemType>]. *)
Record ComputationNode := mkNode {
  nodeType : NodeType;
  (* ComputationNetworkOwnedNodeState *)
  m_needsGradient : bool;
  m_valueSharable : bool;
  m_isPartOfLoop : bool;
  (* TimeStamp *)
  m_evalTimeStamp : Z;
  (* ComputationNodeBase *)
  m_deviceId : Z;
  m_nodeName : string;
  m_inputs : list (option NodePtr);
  m_sampleLayout : TensorShape;
  m_pMBLayout : option MBLayout;
  m_parameterUpdateRequired : bool;
  m_gradientInitialized : bool;
  m_outputNeededDuringBackprop : bool;
  (* ComputationNode<ElemType> *)
  m_value : option MatrixPtr;
  m_gradient : option MatrixPtr
}.

(** Everything the header reads or writes: the nodes and matrices behind
    the pointers, the matrices released to the [MatrixPool], the two
    globals, and the calls made so far to the pure virtual [BackpropTo]
    (receiver, input index, frame range), oldest first. *)
Record World := mkWorld {
  nodes : gmap NodePtr ComputationNode;
  matrices : gmap MatrixPtr Matrix;
  releasedMatrices : list MatrixPtr;
  g_shareNodeValueMatrices : bool;
  s_timeStampCounter : Z;
  backpropCalls : list (NodePtr * nat * FrameRange)
}.

(** ** The state monad with failure *)

Definition M (A : Type) : Type := World → Result A * World.

Definition ret {A} (a : A) : M A := fun w => (Ok a, w).

Definition bind {A B} (m : M A) (k : A → M B) : M B :=
  fun w => match m w with
           | (Ok a, w') => k a w'
           | (Fail f, w') => (Fail f, w')
           end.

Notation "'let*' x ':=' m 'in' k" := (bind m (fun x => k))
  (at level 10, x name, m at level 100, k at level 200).
Notation "m ';;;' k" := (bind m (fun _ => k))
  (at level 100, k at level 200, right associativity).

Definition fail {A} (f : Failure) : M A := fun w => (Fail f, w).
Definition throw {A} (e : Exception) : M A := fail (Thrown e).

(** a read-only method, run inside a writing one *)
Definition readOnly {A} (r : World → Result A) : M A := fun w => (r w, w).

Definition when (b : bool) (m : M unit) : M unit := if b then m else ret tt.

(** [for (i = 0; i < n; i++) body(i)], written over the indices *)
Fixpoint forEach {A} (l : list A) (body : A → M unit) : M unit :=
  match l with
  | [] => ret tt
  | x :: rest => body x ;;; forEach rest body
  end.

(** dereferencing a node pointer *)
Definition lookupNode (w : World) (p : NodePtr) : Result ComputationNode :=
  match nodes w !! p with
  | Some n => Ok n
  | None => Fail DanglingPointer
  end.

Definition derefNode (w : World) (p : option NodePtr) : Result ComputationNode :=
  match p with
  | Some q => lookupNode w q
  | None => Fail NullDereference
  end.

Definition lookupMatrix (w : World) (p : MatrixPtr) : Result Matrix :=
  match matrices w !! p with
  | Some m => Ok m
  | None => Fail DanglingPointer
  end.

Definition derefMatrix (w : World) (p : option MatrixPtr) : Result Matrix :=
  match p with
  | Some q => lookupMatrix w q
  | None => Fail NullDereference
  end.

Definition getNode (p : NodePtr) : M ComputationNode :=
  readOnly (fun w => lookupNode w p).

Definition deref (p : option NodePtr) : M NodePtr :=
  fun w => match p with
           | Some q => match nodes w !! q with
                       | Some _ => (Ok q, w)
                       | None => (Fail DanglingPointer, w)
                       end
           | None => (Fail NullDereference, w)
           end.

(** ** Field assignments *)

Definition set_m_needsGradient (v : bool) (n : ComputationNode) :=
  mkNode (nodeType n) v (m_valueSharable n) (m_isPartOfLoop n)
    (m_evalTimeStamp n) (m_deviceId n) (m_nodeName n) (m_inputs n)
    (m_sampleLayout n) (m_pMBLayout n) (m_parameterUpdateRequired n)
    (m_gradientInitialized n) (m_outputNeededDuringBackprop n)
    (m_value n) (m_gradient n).

Definition set_m_isPartOfLoop (v : bool) (n : ComputationNode) :=
  mkNode (nodeType n) (m_needsGradient n) (m_valueSharable n) v
    (m_evalTimeStamp n) (m_deviceId n) (m_nodeName n) (m_inputs n)
    (m_sampleLayout n) (m_pMBLayout n) (m_parameterUpdateRequired n)
    (m_gradientInitialized n) (m_outputNeededDuringBackprop n)
    (m_value n) (m_gradient n).

Definition set_m_evalTimeStamp (v : Z) (n : ComputationNode) :=
  mkNode (nodeType n) (m_needsGradient n) (m_valueSharable n)
    (m_isPartOfLoop n) v (m_deviceId n) (m_nodeName n) (m_inputs n)
    (m_sampleLayout n) (m_pMBLayout n) (m_parameterUpdateRequired n)
    (m_gradientInitialized n) (m_outputNeededDuringBackprop n)
    (m_value n) (m_gradient n).

Definition set_m_deviceId (v : Z) (n : ComputationNode) :=
  mkNode (nodeType n) (m_needsGradient n) (m_valueSharable n)
    (m_isPartOfLoop n) (m_evalTimeStamp n) v (m_nodeName n) (m_inputs n)
    (m_sampleLayout n) (m_pMBLayout n) (m_parameterUpdateRequired n)
    (m_gradientInitialized n) (m_outputNeededDuringBackprop n)
    (m_value n) (m_gradient n).

Definition set_m_nodeName (v : string) (n : ComputationNode) :=
  mkNode (nodeType n) (m_needsGradient n) (m_valueSharable n)
    (m_isPartOfLoop n) (m_evalTimeStamp n) (m_deviceId n) v (m_inputs n)
    (m_sampleLayout n) (m_pMBLayout n) (m_parameterUpdateRequired n)
    (m_gradientInitialized n) (m_outputNeededDuringBackprop n)
    (m_value n) (m_gradient n).

Definition set_m_inputs (v : list (option NodePtr)) (n : ComputationNode) :=
  mkNode (nodeType n) (m_needsGradient n) (m_valueSharable n)
    (m_isPartOfLoop n) (m_evalTimeStamp n) (m_deviceId n) (m_nodeName n) v
    (m_sampleLayout n) (m_pMBLayout n) (m_parameterUpdateRequired n)
    (m_gradientInitialized n) (m_outputNeededDuringBackprop n)
    (m_value n) (m_gradient n).

Definition set_m_sampleLayout (v : TensorShape) (n : ComputationNode) :=
  mkNode (nodeType n) (m_needsGradient n) (m_valueSharable n)
    (m_isPartOfLoop n) (m_evalTimeStamp n) (m_deviceId n) (m_nodeName n)
    (m_inputs n) v (m_pMBLayout n) (m_parameterUpdateRequired n)
    (m_gradientInitialized n) (m_outputNeededDuringBackprop n)
    (m_value n) (m_gradient n).

Definition set_m_parameterUpdateRequired (v : bool) (n : ComputationNode) :=
  mkNode (nodeType n) (m_needsGradient n) (m_valueSharable n)
    (m_isPartOfLoop n) (m_evalTimeStamp n) (m_deviceId n) (m_nodeName n)
    (m_inputs n) (m_sampleLayout n) (m_pMBLayout n) v
    (m_gradientInitialized n) (m_outputNeededDuringBackprop n)
    (m_value n) (m_gradient n).

Definition set_m_gradientInitialized (v : bool) (n : ComputationNode) :=
  mkNode (nodeType n) (m_needsGradient n) (m_valueSharable n)
    (m_isPartOfLoop n) (m_evalTimeStamp n) (m_deviceId n) (m_nodeName n)
    (m_inputs n) (m_sampleLayout n) (m_pMBLayout n)
    (m_parameterUpdateRequired n) v (m_outputNeededDuringBackprop n)
    (m_value n) (m_gradient n).

Definition set_m_outputNeededDuringBackprop (v : bool) (n : ComputationNode) :=
  mkNode (nodeType n) (m_needsGradient n) (m_valueSharable n)
    (m_isPartOfLoop n) (m_evalTimeStamp n) (m_deviceId n) (m_nodeName n)
    (m_inputs n) (m_sampleLayout n) (m_pMBLayout n)
    (m_parameterUpdateRequired n) (m_gradientInitialized n) v
    (m_value n) (m_gradient n).

Definition set_m_gradient (v : option MatrixPtr) (n : ComputationNode) :=
  mkNode (nodeType n) (m_needsGradient n) (m_valueSharable n)
    (m_isPartOfLoop n) (m_evalTimeStamp n) (m_deviceId n) (m_nodeName n)
    (m_inputs n) (m_sampleLayout n) (m_pMBLayout n)
    (m_parameterUpdateRequired n) (m_gradientInitialized n)
    (m_outputNeededDuringBackprop n) (m_value n) v.

Definition set_m_value (v : option MatrixPtr) (n : ComputationNode) :=
  mkNode (nodeType n) (m_needsGradient n) (m_valueSharable n)
    (m_isPartOfLoop n) (m_evalTimeStamp n) (m_deviceId n) (m_nodeName n)
    (m_inputs n) (m_sampleLayout n) (m_pMBLayout n)
    (m_parameterUpdateRequired n) (m_gradientInitialized n)
    (m_outputNeededDuringBackprop n) v (m_gradient n).

Definition set_m_pMBLayout (v : option MBLayout) (n : ComputationNode) :=
  mkNode (nodeType n) (m_needsGradient n) (m_valueSharable n)
    (m_isPartOfLoop n) (m_evalTimeStamp n) (m_deviceId n) (m_nodeName n)
    (m_inputs n) (m_sampleLayout n) v
    (m_parameterUpdateRequired n) (m_gradientInitialized n)
    (m_outputNeededDuringBackprop n) (m_value n) (m_gradient n).

Definition set_nodes (v : gmap NodePtr ComputationNode) (w : World) :=
  mkWorld v (matrices w) (releasedMatrices w) (g_shareNodeValueMatrices w)
    (s_timeStampCounter w) (backpropCalls w).

Definition set_matrices (v : gmap MatrixPtr Matrix) (w : World) :=
  mkWorld (nodes w) v (releasedMatrices w) (g_shareNodeValueMatrices w)
    (s_timeStampCounter w) (backpropCalls w).

Definition set_releasedMatrices (v : list MatrixPtr) (w : World) :=
  mkWorld (nodes w) (matrices w) v (g_shareNodeValueMatrices w)
    (s_timeStampCounter w) (backpropCalls w).

Definition set_s_timeStampCounter (v : Z) (w : World) :=
  mkWorld (nodes w) (matrices w) (releasedMatrices w)
    (g_shareNodeValueMatrices w) v (backpropCalls w).

Definition set_backpropCalls (v : list (NodePtr * nat * FrameRange)) (w : World) :=
  mkWorld (nodes w) (matrices w) (releasedMatrices w)
    (g_shareNodeValueMatrices w) (s_timeStampCounter w) v.

(** [p->field = v] for a pointer [p] known to be live *)
Definition updateNode (p : NodePtr) (f : ComputationNode → ComputationNode) : M unit :=
  fun w => match nodes w !! p with
           | Some n => (Ok tt, set_nodes (<[p := f n]> (nodes w)) w)
           | None => (Fail DanglingPointer, w)
           end.

(** in-place change of the matrix behind a matrix pointer, null included *)
Definition updateMatrix (p : option MatrixPtr) (f : Matrix → Matrix) : M unit :=
  fun w => match derefMatrix w p with
           | Ok m => match p with
                     | Some q => (Ok tt, set_matrices (<[q := f m]> (matrices w)) w)
                     | None => (Fail NullDereference, w)
                     end
           | Fail e => (Fail e, w)
           end.

(** ** TimeStamp *)

(** the value an [int64_t] holds after an operation whose exact result is [z] *)
Definition int64_wrap (z : Z) : Z := ((z + 2 ^ 63) mod 2 ^ 64 - 2 ^ 63)%Z.

(** [TimeStamp::IsOlderThan]: [GetEvalTimeStamp() - other.GetEvalTimeStamp() <= 0] *)
Definition IsOlderThan (this other : ComputationNode) : bool :=
  (int64_wrap (m_evalTimeStamp this - m_evalTimeStamp other) <=? 0)%Z.

(** ** ComputationNodeBase: read-only members *)

Definition GetSampleMatrixNumRows (n : ComputationNode) : nat :=
  GetNumElements (m_sampleLayout n).

Definition HasMBLayout (n : ComputationNode) : bool :=
  match m_pMBLayout n with
  | Some _ => true
  | None => false
  end.

Definition GetSampleMatrixNumCols (n : ComputationNode) : nat :=
  match m_pMBLayout n with
  | Some layout => GetNumCols layout
  | None => 1
  end.

Definition ReducesInTimeWrt (w : World) (this : NodePtr) (other : option NodePtr)
    : Result bool :=
  let? self := lookupNode w this in
  let? o := derefNode w other in
  Ok (GetSampleMatrixNumCols self <? GetSampleMatrixNumCols o).

Definition GetNumInputs (n : ComputationNode) : nat := length (m_inputs n).

Definition IsLeaf (n : ComputationNode) : bool := GetNumInputs n =? 0.

Definition IsPartOfLoop (n : ComputationNode) : bool := m_isPartOfLoop n.

Definition isValueSharable (n : ComputationNode) : bool := m_valueSharable n.

Definition IsOutputNeededDuringBackprop (w : World) (n : ComputationNode) : bool :=
  negb (g_shareNodeValueMatrices w) || m_outputNeededDuringBackprop n.

Definition SetOutputNeededDuringBackprop (this : NodePtr) (f : bool) : M unit :=
  updateNode this (set_m_outputNeededDuringBackprop f).

(** The loop of [IsOutputOlderThanInputs] over the inputs still to be
    looked at. *)
Fixpoint IsOutputOlderThanInputs_from (w : World) (self : ComputationNode)
    (inputs : list (option NodePtr)) : Result bool :=
  match inputs with
  | [] => Ok false
  | input :: rest =>
      let? child := derefNode w input in
      if IsOlderThan self child then Ok true
      else IsOutputOlderThanInputs_from w self rest
  end.

Definition IsOutputOlderThanInputs (w : World) (this : NodePtr) : Result bool :=
  let? self := lookupNode w this in
  IsOutputOlderThanInputs_from w self (m_inputs self).

(** ** EnumerateNodes *)

(** The loop over the inputs inside [EnumerateNodesRec], given the
    recursive call: null inputs are skipped. *)
Fixpoint EnumerateInputs
    (rec : NodePtr → gset NodePtr * list NodePtr → Result (gset NodePtr * list NodePtr))
    (inputs : list (option NodePtr)) (st : gset NodePtr * list NodePtr)
    : Result (gset NodePtr * list NodePtr) :=
  match inputs with
  | [] => Ok st
  | Some child :: rest => let? st' := rec child st in EnumerateInputs rec rest st'
  | None :: rest => EnumerateInputs rec rest st
  end.

(** [EnumerateNodesRec]: the state is the pair of the [visited] set and the
    [result] list, both passed by reference in the source.  The recursion
    depth is bounded by [fuel]. *)
Fixpoint EnumerateNodesRec (fuel : nat) (w : World) (skipPairNetwork : bool)
    (this : NodePtr) (st : gset NodePtr * list NodePtr)
    : Result (gset NodePtr * list NodePtr) :=
  match fuel with
  | 0 => Fail OutOfFuel
  | S fuel' =>
      if decide (this ∈ st.1) then Ok st
      else
        let? self := lookupNode w this in
        let st1 := ({[this]} ∪ st.1, st.2) in
        let? st2 :=
          (if bool_decide (OperationName (nodeType self) ≠ "PairNetwork")
              || negb skipPairNetwork
           then EnumerateInputs (EnumerateNodesRec fuel' w skipPairNetwork)
                  (m_inputs self) st1
           else Ok st1) in
        Ok (st2.1, st2.2 ++ [this])
  end.

(** the loop over [allRoots] *)
Fixpoint EnumerateRoots (fuel : nat) (w : World) (skipPairNetwork : bool)
    (allRoots : list (option NodePtr)) (st : gset NodePtr * list NodePtr)
    : Result (gset NodePtr * list NodePtr) :=
  match allRoots with
  | [] => Ok st
  | root :: rest =>
      match root with
      | None => Fail NullDereference
      | Some r =>
          let? st' := EnumerateNodesRec fuel w skipPairNetwork r st in
          EnumerateRoots fuel w skipPairNetwork rest st'
      end
  end.

Definition EnumerateNodes (fuel : nat) (w : World)
    (allRoots : list (option NodePtr)) (skipPairNetwork : bool)
    : Result (list NodePtr) :=
  let? st := EnumerateRoots fuel w skipPairNetwork allRoots (∅, []) in
  Ok st.2.

(** ** Validate *)

(** first loop of [Validate]: "check for NULL pointers" *)
Fixpoint ValidateNoNull (inputs : list (option NodePtr)) : Result unit :=
  match inputs with
  | [] => Ok tt
  | None :: _ => Fail (Thrown RuntimeError)
  | Some _ :: rest => ValidateNoNull rest
  end.

(** second loop of [Validate]: "check for empty inputs" *)
Fixpoint ValidateNoEmpty (w : World) (inputs : list (option NodePtr)) : Result unit :=
  match inputs with
  | [] => Ok tt
  | input :: rest =>
      let? child := derefNode w input in
      if GetSampleMatrixNumRows child =? 0 then Fail (Thrown RuntimeError)
      else ValidateNoEmpty w rest
  end.

(** [ComputationNodeBase::Validate], the base version every override calls *)
Definition Validate (this : NodePtr) (isFinalValidationPass : bool) : M unit :=
  let* self := getNode this in
  readOnly (fun _ => ValidateNoNull (m_inputs self)) ;;;
  if isFinalValidationPass
  then readOnly (fun w => ValidateNoEmpty w (m_inputs self))
  else ret tt.

(** ** ComputationNode<ElemType> *)

(** [UpCast]: the dynamic cast to [ComputationNode<ElemType>]; a null
    pointer casts to null, which is rejected like a wrong class. *)
Definition UpCast (E : ElemType) (inode : option NodePtr) : M NodePtr :=
  match inode with
  | None => throw InvalidArgument
  | Some p =>
      let* n := getNode p in
      if decide (nodeClass (nodeType n) = ComputationNodeOf E) then ret p
      else throw InvalidArgument
  end.

(** [Input(inputIndex)] of [ComputationNode<ElemType>], with its range check *)
Definition Input (E : ElemType) (this : NodePtr) (inputIndex : nat) : M NodePtr :=
  let* self := getNode this in
  match m_inputs self !! inputIndex with
  | None => throw LogicError
  | Some inode => UpCast E inode
  end.

(** does [dynamic_cast<INumInputs*>(this)] succeed with a number different
    from [given]? *)
Definition arityMismatch (n : ComputationNode) (given : nat) : bool :=
  match ExpectedNumInputs (nodeType n) with
  | Some expected => negb (expected =? given)
  | None => false
  end.

Definition AttachInputs (E : ElemType) (this : NodePtr)
    (inputs : list (option NodePtr)) : M unit :=
  let* self := getNode this in
  when (arityMismatch self (length inputs)) (throw RuntimeError) ;;;
  updateNode this (fun n => set_m_inputs (resize (length inputs) None (m_inputs n)) n) ;;;
  forEach (seq 0 (length inputs)) (fun i =>
    match default None (inputs !! i) with
    | Some p =>
        let* c := UpCast E (Some p) in
        updateNode this (fun n => set_m_inputs (<[i := Some c]> (m_inputs n)) n)
    | None =>
        updateNode this (fun n => set_m_inputs (<[i := None]> (m_inputs n)) n)
    end).

(** [DetermineDataSize]: the (rows, cols) the matrix storage is set to *)
Definition DetermineDataSize (n : ComputationNode) : nat * nat :=
  if HasMBLayout n
  then (GetSampleMatrixNumRows n, GetSampleMatrixNumCols n)
  else
    let shape := m_sampleLayout n in
    let rows := if 0 <? GetRank shape then dimAt shape 0 else 0 in
    let cols := if 0 <? rows then GetNumElements shape / rows else 0 in
    (rows, cols).

(** [UpdateDataSize(m)] on the matrix behind [m] *)
Definition UpdateDataSize (this : NodePtr) (m : option MatrixPtr) : M unit :=
  let* self := getNode this in
  updateMatrix m (Resize (DetermineDataSize self).1 (DetermineDataSize self).2).

Definition LazyZeroGradient (this : NodePtr) : M unit :=
  let* self := getNode this in
  when (negb (m_needsGradient self)) (throw LogicError) ;;;
  if m_gradientInitialized self then ret tt
  else
    UpdateDataSize this (m_gradient self) ;;;
    updateMatrix (m_gradient self) (SetValue 0) ;;;
    updateNode this (set_m_gradientInitialized true).

Definition ZeroGradientsOfInputs (E : ElemType) (this : NodePtr) : M unit :=
  let* self := getNode this in
  forEach (seq 0 (length (m_inputs self))) (fun i =>
    let* child := Input E this i in
    updateNode child (set_m_gradientInitialized false)).

(** A call of the virtual [BackpropTo(inputIndex, fr)].  The call is
    recorded.  The final override in [ComputationNodeNonLooping] throws
    unless [fr] is the whole batch; the arithmetic of the operators is
    outside this header and is taken to return. *)
Definition BackpropTo (this : NodePtr) (inputIndex : nat) (fr : FrameRange) : M unit :=
  let* self := getNode this in
  (fun w => (Ok tt, set_backpropCalls (backpropCalls w ++ [(this, inputIndex, fr)]) w)) ;;;
  when (IsNonLooping (nodeType self) && negb (IsAllFrames fr)) (throw LogicError).

(** the condition under which [Backprop] propagates into [child] *)
Definition propagatesTo (self child : ComputationNode)
    (childrenInThisLoop childrenInOuterLoop : bool) : bool :=
  m_needsGradient child &&
  ((childrenInThisLoop && eqb (IsPartOfLoop child) (IsPartOfLoop self)) ||
   (childrenInOuterLoop && negb (eqb (IsPartOfLoop child) (IsPartOfLoop self)))).

(** one round of the loop of [Backprop], for input [i] *)
Definition BackpropStep (E : ElemType) (this : NodePtr) (fr : FrameRange)
    (childrenInThisLoop childrenInOuterLoop : bool) (i : nat) : M unit :=
  let* child := Input E this i in
  let* self := getNode this in
  let* c := getNode child in
  if propagatesTo self c childrenInThisLoop childrenInOuterLoop
  then
    when (negb (m_needsGradient self)) (throw LogicError) ;;;
    LazyZeroGradient child ;;;
    let* self := getNode this in
    let* c := getNode child in
    when (IsPartOfLoop self && negb (IsPartOfLoop c) && negb (IsAllFrames fr))
      (throw LogicError) ;;;
    BackpropTo this i fr
  else ret tt.

Definition Backprop (E : ElemType) (this : NodePtr) (fr : FrameRange)
    (childrenInThisLoop childrenInOuterLoop : bool) : M unit :=
  let* self := getNode this in
  when (IsAllFrames fr && IsPartOfLoop self && childrenInThisLoop)
    (throw LogicError) ;;;
  forEach (seq 0 (length (m_inputs self)))
    (BackpropStep E this fr childrenInThisLoop childrenInOuterLoop).

(** ** Matrix pool hooks *)

(** Modelled from the spec: [MatrixPool::Release] (MatrixPool.h is not part
    of the sources) "releases it back" to the pool: the buffer joins the
    released ones.  [ReleaseMatrixToPool] asserts the pointer is not null. *)
Definition ReleaseMatrixToPool (matrixPtr : option MatrixPtr) : M unit :=
  match matrixPtr with
  | None => fail AssertionFailed
  | Some p => fun w => (Ok tt, set_releasedMatrices (releasedMatrices w ++ [p]) w)
  end.

(** [ptr->GetMatrixType() != SPARSE] *)
Definition notSparse (ptr : option MatrixPtr) : M bool :=
  let* m := readOnly (fun w => derefMatrix w ptr) in
  ret (match GetMatrixType m with SPARSE => false | DENSE => true end).

Definition ReleaseMatricesAfterForwardProp (this : NodePtr) : M unit :=
  let* self := getNode this in
  let* needed := readOnly (fun w => Ok (IsOutputNeededDuringBackprop w self)) in
  if negb needed then
    let* dense := notSparse (m_value self) in
    if dense && isValueSharable self
    then ReleaseMatrixToPool (m_value self)
    else ret tt
  else ret tt.

Definition ReleaseMatricesAfterBackprop (this : NodePtr) : M unit :=
  let* self := getNode this in
  if negb (IsLeaf self) && negb (RequiresPreCompute (nodeType self)) then
    (match m_gradient self with
     | Some _ =>
         let* dense := notSparse (m_gradient self) in
         when dense (ReleaseMatrixToPool (m_gradient self))
     | None => ret tt
     end) ;;;
    let* needed := readOnly (fun w => Ok (IsOutputNeededDuringBackprop w self)) in
    if needed then
      let* dense := notSparse (m_value self) in
      if dense && isValueSharable self
      then ReleaseMatrixToPool (m_value self)
      else ret tt
    else ret tt
  else ret tt.

(** ** Construction, CopyTo and Duplicate *)

(** [CreateUniqId]: fetch-and-add on the unsigned 64-bit counter, the old
    value returned as [int64_t] *)
Definition CreateUniqId : M Z :=
  fun w => (Ok (int64_wrap (s_timeStampCounter w)),
            set_s_timeStampCounter ((s_timeStampCounter w + 1) mod 2 ^ 64)%Z w).

Definition CreateUniqNodeName : M string :=
  let* id := CreateUniqId in
  ret ("AutoName" +:+ pretty id).

(** [NewThis(deviceId, name)]: a new object of the class of [this], built by
    the constructors of the header: the base classes first (flags of the
    network-owned state, the time stamp read from the counter), then the
    members of [ComputationNodeBase] in their order of declaration. *)
Definition NewThis (this : NodePtr) (deviceId : Z) (name : string) : M NodePtr :=
  let* self := getNode this in
  let* stamp := readOnly (fun w => Ok (int64_wrap (s_timeStampCounter w))) in
  let* nodeName := (if decide (name = "") then CreateUniqNodeName else ret name) in
  fun w =>
    let p := fresh (dom (nodes w)) in
    let n := {| nodeType := nodeType self;
                m_needsGradient := false;
                m_valueSharable := true;
                m_isPartOfLoop := false;
                m_evalTimeStamp := stamp;
                m_deviceId := deviceId;
                m_nodeName := nodeName;
                m_inputs := [];
                m_sampleLayout := mkTensorShape [];
                m_pMBLayout := None;
                m_parameterUpdateRequired := false;
                m_gradientInitialized := false;
                m_outputNeededDuringBackprop := true;
                m_value := None;
                m_gradient := None |} in
    (Ok p, set_nodes (<[p := n]> (nodes w)) w).

(** [ComputationNodeBase::CopyTo]: copies from [this] into [node] *)
Definition CopyTo_Base (this : NodePtr) (node : option NodePtr)
    (newName : string) (flags : CopyNodeFlags) : M unit :=
  let* self := getNode this in
  let* target := deref node in
  let* other := getNode target in
  when (bool_decide (OperationName (nodeType self) ≠ OperationName (nodeType other)))
    (throw RuntimeError) ;;;
  when (hasFlag flags copyNodeChildren)
    (updateNode target (set_m_inputs (m_inputs self))) ;;;
  when (hasFlag flags copyNodeValue)
    (updateNode target (set_m_deviceId (m_deviceId self)) ;;;
     updateNode target (set_m_parameterUpdateRequired (m_parameterUpdateRequired self)) ;;;
     updateNode target (set_m_nodeName newName) ;;;
     updateNode target (set_m_sampleLayout (m_sampleLayout self)) ;;;
     (* ComputationNetworkOwnedNodeState::CopyTo *)
     updateNode target (set_m_isPartOfLoop (m_isPartOfLoop self)) ;;;
     updateNode target (set_m_needsGradient (m_needsGradient self)) ;;;
     (* TimeStamp::CopyTo *)
     updateNode target (set_m_evalTimeStamp (m_evalTimeStamp self))).

(** [ComputationNode<ElemType>::CopyTo]: the base part, then the matrices *)
Definition CopyTo (E : ElemType) (this : NodePtr) (nodeP : option NodePtr)
    (newName : string) (flags : CopyNodeFlags) : M unit :=
  CopyTo_Base this nodeP newName flags ;;;
  when (hasFlag flags copyNodeValue)
    (let* node := UpCast E nodeP in
     let* self := getNode this in
     let* target := getNode node in
     let* value := readOnly (fun w => derefMatrix w (m_value self)) in
     updateMatrix (m_value target) (fun _ => value) ;;;
     match m_gradient self with
     | Some _ =>
         let* gradient := readOnly (fun w => derefMatrix w (m_gradient self)) in
         updateMatrix (m_gradient target) (fun _ => gradient)
     | None => updateNode node (set_m_gradient None)
     end).

(** [Duplicate]: the new node is the receiver of [CopyTo], the node being
    duplicated is its argument, as written in the source. *)
Definition Duplicate (E : ElemType) (this : NodePtr) (newName : string)
    (flags : CopyNodeFlags) : M NodePtr :=
  let* self := getNode this in
  let name := if decide (newName = "") then m_nodeName self else newName in
  let* node := NewThis this (m_deviceId self) name in
  CopyTo E node (Some this) newName flags ;;;
  ret node.

(** ** Well-formed stores *)

(** Every non-null input of a stored node is itself stored: smart pointers
    keep their targets alive. *)
Definition closed (w : World) : Prop :=
  ∀ p n c, nodes w !! p = Some n → Some c ∈ m_inputs n → is_Some (nodes w !! c).

(** a decidable form of [closed], for concrete stores *)
Definition inputLive (w : World) (input : option NodePtr) : Prop :=
  match input with
  | Some c => is_Some (nodes w !! c)
  | None => True
  end.

Global Instance inputLive_dec w input : Decision (inputLive w input).
Proof. destruct input; simpl; apply _. Defined.

Definition closedb (w : World) : bool :=
  bool_decide (map_Forall (λ _ n, Forall (inputLive w) (m_inputs n)) (nodes w)).

(** The nodes of the input graph of [roots]: the roots and, from there on,
    the non-null inputs. *)
Inductive reachable (w : World) (roots : list (option NodePtr)) : NodePtr → Prop :=
  | reachable_root r :
      Some r ∈ roots → reachable w roots r
  | reachable_input p n c :
      reachable w roots p → nodes w !! p = Some n → Some c ∈ m_inputs n →
      reachable w roots c.

(** The input graph of [roots] has no cycle: its nodes can be numbered so
    that every input has a smaller number than its consumer. *)
Definition acyclic (w : World) (roots : list (option NodePtr)) : Prop :=
  ∃ rank : NodePtr → nat,
    ∀ p n c, reachable w roots p → nodes w !! p = Some n → Some c ∈ m_inputs n →
      rank c < rank p.

(** a decidable check that [rank] decreases along every input edge *)
Definition inputRanked (rank : NodePtr → nat) (p : NodePtr)
    (input : option NodePtr) : Prop :=
  match input with
  | Some c => rank c < rank p
  | None => True
  end.

Global Instance inputRanked_dec rank p input : Decision (inputRanked rank p input).
Proof. destruct input; simpl; apply _. Defined.

Definition rankedb (rank : NodePtr → nat) (w : World) : bool :=
  bool_decide (map_Forall (λ p n, Forall (inputRanked rank p) (m_inputs n)) (nodes w)).

(** an input that [Input(i)] accepts: a live [ComputationNode<E>] *)
Definition validInput (E : ElemType) (w : World) (input : option NodePtr) : Prop :=
  ∃ c child, input = Some c ∧ nodes w !! c = Some child ∧
    nodeClass (nodeType child) = ComputationNodeOf E.

(** every input that needs a gradient owns a live gradient buffer *)
Definition gradientsAllocated (w : World) (self : ComputationNode) : Prop :=
  ∀ c child, Some c ∈ m_inputs self → nodes w !! c = Some child →
    m_needsGradient child = true →
    ∃ g, m_gradient child = Some g ∧ is_Some (matrices w !! g).

(** ** Vocabulary of the properties *)

(** [a] occurs in [l] at an earlier position than [b] *)
Definition before (l : list NodePtr) (a b : NodePtr) : Prop :=
  ∃ i j, l !! i = Some a ∧ l !! j = Some b ∧ i < j.

(** in the list [l], every node stands after each of its non-null inputs *)
Definition inputsFirst (w : World) (l : list NodePtr) : Prop :=
  ∀ x n c, x ∈ l → nodes w !! x = Some n → Some c ∈ m_inputs n → before l c x.

(** the state of the enumeration is consistent: the result has no
    duplicates, lists visited nodes only, and respects the inputs *)
Definition enumInv (w : World) (st : gset NodePtr * list NodePtr) : Prop :=
  NoDup st.2 ∧ (∀ x, x ∈ st.2 → x ∈ st.1) ∧ inputsFirst w st.2.

(** how a call changes the state: the result grows at its end by nodes
    that were not visited before, the visited set grows, and the nodes
    visited but not yet listed stay the same *)
Definition enumStep (st st' : gset NodePtr * list NodePtr) : Prop :=
  (∃ new, st'.2 = st.2 ++ new ∧ ∀ x, x ∈ new → x ∉ st.1) ∧
  st.1 ⊆ st'.1 ∧
  (∀ x, x ∈ st'.1 → x ∉ st'.2 → x ∈ st.1 ∧ x ∉ st.2).

(** the inputs of [self] are live nodes whose stamps are close enough to
    the stamp of [self] for the 64-bit difference to be exact *)
Definition stampsComparable (w : World) (self : ComputationNode)
    (inputs : list (option NodePtr)) : Prop :=
  ∀ input, input ∈ inputs →
    ∃ c child, input = Some c ∧ nodes w !! c = Some child ∧
      (- 2 ^ 63 ≤ m_evalTimeStamp self - m_evalTimeStamp child < 2 ^ 63)%Z.

(** some input of [this] carries a stamp strictly greater than its own *)
Definition someInputNewer (w : World) (this : NodePtr) : Prop :=
  ∃ self c child, nodes w !! this = Some self ∧ Some c ∈ m_inputs self ∧
    nodes w !! c = Some child ∧ (m_evalTimeStamp self < m_evalTimeStamp child)%Z.

(** some input of [this] carries a stamp greater than or equal to its own *)
Definition someInputNotOlder (w : World) (this : NodePtr) : Prop :=
  ∃ self c child, nodes w !! this = Some self ∧ Some c ∈ m_inputs self ∧
    nodes w !! c = Some child ∧ (m_evalTimeStamp self ≤ m_evalTimeStamp child)%Z.

(** the stamp of [this] is strictly greater than the stamp of every input *)
Definition newerThanAllInputs (w : World) (this : NodePtr) : Prop :=
  ∀ self c child, nodes w !! this = Some self → Some c ∈ m_inputs self →
    nodes w !! c = Some child → (m_evalTimeStamp child < m_evalTimeStamp self)%Z.

(** The gate that applies to [child] as an input of [self], in the spec's
    words: [childrenInThisLoop] when the part-of-loop flags are equal,
    [childrenInOuterLoop] when they differ. *)
Definition gateOpen (self child : ComputationNode)
    (childrenInThisLoop childrenInOuterLoop : bool) : bool :=
  if eqb (IsPartOfLoop child) (IsPartOfLoop self)
  then childrenInThisLoop else childrenInOuterLoop.

(** input [i] of [self] needs a gradient and its gate is open *)
Definition selectedInput (w : World) (self : ComputationNode)
    (childrenInThisLoop childrenInOuterLoop : bool) (i : nat) : bool :=
  match m_inputs self !! i with
  | Some (Some c) =>
      match nodes w !! c with
      | Some child =>
          m_needsGradient child &&
          gateOpen self child childrenInThisLoop childrenInOuterLoop
      | None => false
      end
  | _ => false
  end.

(** what else stops [Backprop] on a selected input [i]: the node itself
    needs no gradient, or a node inside a loop would propagate to an input
    outside the loop for a single time step (the two further guards of the
    loop), or the node is a [ComputationNodeNonLooping] asked for a single
    time step (its [BackpropTo] throws) *)
Definition blockedInput (w : World) (self : ComputationNode) (fr : FrameRange)
    (i : nat) : bool :=
  match m_inputs self !! i with
  | Some (Some c) =>
      match nodes w !! c with
      | Some child =>
          negb (m_needsGradient self) ||
          (IsPartOfLoop self && negb (IsPartOfLoop child) && negb (IsAllFrames fr)) ||
          (IsNonLooping (nodeType self) && negb (IsAllFrames fr))
      | None => false
      end
  | _ => false
  end.

(** Walking the indices [l]: whether no selected input is blocked, and the
    selected inputs met before the first blocked one. *)
Fixpoint backpropOutcome (w : World) (self : ComputationNode) (fr : FrameRange)
    (a b : bool) (l : list nat) : bool * list nat :=
  match l with
  | [] => (true, [])
  | i :: rest =>
      if selectedInput w self a b i then
        if blockedInput w self fr i then (false, [])
        else ((backpropOutcome w self fr a b rest).1,
              i :: (backpropOutcome w self fr a b rest).2)
      else backpropOutcome w self fr a b rest
  end.

(** [w'] differs from [w] at most in gradient-initialized flags, in the
    contents of matrices and in the recorded calls *)
Definition sameButGradients (w w' : World) : Prop :=
  (∀ q n, nodes w !! q = Some n →
     ∃ n', nodes w' !! q = Some n' ∧
           set_m_gradientInitialized (m_gradientInitialized n) n' = n) ∧
  (∀ g, is_Some (matrices w !! g) → is_Some (matrices w' !! g)).

(** [w'] is [w] with the gradient-initialized flag cleared on the nodes
    listed in [done] *)
Definition flagsCleared (done : list (option NodePtr)) (w w' : World) : Prop :=
  (∀ q, nodes w' !! q =
        (λ n, if bool_decide (Some q ∈ done)
              then set_m_gradientInitialized false n else n) <$> nodes w !! q) ∧
  w' = set_nodes (nodes w') w.

(** the matrix [LazyZeroGradient] leaves behind the gradient pointer of [n] *)
Definition zeroedGradient (n : ComputationNode) (old : Matrix) : Matrix :=
  SetValue 0 (Resize (DetermineDataSize n).1 (DetermineDataSize n).2 old).

(** the buffer behind [p], when there is one and it is dense *)
Definition denseBuffer (w : World) (p : option MatrixPtr) : list MatrixPtr :=
  match p with
  | Some q =>
      match matrices w !! q with
      | Some m => match GetMatrixType m with DENSE => [q] | SPARSE => [] end
      | None => []
      end
  | None => []
  end.

(** the input list of the receiver of [AttachInputs] after [k] rounds of
    its loop: the first [k] entries are the supplied ones, the others are
    those of the resized old list *)
Definition attachedUpTo (k : nat) (inputs old : list (option NodePtr))
    : list (option NodePtr) :=
  take k inputs ++ drop k (resize (length inputs) None old).

(** The effective sample-matrix column count in the spec's words: the
    layout's column count for a node with a layout, 1 for one without. *)
Definition effectiveColumnCount (n : ComputationNode) : nat :=
  from_option GetNumCols 1 (m_pMBLayout n).

(** ** Small networks used as concrete inputs *)

Definition floatOp (name : string) (arity : option nat) : NodeType :=
  mkNodeType name arity false false (ComputationNodeOf Float).

Definition doubleOp (name : string) (arity : option nat) : NodeType :=
  mkNodeType name arity false false (ComputationNodeOf Double).

(** a node as the constructor leaves it, with the given type, name, inputs
    and time stamp, and a sample layout of one axis of extent 2 *)
Definition basicNode (ty : NodeType) (name : string)
    (inputs : list (option NodePtr)) (stamp : Z) : ComputationNode :=
  {| nodeType := ty;
     m_needsGradient := false; m_valueSharable := true; m_isPartOfLoop := false;
     m_evalTimeStamp := stamp;
     m_deviceId := 0; m_nodeName := name; m_inputs := inputs;
     m_sampleLayout := mkTensorShape [2]; m_pMBLayout := None;
     m_parameterUpdateRequired := false; m_gradientInitialized := false;
     m_outputNeededDuringBackprop := true;
     m_value := None; m_gradient := None |}.

Definition worldOf (ns : list (NodePtr * ComputationNode))
    (ms : list (MatrixPtr * Matrix)) (share : bool) : World :=
  {| nodes := list_to_map ns; matrices := list_to_map ms;
     releasedMatrices := []; g_shareNodeValueMatrices := share;
     s_timeStampCounter := 100; backpropCalls := [] |}.

(** [Plus(a, b)] over two leaves; the stamps of [Plus] and [a] are equal *)
Definition plusWorld : World :=
  worldOf [(0, basicNode (floatOp "Plus" (Some 2)) "sum" [Some 1; Some 2] 5);
           (1, basicNode (floatOp "InputValue" None) "a" [] 5);
           (2, basicNode (floatOp "LearnableParameter" None) "b" [] 3)]
          [] true.

(** a diamond: [Times(p, q)] over [p = Plus(x, y)] and [q = Sigmoid(x)] *)
Definition diamondWorld : World :=
  worldOf
    [(0, basicNode (floatOp "Times" (Some 2)) "t" [Some 1; Some 2] 4);
     (1, basicNode (floatOp "Plus" (Some 2)) "p" [Some 3; Some 4] 3);
     (2, basicNode (floatOp "Sigmoid" (Some 1)) "q" [Some 3] 3);
     (3, basicNode (floatOp "InputValue" None) "x" [] 1);
     (4, basicNode (floatOp "LearnableParameter" None) "y" [] 1)]
    [] true.

(** [Times(W, x)] ready for backprop: both inputs need a gradient and own
    a gradient buffer that still holds old values and old dimensions *)
Definition timesWorld : World :=
  worldOf
    [(0, set_m_needsGradient true
           (basicNode (floatOp "Times" (Some 2)) "z" [Some 1; Some 2] 9));
     (1, set_m_gradientInitialized true
           (set_m_gradient (Some 21)
              (set_m_needsGradient true
                 (basicNode (floatOp "LearnableParameter" None) "W" [] 4))));
     (2, set_m_gradientInitialized true
           (set_m_gradient (Some 22)
              (set_m_needsGradient true
                 (set_m_pMBLayout (Some (mkMBLayout 3 1))
                    (basicNode (floatOp "InputValue" None) "x" [] 8)))))]
    [(21, mkMatrix 1 1 DENSE [7]%Z);
     (22, mkMatrix 2 2 DENSE [1; 2; 3; 4]%Z)]
    true.

(** a recurrent node [h] inside a loop with one input [x] outside of it;
    both need a gradient and own a gradient buffer *)
Definition loopWorld : World :=
  worldOf
    [(0, set_m_isPartOfLoop true
           (set_m_needsGradient true
              (basicNode (floatOp "PastValue" (Some 1)) "h" [Some 1] 9)));
     (1, set_m_gradient (Some 31)
           (set_m_needsGradient true
              (basicNode (floatOp "LearnableParameter" None) "x" [] 8)))]
    [(31, mkMatrix 2 1 DENSE [5; 5]%Z)]
    true.

(** a two-node chain [Sigmoid(x)] whose value buffers are allocated: the
    buffer of [Sigmoid] is dense and has a dense gradient, that of [x]
    is sparse *)
Definition bufferWorld (share : bool) : World :=
  worldOf
    [(0, set_m_gradient (Some 12)
           (set_m_value (Some 10)
              (set_m_outputNeededDuringBackprop false
                 (basicNode (floatOp "Sigmoid" (Some 1)) "s" [Some 1] 7))));
     (1, set_m_value (Some 11) (basicNode (floatOp "InputValue" None) "x" [] 6))]
    [(10, mkMatrix 2 1 DENSE [0; 0]%Z);
     (11, mkMatrix 2 1 SPARSE [1; 2]%Z);
     (12, mkMatrix 2 1 DENSE [4; 5]%Z)]
    share.

(** a single-precision [Plus] without inputs yet, next to a
    double-precision leaf and a single-precision leaf *)
Definition mixedWorld : World :=
  worldOf [(0, basicNode (floatOp "Plus" (Some 2)) "sum" [] 1);
           (1, basicNode (doubleOp "InputValue" None) "d" [] 1);
           (2, basicNode (floatOp "InputValue" None) "f" [] 1)]
          [] true.

(** * Further code of the header *)

(** ** Vocabulary for the enumeration on arbitrary graphs *)

(** the inputs [EnumerateNodesRec] steps into: none for a PairNetwork node
    when [skipPairNetwork] is set *)
Definition enteredInputs (skipPairNetwork : bool) (n : ComputationNode)
    : list (option NodePtr) :=
  if bool_decide (OperationName (nodeType n) ≠ "PairNetwork")
     || negb skipPairNetwork
  then m_inputs n else [].

(** the nodes the enumeration can reach from [roots] *)
Inductive reachableVia (w : World) (skipPairNetwork : bool)
    (roots : list (option NodePtr)) : NodePtr → Prop :=
  | reachableVia_root r :
      Some r ∈ roots → reachableVia w skipPairNetwork roots r
  | reachableVia_input p n c :
      reachableVia w skipPairNetwork roots p → nodes w !! p = Some n →
      Some c ∈ enteredInputs skipPairNetwork n →
      reachableVia w skipPairNetwork roots c.

(** what a call of the enumeration adds to its state: the nodes [new], not
    visited before and without repetition, now visited and listed, each
    reachable from one of [from], and each with all its entered inputs
    visited *)
Definition enumAdds (w : World) (skip : bool) (from : list (option NodePtr))
    (st st' : gset NodePtr * list NodePtr) (new : list NodePtr) : Prop :=
  st'.2 = st.2 ++ new ∧
  st'.1 = st.1 ∪ list_to_set new ∧
  NoDup new ∧
  (∀ x, x ∈ new → x ∉ st.1) ∧
  (∀ x, x ∈ new → reachableVia w skip from x) ∧
  (∀ x n c, x ∈ new → nodes w !! x = Some n → Some c ∈ enteredInputs skip n →
     c ∈ st'.1).

(** a ring of two delay nodes feeding each other, read through [out] *)
Definition ringWorld : World :=
  worldOf
    [(0, basicNode (floatOp "Plus" (Some 2)) "out" [Some 1; Some 1] 4);
     (1, basicNode (floatOp "PastValue" (Some 1)) "d1" [Some 2] 3);
     (2, basicNode (floatOp "PastValue" (Some 1)) "d2" [Some 1] 3);
     (3, basicNode (floatOp "InputValue" None) "unused" [] 1)]
    [] true.

(** ** TimeStamp: stamping a node *)

(** [ResetEvalTimeStamp]: the stamp becomes the current value of the
    counter, which stays as it is *)
Definition ResetEvalTimeStamp (this : NodePtr) : M unit :=
  let* counter := readOnly (fun w => Ok (s_timeStampCounter w)) in
  updateNode this (set_m_evalTimeStamp (int64_wrap counter)).

(** [BumpEvalTimeStamp]: the stamp becomes a new unique id *)
Definition BumpEvalTimeStamp (this : NodePtr) : M unit :=
  let* id := CreateUniqId in
  updateNode this (set_m_evalTimeStamp id).

(** every input of [self] is a live node other than [this] whose stamp was
    given out before the counter reached its present value *)
Definition inputsStampedBefore (w : World) (this : NodePtr)
    (self : ComputationNode) : Prop :=
  ∀ input, input ∈ m_inputs self →
    ∃ c child, input = Some c ∧ c ≠ this ∧ nodes w !! c = Some child ∧
      (0 ≤ m_evalTimeStamp child < s_timeStampCounter w)%Z.

(** every input of [self] is a live node with a stamp between 0 and the
    counter *)
Definition inputsStamped (w : World) (self : ComputationNode) : Prop :=
  ∀ input, input ∈ m_inputs self →
    ∃ c child, input = Some c ∧ nodes w !! c = Some child ∧
      (0 ≤ m_evalTimeStamp child ≤ s_timeStampCounter w)%Z.

(** ** SetInput and DetachInputs *)

(** [while (childIndex >= m_inputs.size()) m_inputs.push_back(nullptr)],
    run for at most [rounds] rounds *)
Fixpoint pushNullsWhile (rounds childIndex : nat) (inputs : list (option NodePtr))
    : list (option NodePtr) :=
  match rounds with
  | 0 => inputs
  | S rounds' =>
      if length inputs <=? childIndex
      then pushNullsWhile rounds' childIndex (inputs ++ [None])
      else inputs
  end.

(** [SetInput(childIndex, inode)]; the loop needs at most [childIndex + 1]
    rounds *)
Definition SetInput (E : ElemType) (this : NodePtr) (childIndex : nat)
    (inode : option NodePtr) : M unit :=
  let* node := UpCast E inode in
  let* self := getNode this in
  when (length (m_inputs self) <? childIndex) (throw InvalidArgument) ;;;
  updateNode this
    (fun n => set_m_inputs (pushNullsWhile (S childIndex) childIndex (m_inputs n)) n) ;;;
  updateNode this
    (fun n => set_m_inputs (<[childIndex := Some node]> (m_inputs n)) n).

Definition DetachInputs (this : NodePtr) : M unit :=
  updateNode this (set_m_inputs []).

(** ** IsEqualTo *)

(** the last loop of [IsEqualTo], over two input lists of the same length:
    the pointers are compared entry by entry *)
Fixpoint sameInputPointers (mine others : list (option NodePtr)) : bool :=
  match mine, others with
  | x :: mine', y :: others' =>
      if decide (x = y) then sameInputPointers mine' others' else false
  | _, _ => true
  end.

Definition IsEqualTo (w : World) (this : NodePtr) (other : option NodePtr)
    : Result bool :=
  let? self := lookupNode w this in
  let? o := derefNode w other in
  if bool_decide (OperationName (nodeType self) ≠ OperationName (nodeType o))
     || negb (length (m_inputs self) =? length (m_inputs o))
  then Ok false
  else if bool_decide (m_nodeName self = m_nodeName o) then Ok true
  else if IsLeaf self && IsLeaf o then Ok false
  else Ok (sameInputPointers (m_inputs self) (m_inputs o)).

(** three [Plus] nodes: [p] and [q] share their name, [q] and [r] share
    their inputs, [p] and [r] share neither *)
Definition namesakeWorld : World :=
  worldOf
    [(0, basicNode (floatOp "Plus" (Some 2)) "s" [Some 3; Some 3] 1);
     (1, basicNode (floatOp "Plus" (Some 2)) "s" [Some 3; Some 4] 1);
     (2, basicNode (floatOp "Plus" (Some 2)) "t" [Some 3; Some 4] 1);
     (3, basicNode (floatOp "InputValue" None) "x" [] 1);
     (4, basicNode (floatOp "InputValue" None) "y" [] 1)]
    [] true.

(** ** Dimensions *)




(** [SetDims(sampleLayout, isMinibatch)] *)
Definition SetDims (this : NodePtr) (sampleLayout : TensorShape)
    (isMinibatch : bool) : M unit :=
  let* self := getNode this in
  when (negb (eqb (HasMBLayout self) isMinibatch)) (throw LogicError) ;;;
  updateNode this (set_m_sampleLayout sampleLayout).

(** [SetDims(node)]: "copy dimensions from another node" *)
Definition SetDimsFrom (this : NodePtr) (node : option NodePtr) : M unit :=
  let* other := readOnly (fun w => derefNode w node) in
  SetDims this (m_sampleLayout other) (HasMBLayout other).

(** [VerifyDims(shape, isMinibatch)] *)
Definition VerifyDims (this : NodePtr) (shape : TensorShape)
    (isMinibatch : bool) : M unit :=
  let* self := getNode this in
  when (bool_decide (GetDims (m_sampleLayout self) ≠ GetDims shape)
        || negb (eqb (HasMBLayout self) isMinibatch))
    (throw LogicError).

(** [VerifyDims(node)] *)
Definition VerifyDimsFrom (this : NodePtr) (node : option NodePtr) : M unit :=
  let* other := readOnly (fun w => derefNode w node) in
  VerifyDims this (m_sampleLayout other) (HasMBLayout other).

(** [UpdateFunctionValuesSize]: [UpdateDataSize(Value())] *)
Definition UpdateFunctionValuesSize (this : NodePtr) : M unit :=
  let* self := getNode this in
  UpdateDataSize this (m_value self).

Definition NotifyFunctionValuesMBSizeModified (this : NodePtr) : M unit :=
  let* self := getNode this in
  when (negb (HasMBLayout self)) (throw LogicError) ;;;
  let* value := readOnly (fun w => derefMatrix w (m_value self)) in
  when (negb (GetSampleMatrixNumRows self =? GetNumRows value)) (throw LogicError) ;;;
  when (negb (GetSampleMatrixNumCols self =? GetNumColsOf value)) (throw LogicError).

(** a vector of two elements without layout, its value buffer still 5 x 5 *)
Definition staleSizeWorld : World :=
  worldOf
    [(0, set_m_value (Some 40)
           (basicNode (floatOp "Sigmoid" (Some 1)) "s" [Some 1] 2));
     (1, set_m_value (Some 41)
           (set_m_pMBLayout (Some (mkMBLayout 3 2))
              (basicNode (floatOp "InputValue" None) "x" [] 1)))]
    [(40, mkMatrix 5 5 DENSE []);
     (41, mkMatrix 5 5 DENSE [])]
    true.

(** ** BeginForwardProp *)

(** Modelled from the spec: [Matrix::VerifySize] (Matrix.h is not part of
    the sources) is the "verify size" step of the forward protocol: a
    matrix of other dimensions is an error, taken to be a logic error like
    the header's own dimension checks. *)
Definition VerifySize (rows cols : nat) (m : Matrix) : Result unit :=
  if (GetNumRows m =? rows) && (GetNumColsOf m =? cols) then Ok tt
  else Fail (Thrown LogicError).

(** [VerifyDataSize(m)] on the matrix behind [m] *)
Definition VerifyDataSize (this : NodePtr) (m : option MatrixPtr) : M unit :=
  let* self := getNode this in
  let* matrix := readOnly (fun w => derefMatrix w m) in
  readOnly (fun _ => VerifySize (DetermineDataSize self).1 (DetermineDataSize self).2 matrix).

(** [ComputationNode<ElemType>::BeginForwardProp]; the base version it
    calls first and the base [UpdateFunctionMBSize] do nothing *)
Definition BeginForwardProp (this : NodePtr) : M unit :=
  let* self := getNode this in
  when (negb (IsLeaf self) && negb (RequiresPreCompute (nodeType self)))
    (UpdateFunctionValuesSize this) ;;;
  VerifyDataSize this (m_value self).

(** ** Creating and requesting matrices *)

Definition set_m_valueSharable (v : bool) (n : ComputationNode) :=
  mkNode (nodeType n) (m_needsGradient n) v (m_isPartOfLoop n)
    (m_evalTimeStamp n) (m_deviceId n) (m_nodeName n) (m_inputs n)
    (m_sampleLayout n) (m_pMBLayout n) (m_parameterUpdateRequired n)
    (m_gradientInitialized n) (m_outputNeededDuringBackprop n)
    (m_value n) (m_gradient n).

(** Modelled from the spec: the matrix a [Matrix<ElemType>(deviceId)]
    constructor builds (Matrix.h is not part of the sources), a new buffer
    that holds nothing yet. *)
Definition newMatrix : Matrix := mkMatrix 0 0 DENSE [].

(** [make_shared<Matrix<ElemType>>(m_deviceId)]: a buffer at an address not
    in use *)
Definition makeMatrix : M MatrixPtr :=
  fun w => let p := fresh (dom (matrices w)) in
           (Ok p, set_matrices (<[p := newMatrix]> (matrices w)) w).

(** [CreateMatrixIfNull(matrixPtr)]; the reference to the pointer member is
    the pair of its getter and its setter *)
Definition CreateMatrixIfNull
    (get : ComputationNode → option MatrixPtr)
    (set : option MatrixPtr → ComputationNode → ComputationNode)
    (this : NodePtr) : M unit :=
  let* self := getNode this in
  match get self with
  | Some _ => ret tt
  | None => let* p := makeMatrix in updateNode this (set (Some p))
  end.

(** the override of [MarkValueNonSharable] in [ComputationNode<ElemType>] *)
Definition MarkValueNonSharable (this : NodePtr) : M unit :=
  updateNode this (set_m_valueSharable false) ;;;
  CreateMatrixIfNull m_value set_m_value this.

Definition CreateGradientMatrixIfNull (this : NodePtr) : M unit :=
  CreateMatrixIfNull m_gradient set_m_gradient this.

(** Modelled from the spec: [MatrixPool::Request] (MatrixPool.h is not part
    of the sources) hands out a buffer of the pool, "letting the pool hand
    the same physical buffer to a different node", and a new buffer when
    the pool holds none. *)
Definition MatrixPoolRequest : M MatrixPtr :=
  fun w => match last (releasedMatrices w) with
           | Some p => (Ok p, set_releasedMatrices (removelast (releasedMatrices w)) w)
           | None => makeMatrix w
           end.

Definition RequestMatrixFromPool
    (get : ComputationNode → option MatrixPtr)
    (set : option MatrixPtr → ComputationNode → ComputationNode)
    (this : NodePtr) : M unit :=
  let* self := getNode this in
  match get self with
  | None => let* p := MatrixPoolRequest in updateNode this (set (Some p))
  | Some _ => ret tt
  end.

Definition RequestMatricesBeforeForwardProp (this : NodePtr) : M unit :=
  RequestMatrixFromPool m_value set_m_value this.

Definition RequestMatricesBeforeBackprop (this : NodePtr) : M unit :=
  RequestMatrixFromPool m_gradient set_m_gradient this.

(** [AllocateGradientMatricesForInputs]: the inputs are nodes of
    [ComputationNode<ElemType>], whose [RequestMatricesBeforeBackprop] is the
    one above (the traversal nodes do not define theirs in the header) *)
Definition AllocateGradientMatricesForInputs (this : NodePtr) : M unit :=
  let* self := getNode this in
  forEach (m_inputs self) (fun input =>
    let* child := readOnly (fun w => derefNode w input) in
    match input with
    | Some c => when (m_needsGradient child) (RequestMatricesBeforeBackprop c)
    | None => fail NullDereference
    end).

(** every gradient pointer of a node and every buffer of the pool is live *)
Definition buffersLive (w : World) : Prop :=
  (∀ q n g, nodes w !! q = Some n → m_gradient n = Some g →
     is_Some (matrices w !! g)) ∧
  (∀ p, p ∈ releasedMatrices w → is_Some (matrices w !! p)).

(** [w'] is [w] except that nodes that need a gradient and had no gradient
    buffer may have got one, and that matrices may have been added *)
Definition gradientsAdded (w w' : World) : Prop :=
  (∀ q n, nodes w !! q = Some n →
     ∃ n', nodes w' !! q = Some n' ∧
           set_m_gradient (m_gradient n) n' = n ∧
           (is_Some (m_gradient n) ∨ m_needsGradient n = false → n' = n)) ∧
  (∀ g, is_Some (matrices w !! g) → is_Some (matrices w' !! g)).

(** [Times(W, x)] before any gradient buffer exists; the pool holds one
    released buffer *)
Definition unallocatedWorld : World :=
  {| nodes := list_to_map
       [(0, set_m_needsGradient true
              (basicNode (floatOp "Times" (Some 2)) "z" [Some 1; Some 2] 9));
        (1, set_m_needsGradient true
              (basicNode (floatOp "LearnableParameter" None) "W" [] 4));
        (2, set_m_needsGradient true
              (set_m_pMBLayout (Some (mkMBLayout 3 1))
                 (basicNode (floatOp "InputValue" None) "x" [] 8)))];
     matrices := list_to_map [(50, mkMatrix 4 4 DENSE [])];
     releasedMatrices := [50];
     g_shareNodeValueMatrices := true;
     s_timeStampCounter := 100;
     backpropCalls := [] |}.

(** ** CopyTo *)

(** [other'] is [other] after [ComputationNodeBase::CopyTo] from [self]:
    the inputs with [copyNodeChildren], seven further fields with
    [copyNodeValue], the rest as it was *)
Definition copiedFrom (self other : ComputationNode) (newName : string)
    (flags : CopyNodeFlags) (other' : ComputationNode) : Prop :=
  (nodeType other' = nodeType other ∧
   m_valueSharable other' = m_valueSharable other ∧
   m_pMBLayout other' = m_pMBLayout other ∧
   m_gradientInitialized other' = m_gradientInitialized other ∧
   m_outputNeededDuringBackprop other' = m_outputNeededDuringBackprop other ∧
   m_value other' = m_value other ∧
   m_gradient other' = m_gradient other) ∧
  m_inputs other' =
    (if hasFlag flags copyNodeChildren then m_inputs self else m_inputs other) ∧
  (let from := if hasFlag flags copyNodeValue then self else other in
   m_nodeName other' =
     (if hasFlag flags copyNodeValue then newName else m_nodeName other) ∧
   m_deviceId other' = m_deviceId from ∧
   m_parameterUpdateRequired other' = m_parameterUpdateRequired from ∧
   m_sampleLayout other' = m_sampleLayout from ∧
   m_isPartOfLoop other' = m_isPartOfLoop from ∧
   m_needsGradient other' = m_needsGradient from ∧
   m_evalTimeStamp other' = m_evalTimeStamp from).

(** two parameters of the same operation; [W] holds values and a gradient,
    [V] has empty buffers, [U] has no buffer *)
Definition copyWorld : World :=
  worldOf
    [(1, set_m_gradient (Some 62)
           (set_m_value (Some 60)
              (set_m_needsGradient true
                 (basicNode (floatOp "LearnableParameter" None) "W" [] 4))));
     (2, set_m_gradient (Some 63)
           (set_m_value (Some 61)
              (basicNode (floatOp "LearnableParameter" None) "V" [] 2)));
     (3, basicNode (floatOp "LearnableParameter" None) "U" [] 2);
     (4, basicNode (floatOp "InputValue" None) "x" [] 2)]
    [(60, mkMatrix 2 1 DENSE [3; 4]%Z);
     (61, mkMatrix 0 0 DENSE []);
     (62, mkMatrix 2 1 DENSE [7; 8]%Z);
     (63, mkMatrix 0 0 DENSE [])]
    true.

(** ** EnumerateArcs *)

(** [std::pair<ComputationNodeBasePtr, ComputationNodeBasePtr>] *)
Definition ComputationArc : Type := option NodePtr * option NodePtr.

(** [visited.find(p) == visited.end()]; the null pointer is never inserted *)
Definition notVisited (visited : gset NodePtr) (p : option NodePtr) : bool :=
  match p with
  | Some c => bool_decide (c ∉ visited)
  | None => true
  end.

(** the [for] loop over the inputs of [curNode]: every input gives an arc,
    and goes to the front of [tovisit] when it has not been visited *)
Fixpoint pushArcs (visited : gset NodePtr) (curNode : NodePtr)
    (inputs : list (option NodePtr))
    (st : list (option NodePtr) * list ComputationArc)
    : list (option NodePtr) * list ComputationArc :=
  match inputs with
  | [] => st
  | input :: rest =>
      let arcs := st.2 ++ [(Some curNode, input)] in
      let tovisit := if notVisited visited input then input :: st.1 else st.1 in
      pushArcs visited curNode rest (tovisit, arcs)
  end.

(** the [while (!tovisit.empty())] loop, run for at most [fuel] rounds *)
Fixpoint EnumerateArcsLoop (fuel : nat) (w : World)
    (tovisit : list (option NodePtr)) (visited : gset NodePtr)
    (arcs : list ComputationArc) : Result (gset NodePtr * list ComputationArc) :=
  match fuel with
  | 0 => Fail OutOfFuel
  | S fuel' =>
      match tovisit with
      | [] => Ok (visited, arcs)
      | curNode :: rest =>
          if notVisited visited curNode then
            let? cur := (match curNode with
                         | Some c => Ok c
                         | None => Fail NullDereference
                         end) in
            let? n := lookupNode w cur in
            let st := pushArcs visited cur (m_inputs n) (rest, arcs) in
            EnumerateArcsLoop fuel' w st.1 ({[cur]} ∪ visited) st.2
          else EnumerateArcsLoop fuel' w rest visited arcs
      end
  end.

Definition EnumerateArcs (fuel : nat) (w : World) (this : NodePtr)
    (visited : gset NodePtr) (arcs : list ComputationArc)
    : Result (gset NodePtr * list ComputationArc) :=
  if notVisited visited (Some this)
  then EnumerateArcsLoop fuel w [Some this] visited arcs
  else Ok (visited, arcs).

(** every input of every stored node is a stored node: the network is
    fully connected *)
Definition inputLinked (w : World) (input : option NodePtr) : Prop :=
  match input with
  | Some c => is_Some (nodes w !! c)
  | None => False
  end.

Global Instance inputLinked_dec w input : Decision (inputLinked w input).
Proof. destruct input; simpl; apply _. Defined.

Definition linked (w : World) : Prop :=
  ∀ p n input, nodes w !! p = Some n → input ∈ m_inputs n → inputLinked w input.

Definition linkedb (w : World) : bool :=
  bool_decide (map_Forall (λ _ n, Forall (inputLinked w) (m_inputs n)) (nodes w)).

(** what a run of the arc enumeration from [tovisit] adds: [visited] grows
    to [visited'] by nodes reachable from [tovisit], the inputs of the new
    nodes are all visited, and [new] holds exactly the arcs that leave the
    new nodes *)
Definition arcsAdded (w : World) (tovisit : list (option NodePtr))
    (visited visited' : gset NodePtr) (new : list ComputationArc) : Prop :=
  visited ⊆ visited' ∧
  (∀ c, Some c ∈ tovisit → c ∈ visited') ∧
  (∀ p, p ∈ visited' → p ∉ visited → reachable w tovisit p) ∧
  (∀ p n c, p ∈ visited' → p ∉ visited → nodes w !! p = Some n →
     Some c ∈ m_inputs n → c ∈ visited') ∧
  (∀ a, a ∈ new ↔
     ∃ p n, a.1 = Some p ∧ (p ∈ visited') ∧ (p ∉ visited) ∧
            nodes w !! p = Some n ∧ (a.2 ∈ m_inputs n)).

(** [Plus(a, ?)] during network creation: the second input is still null *)
Definition unfinishedWorld : World :=
  worldOf [(0, basicNode (floatOp "Plus" (Some 2)) "sum" [Some 1; None] 5);
           (1, basicNode (floatOp "InputValue" None) "a" [] 5)]
          [] true.

(** ** ConstOnes *)

(** [s_constOnes]: rows, then columns, to the cached matrix *)
Abbreviation ConstOnesCache := (gmap nat (gmap nat MatrixPtr)).





(** * Properties *)

(** ** Running the monad *)

Lemma getNode_run w p n :
  nodes w !! p = Some n → getNode p w = (Ok n, w).
Proof. intros H. unfold getNode, readOnly, lookupNode. by rewrite H. Qed.

Lemma bind_run {A B} (m : M A) (k : A → M B) w a w' :
  m w = (Ok a, w') → bind m k w = k a w'.
Proof. intros H. unfold bind. by rewrite H. Qed.

Lemma bind_fail {A B} (m : M A) (k : A → M B) w f w' :
  m w = (Fail f, w') → bind m k w = (Fail f, w').
Proof. intros H. unfold bind. by rewrite H. Qed.

Lemma bindR_Ok {A B} (r : Result A) (k : A → Result B) b :
  bindR r k = Ok b → ∃ a, r = Ok a ∧ k a = Ok b.
Proof. destruct r; simpl; [eauto|done]. Qed.

Lemma updateNode_run w p n f :
  nodes w !! p = Some n →
  updateNode p f w = (Ok tt, set_nodes (<[p := f n]> (nodes w)) w).
Proof. intros H. unfold updateNode. by rewrite H. Qed.

Lemma updateMatrix_run w p m f :
  matrices w !! p = Some m →
  updateMatrix (Some p) f w = (Ok tt, set_matrices (<[p := f m]> (matrices w)) w).
Proof. intros H. unfold updateMatrix, derefMatrix, lookupMatrix. by rewrite H. Qed.

Lemma Input_run E w this self i c child :
  nodes w !! this = Some self →
  m_inputs self !! i = Some (Some c) →
  nodes w !! c = Some child →
  nodeClass (nodeType child) = ComputationNodeOf E →
  Input E this i w = (Ok c, w).
Proof.
  intros Hs Hi Hc Hcl. unfold Input.
  rewrite (bind_run _ _ _ _ _ (getNode_run _ _ _ Hs)). rewrite Hi.
  unfold UpCast. rewrite (bind_run _ _ _ _ _ (getNode_run _ _ _ Hc)).
  by rewrite decide_True.
Qed.

Lemma notSparse_run w p m :
  matrices w !! p = Some m →
  notSparse (Some p) w =
    (Ok (match GetMatrixType m with SPARSE => false | DENSE => true end), w).
Proof.
  intros H. unfold notSparse, bind, readOnly, derefMatrix, lookupMatrix.
  by rewrite H.
Qed.

Lemma snoc_ne {A} (l : list A) x : l ≠ l ++ [x].
Proof.
  intros H. apply (f_equal length) in H. rewrite length_app in H. simpl in H. lia.
Qed.

(** ** Checking concrete stores *)

Lemma closedb_closed w : closedb w = true → closed w.
Proof.
  unfold closedb. intros H%bool_decide_eq_true p n c Hp Hin.
  specialize (H p n Hp). simpl in H.
  rewrite Forall_forall in H. by apply (H (Some c)).
Qed.

Lemma rankedb_acyclic rank w roots : rankedb rank w = true → acyclic w roots.
Proof.
  unfold rankedb. intros H%bool_decide_eq_true. exists rank.
  intros p n c _ Hp Hin. specialize (H p n Hp). simpl in H.
  rewrite Forall_forall in H. by apply (H (Some c)).
Qed.

(** the non-null inputs of a node in a closed store are live *)
Lemma closed_inputs_live w p n :
  closed w → nodes w !! p = Some n → None ∉ m_inputs n →
  ∀ input, input ∈ m_inputs n → ∃ c child, input = Some c ∧ nodes w !! c = Some child.
Proof.
  intros Hcl Hp Hnn [c|] Hin; [|done].
  destruct (Hcl p n c Hp Hin) as [child Hc]. by exists c, child.
Qed.

(** ** C1: EnumerateNodes *)

Lemma before_app_l l l' a b : before l a b → before (l ++ l') a b.
Proof.
  intros (i & j & Hi & Hj & Hlt). exists i, j.
  split; [by apply lookup_app_l_Some|]. split; [by apply lookup_app_l_Some|done].
Qed.

Lemma before_snoc l a b : a ∈ l → before (l ++ [b]) a b.
Proof.
  intros Ha. apply list_elem_of_lookup in Ha as [i Hi].
  exists i, (length l). split; [by apply lookup_app_l_Some|].
  split; [by rewrite list_lookup_middle|]. by eapply lookup_lt_Some.
Qed.

Lemma enumStep_refl st : enumStep st st.
Proof.
  split; [|done]. exists []. split; [by rewrite app_nil_r|].
  intros x Hx. by apply elem_of_nil in Hx.
Qed.

Lemma enumStep_trans st1 st2 st3 :
  enumStep st1 st2 → enumStep st2 st3 → enumStep st1 st3.
Proof.
  intros [(new1 & E1 & F1) [S1 G1]] [(new2 & E2 & F2) [S2 G2]].
  split; [|split].
  - exists (new1 ++ new2). split; [by rewrite E2, E1, app_assoc|].
    intros x Hx. apply elem_of_app in Hx as [Hx|Hx]; [by apply F1|].
    intros Hv. apply (F2 x Hx). by apply S1.
  - by etrans.
  - intros x Hx Hn. destruct (G2 x Hx Hn) as [Hx2 Hn2]. by apply G1.
Qed.

Section Enumeration.
Variable w : World.
Hypothesis Hclosed : closed w.

(** *** Termination: the recursion never goes deeper than the number of
    nodes not visited yet *)

Lemma EnumerateInputs_terminates fuel skip inputs :
  (∀ c st, is_Some (nodes w !! c) → size (dom (nodes w) ∖ st.1) < fuel →
     ∃ st', EnumerateNodesRec fuel w skip c st = Ok st' ∧ st.1 ⊆ st'.1) →
  ∀ st,
    (∀ c, Some c ∈ inputs → is_Some (nodes w !! c)) →
    size (dom (nodes w) ∖ st.1) < fuel →
    ∃ st', EnumerateInputs (EnumerateNodesRec fuel w skip) inputs st = Ok st' ∧
           st.1 ⊆ st'.1.
Proof.
  intros Hrec. induction inputs as [|[c|] rest IH]; intros st Hlive Hsize.
  - by exists st.
  - simpl. destruct (Hrec c st) as (st1 & -> & Hsub); [apply Hlive; left|done|].
    simpl. destruct (IH st1) as (st2 & -> & Hsub2).
    + intros c' Hc'. apply Hlive. by right.
    + eapply Nat.le_lt_trans; [|exact Hsize].
      apply subseteq_size. intros x. rewrite !elem_of_difference.
      intros [Hd Hn]. split; [done|]. intros Hx. apply Hn. by apply Hsub.
    + exists st2. split; [done|]. by etrans.
  - simpl. apply IH; [|done]. intros c' Hc'. apply Hlive. by right.
Qed.

Lemma EnumerateNodesRec_terminates skip fuel :
  ∀ this st, is_Some (nodes w !! this) →
    size (dom (nodes w) ∖ st.1) < fuel →
    ∃ st', EnumerateNodesRec fuel w skip this st = Ok st' ∧ st.1 ⊆ st'.1.
Proof.
  induction fuel as [|fuel IH]; intros this st [self Hself] Hsize; [lia|].
  simpl. destruct (decide (this ∈ st.1)) as [Hin|Hnin]; [by exists st|].
  unfold lookupNode. rewrite Hself. simpl.
  assert (Hless : size (dom (nodes w) ∖ ({[this]} ∪ st.1)) < fuel).
  { assert (size (dom (nodes w) ∖ ({[this]} ∪ st.1)) <
            size (dom (nodes w) ∖ st.1)); [|lia].
    apply subset_size. split.
    - intros x. rewrite !elem_of_difference, elem_of_union.
      intros [Hd Hn]. split; [done|]. intros Hx. apply Hn. by right.
    - intros Hsub. specialize (Hsub this).
      rewrite !elem_of_difference, elem_of_union, elem_of_singleton in Hsub.
      destruct Hsub as [_ Hn]; [|apply Hn; by left].
      split; [|done]. apply elem_of_dom. by exists self. }
  destruct (EnumerateInputs_terminates fuel skip (m_inputs self) IH
              ({[this]} ∪ st.1, st.2)) as (st2 & Hrun & Hsub).
  { intros c Hc. by eapply Hclosed. }
  { done. }
  simpl in Hsub.
  destruct (bool_decide (OperationName (nodeType self) ≠ "PairNetwork")
            || negb skip).
  - rewrite Hrun. simpl. eexists. split; [done|]. simpl.
    etrans; [|exact Hsub]. apply union_subseteq_r.
  - simpl. eexists. split; [done|]. simpl. apply union_subseteq_r.
Qed.

(** *** Soundness on acyclic graphs *)

Variable reach : NodePtr → Prop.
Hypothesis Hreach :
  ∀ p n c, reach p → nodes w !! p = Some n → Some c ∈ m_inputs n → reach c.
Variable rank : NodePtr → nat.
Hypothesis Hrank :
  ∀ p n c, reach p → nodes w !! p = Some n → Some c ∈ m_inputs n →
    rank c < rank p.

Lemma EnumerateInputs_sound fuel inputs :
  (∀ c st st', reach c → enumInv w st →
     (∀ x, x ∈ st.1 → x ∉ st.2 → rank c < rank x) →
     EnumerateNodesRec fuel w false c st = Ok st' →
     enumInv w st' ∧ enumStep st st' ∧ c ∈ st'.2) →
  ∀ st st', (∀ c, Some c ∈ inputs → reach c) → enumInv w st →
    (∀ c x, Some c ∈ inputs → x ∈ st.1 → x ∉ st.2 → rank c < rank x) →
    EnumerateInputs (EnumerateNodesRec fuel w false) inputs st = Ok st' →
    enumInv w st' ∧ enumStep st st' ∧ (∀ c, Some c ∈ inputs → c ∈ st'.2).
Proof.
  intros Hrec.
  induction inputs as [|[c|] rest IH]; intros st st' Hreachable Hinv Hgrey Hrun.
  - injection Hrun as <-. split; [done|]. split; [apply enumStep_refl|].
    intros c Hc. by apply elem_of_nil in Hc.
  - simpl in Hrun. apply bindR_Ok in Hrun as (st1 & Hrun1 & Hrun2).
    destruct (Hrec c st st1) as (Hinv1 & Hstep1 & Hc1); [|done| |done|].
    { apply Hreachable. left. }
    { intros x. apply Hgrey. left. }
    destruct (IH st1 st') as (Hinv' & Hstep' & Hrest); [|done| |done|].
    { intros c' Hc'. apply Hreachable. by right. }
    { intros c' x Hc' Hx Hn. destruct Hstep1 as (_ & _ & Hg).
      destruct (Hg x Hx Hn). apply Hgrey; [by right|done|done]. }
    split; [done|]. split; [by eapply enumStep_trans|].
    intros c' Hc'. apply elem_of_cons in Hc' as [[= ->]|Hc']; [|by apply Hrest].
    destruct Hstep' as ((new & -> & _) & _). apply elem_of_app. by left.
  - simpl in Hrun.
    destruct (IH st st') as (Hinv' & Hstep' & Hrest); [|done| |done|].
    { intros c' Hc'. apply Hreachable. by right. }
    { intros c' x Hc'. apply Hgrey. by right. }
    split; [done|]. split; [done|].
    intros c' Hc'. apply elem_of_cons in Hc' as [[=]|Hc']. by apply Hrest.
Qed.

Lemma EnumerateNodesRec_sound fuel :
  ∀ this st st', reach this → enumInv w st →
    (∀ x, x ∈ st.1 → x ∉ st.2 → rank this < rank x) →
    EnumerateNodesRec fuel w false this st = Ok st' →
    enumInv w st' ∧ enumStep st st' ∧ this ∈ st'.2.
Proof.
  induction fuel as [|fuel IH]; intros this st st' Hthis Hinv Hgrey Hrun; [done|].
  simpl in Hrun. destruct (decide (this ∈ st.1)) as [Hin|Hnin].
  { injection Hrun as <-. split; [done|]. split; [apply enumStep_refl|].
    destruct (decide (this ∈ st.2)) as [|Hn]; [done|].
    specialize (Hgrey this Hin Hn). lia. }
  unfold lookupNode in Hrun.
  destruct (nodes w !! this) as [self|] eqn:Hself; [|done].
  simpl in Hrun. rewrite orb_true_r in Hrun.
  apply bindR_Ok in Hrun as (st2 & Hrun & [= <-]).
  destruct Hinv as (Hnodup & Hlisted & Htopo).
  destruct (EnumerateInputs_sound fuel (m_inputs self) IH
              ({[this]} ∪ st.1, st.2) st2) as (Hinv2 & Hstep2 & Hchildren).
  { intros c Hc. by eapply Hreach. }
  { split; [done|]. split; [|done]. simpl. intros x Hx.
    apply elem_of_union. right. by apply Hlisted. }
  { simpl. intros c x Hc Hx Hn.
    apply elem_of_union in Hx as [Hx|Hx].
    - apply elem_of_singleton in Hx as ->. by eapply Hrank.
    - specialize (Hgrey x Hx Hn).
      specialize (Hrank this self c Hthis Hself Hc). lia. }
  { done. }
  destruct Hinv2 as (Hnodup2 & Hlisted2 & Htopo2).
  destruct Hstep2 as ((new & Hnew & Hfresh) & Hsub & Hgrey2).
  simpl in Hnew, Hfresh, Hsub, Hgrey2.
  assert (Hthis2 : this ∈ st2.1).
  { apply Hsub. apply elem_of_union. left. by apply elem_of_singleton. }
  assert (Hnotin : this ∉ st2.2).
  { rewrite Hnew. intros Hx. apply elem_of_app in Hx as [Hx|Hx].
    - apply Hnin. by apply Hlisted.
    - apply (Hfresh this Hx). apply elem_of_union. left. by apply elem_of_singleton. }
  split; [|split].
  - split; [|split]; simpl.
    + apply NoDup_app. split; [done|]. split; [|apply NoDup_singleton].
      intros x Hx Hx'. apply list_elem_of_singleton in Hx' as ->. done.
    + intros x Hx. apply elem_of_app in Hx as [Hx|Hx]; [by apply Hlisted2|].
      by apply list_elem_of_singleton in Hx as ->.
    + intros x n c Hx Hn Hc. apply elem_of_app in Hx as [Hx|Hx].
      * apply before_app_l. by eapply Htopo2.
      * apply list_elem_of_singleton in Hx as ->.
        rewrite Hself in Hn. injection Hn as <-.
        apply before_snoc. by apply Hchildren.
  - split; [|split]; simpl.
    + exists (new ++ [this]). split; [by rewrite Hnew, app_assoc|].
      intros x Hx Hv. apply elem_of_app in Hx as [Hx|Hx].
      * apply (Hfresh x Hx). apply elem_of_union. by right.
      * by apply list_elem_of_singleton in Hx as ->.
    + intros x Hx. apply Hsub. apply elem_of_union. by right.
    + intros x Hx Hn.
      assert (Hn2 : x ∉ st2.2).
      { intros Hx2. apply Hn. apply elem_of_app. by left. }
      destruct (Hgrey2 x Hx Hn2) as [Hx1 Hn1]. split; [|done].
      apply elem_of_union in Hx1 as [Hx1|Hx1]; [|done].
      apply elem_of_singleton in Hx1 as ->.
      exfalso. apply Hn. apply elem_of_app. right. by apply list_elem_of_singleton.
  - simpl. apply elem_of_app. right. by apply list_elem_of_singleton.
Qed.

(** the loop over the roots keeps every visited node listed *)
Lemma EnumerateRoots_spec fuel roots :
  size (nodes w) < fuel →
  ∀ st,
    (∀ root, root ∈ roots →
       ∃ r, root = Some r ∧ is_Some (nodes w !! r) ∧ reach r) →
    enumInv w st → (∀ x, x ∈ st.1 → x ∈ st.2) →
    ∃ st', EnumerateRoots fuel w false roots st = Ok st' ∧
           enumInv w st' ∧ (∀ x, x ∈ st'.1 → x ∈ st'.2) ∧
           (∀ x, x ∈ st.2 → x ∈ st'.2) ∧
           (∀ r, Some r ∈ roots → r ∈ st'.2).
Proof.
  intros Hfuel. induction roots as [|root rest IH]; intros st Hroots Hinv Hall.
  { exists st. split; [done|]. split; [done|]. split; [done|]. split; [done|].
    intros r Hr. by apply elem_of_nil in Hr. }
  destruct (Hroots root) as (r & -> & Hlive & Hr); [left|].
  simpl.
  destruct (EnumerateNodesRec_terminates false fuel r st Hlive) as (st1 & Hrun & _).
  { eapply Nat.le_lt_trans; [|exact Hfuel]. rewrite <- size_dom.
    apply subseteq_size. intros x. rewrite elem_of_difference. by intros [? _]. }
  rewrite Hrun. simpl.
  destruct (EnumerateNodesRec_sound fuel r st st1 Hr Hinv) as (Hinv1 & Hstep1 & Hr1);
    [|done|].
  { intros x Hx Hn. exfalso. apply Hn. by apply Hall. }
  assert (Hall1 : ∀ x, x ∈ st1.1 → x ∈ st1.2).
  { intros x Hx. destruct (decide (x ∈ st1.2)) as [|Hn]; [done|].
    destruct Hstep1 as (_ & _ & Hg). destruct (Hg x Hx Hn) as [Hx0 Hn0].
    exfalso. apply Hn0. by apply Hall. }
  destruct (IH st1) as (st' & Hrun' & Hinv' & Hall' & Hkeep & Hrest); [|done|done|].
  { intros root Hroot. apply Hroots. by right. }
  exists st'. split; [done|]. split; [done|]. split; [done|]. split.
  - intros x Hx. apply Hkeep. destruct Hstep1 as ((new & -> & _) & _).
    apply elem_of_app. by left.
  - intros r' Hr'. apply elem_of_cons in Hr' as [[= ->]|Hr']; [|by apply Hrest].
    by apply Hkeep.
Qed.
End Enumeration.

(** C1: on a closed store, for non-null roots whose input graph is acyclic,
    [EnumerateNodes(roots)] returns, with any fuel above the number of
    stored nodes, a list without duplicates in which every node stands at a
    later position than each of its non-null inputs; the roots are in the
    list. *)
Theorem EnumerateNodes_topological w roots fuel :
  closed w →
  acyclic w roots →
  (∀ root, root ∈ roots → ∃ r, root = Some r ∧ is_Some (nodes w !! r)) →
  size (nodes w) < fuel →
  ∃ l, EnumerateNodes fuel w roots false = Ok l ∧
       NoDup l ∧
       (∀ x n c, x ∈ l → nodes w !! x = Some n → Some c ∈ m_inputs n →
          before l c x) ∧
       (∀ r, Some r ∈ roots → r ∈ l).
Proof.
  intros Hclosed [rank Hrank] Hroots Hfuel.
  destruct (EnumerateRoots_spec w Hclosed (reachable w roots)
              (reachable_input w roots) rank Hrank fuel roots Hfuel (∅, []))
    as (st' & Hrun & (Hnodup & _ & Htopo) & _ & _ & Hin).
  - intros root Hroot. destruct (Hroots root Hroot) as (r & -> & Hlive).
    exists r. split; [done|]. split; [done|]. by apply reachable_root.
  - split; [apply NoDup_nil_2|]. split; [|].
    + intros x Hx. by apply elem_of_nil in Hx.
    + intros x n c Hx. by apply elem_of_nil in Hx.
  - intros x Hx. by apply elem_of_empty in Hx.
  - exists st'.2. unfold EnumerateNodes. rewrite Hrun. done.
Qed.

Lemma EnumerateNodes_topological_witness :
  ∃ l, EnumerateNodes 6 diamondWorld [Some 0] false = Ok l ∧
       l = [3; 4; 1; 2; 0] ∧ NoDup l ∧ before l 3 2 ∧ 0 ∈ l.
Proof.
  destruct (EnumerateNodes_topological diamondWorld [Some 0] 6)
    as (l & Hrun & Hnodup & Htopo & Hroot).
  - apply closedb_closed. vm_compute. reflexivity.
  - apply (rankedb_acyclic (λ p, 10 - p)). vm_compute. reflexivity.
  - intros root Hroot. apply list_elem_of_singleton in Hroot as ->.
    exists 0. split; [reflexivity|]. eexists. reflexivity.
  - vm_compute. lia.
  - exists l. split; [exact Hrun|].
    assert (Hl : l = [3; 4; 1; 2; 0]).
    { vm_compute in Hrun. by injection Hrun as <-. }
    split; [exact Hl|]. split; [exact Hnodup|]. split.
    + apply (Htopo 2 (basicNode (floatOp "Sigmoid" (Some 1)) "q" [Some 3] 3) 3).
      * rewrite Hl. do 3 right. left.
      * reflexivity.
      * left.
    + apply Hroot. left.
Defined.

(** ** C2: IsOutputOlderThanInputs *)

Lemma int64_wrap_id z : (- 2 ^ 63 ≤ z < 2 ^ 63)%Z → int64_wrap z = z.
Proof.
  intros Hz. unfold int64_wrap.
  rewrite Z.mod_small; lia.
Qed.

Lemma IsOlderThan_le a b :
  (- 2 ^ 63 ≤ m_evalTimeStamp a - m_evalTimeStamp b < 2 ^ 63)%Z →
  IsOlderThan a b = true ↔ (m_evalTimeStamp a ≤ m_evalTimeStamp b)%Z.
Proof.
  intros Hr. unfold IsOlderThan. rewrite int64_wrap_id by done.
  rewrite Z.leb_le. lia.
Qed.

Lemma IsOutputOlderThanInputs_from_spec w self inputs :
  stampsComparable w self inputs →
  ∃ b, IsOutputOlderThanInputs_from w self inputs = Ok b ∧
    (b = true ↔
     ∃ c child, Some c ∈ inputs ∧ nodes w !! c = Some child ∧
       (m_evalTimeStamp self ≤ m_evalTimeStamp child)%Z).
Proof.
  induction inputs as [|input rest IH]; intros Hc.
  - exists false. split; [done|]. split; [done|].
    intros (c & child & Hin & _). by apply elem_of_nil in Hin.
  - destruct (Hc input) as (c & child & -> & Hlk & Hrange); [left|].
    simpl. unfold lookupNode. rewrite Hlk. simpl.
    destruct (IsOlderThan self child) eqn:Hold.
    + exists true. split; [done|]. split; [|done]. intros _.
      exists c, child. split; [left|]. split; [done|].
      by apply IsOlderThan_le.
    + destruct IH as (b & Hb & Hiff).
      { intros i Hi. apply Hc. by right. }
      exists b. split; [done|]. rewrite Hiff. split.
      * intros (c' & child' & Hin & Hlk' & Hle).
        exists c', child'. split; [by right|done].
      * intros (c' & child' & Hin & Hlk' & Hle).
        apply elem_of_cons in Hin as [Heq|Hin].
        -- injection Heq as ->. rewrite Hlk in Hlk'. injection Hlk' as <-.
           apply IsOlderThan_le in Hle; [congruence|done].
        -- exists c', child'. done.
Qed.

(** C2, as stated, fails on a tie: [Plus] and its input [a] carry the same
    stamp, no input is strictly newer, and [IsOutputOlderThanInputs] still
    returns true. *)
Lemma IsOutputOlderThanInputs_tie_counterexample :
  ¬ (IsOutputOlderThanInputs plusWorld 0 = Ok true ↔ someInputNewer plusWorld 0).
Proof.
  intros [Hx _].
  destruct Hx as (self & c & child & Hs & Hin & Hc & Hlt); [by vm_compute|].
  vm_compute in Hs. injection Hs as <-. simpl in Hin.
  apply elem_of_cons in Hin as [Heq|Hin].
  { injection Heq as ->. vm_compute in Hc. injection Hc as <-. simpl in Hlt. lia. }
  apply elem_of_cons in Hin as [Heq|Hin].
  { injection Heq as ->. vm_compute in Hc. injection Hc as <-. simpl in Hlt. lia. }
  by apply elem_of_nil in Hin.
Qed.

(** C2, amended: when every input is a live node whose stamp differs from
    the node's own by less than 2^63, [IsOutputOlderThanInputs] returns true
    exactly when some input's stamp is greater than or equal to the node's
    own; it returns false, so that recomputation is skipped, exactly when
    the node's stamp strictly exceeds every input's.  A tie counts as older. *)
Theorem IsOutputOlderThanInputs_iff_not_newer w this self :
  nodes w !! this = Some self →
  stampsComparable w self (m_inputs self) →
  ∃ b, IsOutputOlderThanInputs w this = Ok b ∧
       (b = true ↔ someInputNotOlder w this) ∧
       (b = false ↔ newerThanAllInputs w this).
Proof.
  intros Hs Hc.
  destruct (IsOutputOlderThanInputs_from_spec w self _ Hc) as (b & Hb & Hiff).
  exists b. unfold IsOutputOlderThanInputs, lookupNode. rewrite Hs. simpl.
  split; [done|].
  assert (Htrue : b = true ↔ someInputNotOlder w this).
  { rewrite Hiff. split.
    - intros (c & child & ?). by exists self, c, child.
    - intros (self' & c & child & Hs' & ?). rewrite Hs in Hs'.
      injection Hs' as <-. by exists c, child. }
  split; [done|].
  split.
  - intros -> self' c child Hs' Hin Hlk.
    destruct (Z.lt_ge_cases (m_evalTimeStamp child) (m_evalTimeStamp self')); [done|].
    assert (false = true); [|done].
    apply Htrue. by exists self', c, child.
  - intros Hall. destruct b; [|done].
    destruct Htrue as [Ht _].
    destruct (Ht eq_refl) as (self' & c & child & Hs' & Hin & Hlk & Hle).
    specialize (Hall self' c child Hs' Hin Hlk). lia.
Qed.

Lemma IsOutputOlderThanInputs_iff_not_newer_witness :
  ∃ b, IsOutputOlderThanInputs plusWorld 0 = Ok b ∧
       (b = true ↔ someInputNotOlder plusWorld 0) ∧
       (b = false ↔ newerThanAllInputs plusWorld 0).
Proof.
  apply (IsOutputOlderThanInputs_iff_not_newer plusWorld 0
           (basicNode (floatOp "Plus" (Some 2)) "sum" [Some 1; Some 2] 5)).
  - reflexivity.
  - intros input Hin. simpl in Hin.
    apply elem_of_cons in Hin as [->|Hin].
    { eexists 1, _. split; [reflexivity|]. split; [reflexivity|]. simpl. lia. }
    apply elem_of_cons in Hin as [->|Hin].
    { eexists 2, _. split; [reflexivity|]. split; [reflexivity|]. simpl. lia. }
    by apply elem_of_nil in Hin.
Defined.

(** ** Lazy zeroing of a gradient *)

Lemma LazyZeroGradient_first w c n g mg :
  nodes w !! c = Some n →
  m_needsGradient n = true →
  m_gradientInitialized n = false →
  m_gradient n = Some g →
  matrices w !! g = Some mg →
  LazyZeroGradient c w =
    (Ok tt, set_nodes (<[c := set_m_gradientInitialized true n]> (nodes w))
              (set_matrices (<[g := zeroedGradient n mg]> (matrices w)) w)).
Proof.
  intros Hn Hneed Hinit Hg Hmg. unfold LazyZeroGradient.
  rewrite (bind_run _ _ _ _ _ (getNode_run _ _ _ Hn)).
  rewrite Hneed, Hinit, Hg. simpl.
  unfold bind at 1. unfold ret at 1.
  unfold UpdateDataSize.
  rewrite (bind_run _ _ w tt
             (set_matrices (<[g := Resize (DetermineDataSize n).1 (DetermineDataSize n).2 mg]> (matrices w)) w)).
  2:{ rewrite (bind_run _ _ _ _ _ (getNode_run _ _ _ Hn)).
      by apply updateMatrix_run. }
  erewrite bind_run.
  2:{ apply updateMatrix_run. simpl. apply lookup_insert_eq. }
  simpl. rewrite insert_insert_eq.
  erewrite updateNode_run by (simpl; exact Hn).
  reflexivity.
Qed.

Lemma LazyZeroGradient_again w c n :
  nodes w !! c = Some n →
  m_needsGradient n = true →
  m_gradientInitialized n = true →
  LazyZeroGradient c w = (Ok tt, w).
Proof.
  intros Hn Hneed Hinit. unfold LazyZeroGradient.
  rewrite (bind_run _ _ _ _ _ (getNode_run _ _ _ Hn)).
  rewrite Hneed, Hinit. reflexivity.
Qed.

Lemma LazyZeroGradient_unneeded w c n :
  nodes w !! c = Some n →
  m_needsGradient n = false →
  LazyZeroGradient c w = (Fail (Thrown LogicError), w).
Proof.
  intros Hn Hneed. unfold LazyZeroGradient.
  rewrite (bind_run _ _ _ _ _ (getNode_run _ _ _ Hn)).
  rewrite Hneed. reflexivity.
Qed.

(** ** C3: Backprop *)

Lemma propagatesTo_gate self child a b :
  propagatesTo self child a b = m_needsGradient child && gateOpen self child a b.
Proof.
  unfold propagatesTo, gateOpen.
  by destruct (m_needsGradient child), a, b,
    (eqb (IsPartOfLoop child) (IsPartOfLoop self)).
Qed.

Lemma sameButGradients_refl w : sameButGradients w w.
Proof.
  split; [|done]. intros q n Hn. exists n. split; [done|]. by destruct n.
Qed.

Lemma sameButGradients_trans w1 w2 w3 :
  sameButGradients w1 w2 → sameButGradients w2 w3 → sameButGradients w1 w3.
Proof.
  intros [Hn12 Hm12] [Hn23 Hm23]. split; [|by auto].
  intros q n Hn. destruct (Hn12 q n Hn) as (n' & Hn' & E1).
  destruct (Hn23 q n' Hn') as (n'' & Hn'' & E2).
  exists n''. split; [done|]. rewrite <- E1 at 2. by rewrite <- E2.
Qed.

Lemma LazyZeroGradient_sameButGradients w c n :
  nodes w !! c = Some n →
  m_needsGradient n = true →
  (∃ g, m_gradient n = Some g ∧ is_Some (matrices w !! g)) →
  ∃ w', LazyZeroGradient c w = (Ok tt, w') ∧
        sameButGradients w w' ∧ backpropCalls w' = backpropCalls w.
Proof.
  intros Hn Hneed (g & Hg & [mg Hmg]).
  destruct (m_gradientInitialized n) eqn:Hinit.
  { exists w. rewrite (LazyZeroGradient_again _ _ _ Hn Hneed Hinit).
    split; [done|]. split; [apply sameButGradients_refl|done]. }
  eexists. rewrite (LazyZeroGradient_first _ _ _ _ _ Hn Hneed Hinit Hg Hmg).
  split; [done|]. split; [|done]. split.
  - intros q n0 Hq. simpl. destruct (decide (q = c)) as [->|Hne].
    + rewrite lookup_insert_eq. eexists. split; [done|].
      rewrite Hn in Hq. injection Hq as <-. destruct n. simpl in *. by subst.
    + rewrite lookup_insert_ne by done. exists n0. split; [done|]. by destruct n0.
  - intros g0 Hg0. simpl. destruct (decide (g0 = g)) as [->|Hne].
    + rewrite lookup_insert_eq. by eexists.
    + by rewrite lookup_insert_ne.
Qed.

Lemma sameButGradients_fields n n' :
  set_m_gradientInitialized (m_gradientInitialized n) n' = n →
  nodeType n' = nodeType n ∧ m_needsGradient n' = m_needsGradient n ∧
  m_isPartOfLoop n' = m_isPartOfLoop n ∧ m_inputs n' = m_inputs n ∧
  m_gradient n' = m_gradient n.
Proof. intros <-. by destruct n'. Qed.

Lemma BackpropTo_run w this self i fr :
  nodes w !! this = Some self →
  BackpropTo this i fr w =
    (if IsNonLooping (nodeType self) && negb (IsAllFrames fr)
     then Fail (Thrown LogicError) else Ok tt,
     set_backpropCalls (backpropCalls w ++ [(this, i, fr)]) w).
Proof.
  intros Hs. unfold BackpropTo.
  rewrite (bind_run _ _ _ _ _ (getNode_run _ _ _ Hs)). unfold bind.
  by destruct (IsNonLooping (nodeType self) && negb (IsAllFrames fr)).
Qed.

Lemma Backprop_loop E w this self fr a b :
  nodes w !! this = Some self →
  Forall (validInput E w) (m_inputs self) →
  gradientsAllocated w self →
  ∀ l w1,
    (∀ i, i ∈ l → i < length (m_inputs self)) →
    sameButGradients w w1 →
    ∃ w2,
      forEach l (BackpropStep E this fr a b) w1 =
        (if (backpropOutcome w self fr a b l).1
         then Ok tt else Fail (Thrown LogicError), w2) ∧
      sameButGradients w w2 ∧
      ((backpropOutcome w self fr a b l).1 = true →
       backpropCalls w2 =
         backpropCalls w1 ++
           map (λ i, (this, i, fr)) (backpropOutcome w self fr a b l).2).
Proof.
  intros Hs Hvalid Halloc l.
  induction l as [|i rest IH]; intros w1 Hrange HR.
  { exists w1. simpl. split; [done|]. split; [done|]. by rewrite app_nil_r. }
  assert (Hi : i < length (m_inputs self)) by (apply Hrange; left).
  destruct (lookup_lt_is_Some_2 _ _ Hi) as [input Hinput].
  rewrite Forall_forall in Hvalid.
  destruct (Hvalid input) as (c & child & -> & Hc & Hcl).
  { by eapply list_elem_of_lookup_2. }
  assert (Hin : Some c ∈ m_inputs self) by (by eapply list_elem_of_lookup_2).
  assert (Hsel : selectedInput w self a b i = propagatesTo self child a b).
  { unfold selectedInput. by rewrite Hinput, Hc, propagatesTo_gate. }
  assert (Hblk : blockedInput w self fr i =
            negb (m_needsGradient self) ||
            (IsPartOfLoop self && negb (IsPartOfLoop child) && negb (IsAllFrames fr)) ||
            (IsNonLooping (nodeType self) && negb (IsAllFrames fr))).
  { unfold blockedInput. by rewrite Hinput, Hc. }
  assert (Hrest : ∀ i0, i0 ∈ rest → i0 < length (m_inputs self)).
  { intros i0 Hi0. apply Hrange. by right. }
  (* the receiver and the input as they are in [w1] *)
  destruct HR as [HRn HRm].
  destruct (HRn _ _ Hs) as (self1 & Hs1 & Es1).
  destruct (HRn _ _ Hc) as (child1 & Hc1 & Ec1).
  destruct (sameButGradients_fields _ _ Es1) as (_ & Hneed1 & Hloop1 & Hinp1 & _).
  destruct (sameButGradients_fields _ _ Ec1) as (Hty1 & Hcneed1 & Hcloop1 & _ & Hgrad1).
  assert (Hprop1 : propagatesTo self1 child1 a b = propagatesTo self child a b).
  { unfold propagatesTo, IsPartOfLoop. by rewrite Hcneed1, Hcloop1, Hloop1. }
  simpl. rewrite Hsel, Hblk.
  unfold BackpropStep at 1.
  assert (Hinput1 : Input E this i w1 = (Ok c, w1)).
  { eapply Input_run; [exact Hs1|by rewrite Hinp1|exact Hc1|by rewrite Hty1]. }
  destruct (propagatesTo self child a b) eqn:Hp.
  2:{ (* not selected: nothing happens in this round *)
      destruct (IH w1 Hrest (conj HRn HRm)) as (w2 & Hrun & HR2 & Hcalls).
      exists w2. split; [|done].
      erewrite bind_run; [exact Hrun|].
      rewrite (bind_run _ _ _ _ _ Hinput1).
      rewrite (bind_run _ _ _ _ _ (getNode_run _ _ _ Hs1)).
      rewrite (bind_run _ _ _ _ _ (getNode_run _ _ _ Hc1)).
      by rewrite Hprop1. }
  assert (Hcneed : m_needsGradient child = true).
  { unfold propagatesTo in Hp. by destruct (m_needsGradient child). }
  destruct (m_needsGradient self) eqn:Hneed; simpl.
  2:{ (* the node itself needs no gradient *)
      exists w1. split; [|split; [done|done]].
      erewrite bind_fail; [done|].
      rewrite (bind_run _ _ _ _ _ Hinput1).
      rewrite (bind_run _ _ _ _ _ (getNode_run _ _ _ Hs1)).
      rewrite (bind_run _ _ _ _ _ (getNode_run _ _ _ Hc1)).
      rewrite Hprop1, Hneed1. reflexivity. }
  (* the gradient of the input is zeroed if this is the first time *)
  destruct (LazyZeroGradient_sameButGradients w1 c child1 Hc1) as (w1' & Hlazy & HR1 & Hcalls1).
  { congruence. }
  { destruct (Halloc c child Hin Hc Hcneed) as (g & Hg & Hlive).
    exists g. split; [congruence|by apply HRm]. }
  assert (HR' : sameButGradients w w1').
  { eapply sameButGradients_trans; [exact (conj HRn HRm)|exact HR1]. }
  destruct HR' as [HRn' HRm'].
  destruct (HRn' _ _ Hs) as (self2 & Hs2 & Es2).
  destruct (HRn' _ _ Hc) as (child2 & Hc2 & Ec2).
  destruct (sameButGradients_fields _ _ Es2) as (Hty2 & _ & Hloop2 & _ & _).
  destruct (sameButGradients_fields _ _ Ec2) as (_ & _ & Hcloop2 & _ & _).
  assert (Hhead : ∀ k : unit → M unit,
    bind (BackpropStep E this fr a b i) k w1 =
    bind (when (IsPartOfLoop self && negb (IsPartOfLoop child) && negb (IsAllFrames fr))
            (throw LogicError))
         (λ _, bind (BackpropTo this i fr) k) w1').
  { intros k. unfold BackpropStep, bind at 1 2.
    rewrite Hinput1. unfold bind at 1.
    rewrite (getNode_run _ _ _ Hs1). unfold bind at 1.
    rewrite (getNode_run _ _ _ Hc1). rewrite Hprop1, Hneed1. simpl.
    unfold bind at 1. unfold ret at 1. unfold bind at 1. rewrite Hlazy.
    unfold bind at 1. rewrite (getNode_run _ _ _ Hs2).
    unfold bind at 1. rewrite (getNode_run _ _ _ Hc2).
    unfold IsPartOfLoop. rewrite Hloop2, Hcloop2.
    unfold bind. by destruct (m_isPartOfLoop self && negb (m_isPartOfLoop child)
                              && negb (IsAllFrames fr)). }
  rewrite Hhead.
  destruct (IsPartOfLoop self && negb (IsPartOfLoop child) && negb (IsAllFrames fr))
    eqn:Hineff; simpl.
  { (* a node in a loop propagating to an input outside, for one time step *)
    exists w1'. split; [done|]. split; [done|]. done. }
  unfold bind at 1. unfold ret at 1.
  pose proof (BackpropTo_run w1' this self2 i fr Hs2) as Hto. rewrite Hty2 in Hto.
  destruct (IsNonLooping (nodeType self) && negb (IsAllFrames fr)) eqn:Hrej; simpl.
  { (* the override of a non-looping node rejects the single time step *)
    eexists. rewrite (bind_fail _ _ _ _ _ Hto). split; [done|]. split; [|done].
    split; [exact HRn'|exact HRm']. }
  rewrite (bind_run _ _ _ _ _ Hto).
  destruct (IH (set_backpropCalls (backpropCalls w1' ++ [(this, i, fr)]) w1') Hrest)
    as (w2 & Hrun & HR2 & Hcalls).
  { split; [exact HRn'|exact HRm']. }
  exists w2. split; [exact Hrun|]. split; [done|].
  intros Hok. rewrite (Hcalls Hok). simpl. rewrite Hcalls1. by rewrite <- app_assoc.
Qed.

Lemma backpropOutcome_unblocked w self fr a b l :
  (∀ i, i ∈ l → selectedInput w self a b i = true → blockedInput w self fr i = false) →
  backpropOutcome w self fr a b l = (true, List.filter (selectedInput w self a b) l).
Proof.
  induction l as [|i rest IH]; intros Hok; [done|].
  simpl. destruct (selectedInput w self a b i) eqn:Hsel.
  - rewrite (Hok i) by (done || left). rewrite IH; [done|].
    intros j Hj. apply Hok. by right.
  - apply IH. intros j Hj. apply Hok. by right.
Qed.

Lemma backpropOutcome_blocked w self fr a b l i :
  i ∈ l → selectedInput w self a b i = true → blockedInput w self fr i = true →
  (backpropOutcome w self fr a b l).1 = false.
Proof.
  induction l as [|j rest IH]; intros Hin Hsel Hblk.
  { by apply elem_of_nil in Hin. }
  simpl. apply elem_of_cons in Hin as [->|Hin].
  - by rewrite Hsel, Hblk.
  - destruct (selectedInput w self a b j); [|by apply IH].
    destruct (blockedInput w self fr j); [done|]. simpl. by apply IH.
Qed.

(** C3, as stated, fails when one of the two further guards of the loop
    fires: the node [h] is inside a loop, its input [x] outside needs a
    gradient and the outer-loop gate is set, so input 0 is selected; for a
    single time step [Backprop] throws and [BackpropTo] is never called. *)
Lemma Backprop_inefficiency_counterexample :
  selectedInput loopWorld
    (set_m_isPartOfLoop true
       (set_m_needsGradient true
          (basicNode (floatOp "PastValue" (Some 1)) "h" [Some 1] 9)))
    false true 0 = true ∧
  IsAllFrames (TimeStep 0 None) = false ∧
  ∃ w', Backprop Float 0 (TimeStep 0 None) false true loopWorld =
          (Fail (Thrown LogicError), w') ∧
        backpropCalls w' = [].
Proof.
  split; [reflexivity|]. split; [reflexivity|].
  eexists. split; [vm_compute; reflexivity|]. reflexivity.
Qed.

(** C3, amended: on a node whose inputs are non-null nodes of its element
    type, those needing a gradient owning a gradient buffer, [Backprop]
    throws a logic error when [fr] is the whole batch, the node is part of a
    loop and [childrenInThisLoop] is set.  Otherwise the selected inputs
    are those whose child needs a gradient and whose gate is set
    ([childrenInThisLoop] for equal part-of-loop flags,
    [childrenInOuterLoop] for different ones); when no selected input is
    blocked (the node itself needs a gradient, it is not a node inside a
    loop propagating to an input outside for a single time step, and it is
    not a non-looping node asked for a single time step), [Backprop]
    returns normally and has called [BackpropTo(i, fr)] exactly for the
    selected indices, in increasing order; when some selected input is
    blocked it throws a logic error. *)
Theorem Backprop_spec E w this self fr a b :
  nodes w !! this = Some self →
  Forall (validInput E w) (m_inputs self) →
  gradientsAllocated w self →
  (IsAllFrames fr = true → IsPartOfLoop self = true → a = true →
     Backprop E this fr a b w = (Fail (Thrown LogicError), w)) ∧
  (IsAllFrames fr && IsPartOfLoop self && a = false →
     ((∀ i, i < length (m_inputs self) → selectedInput w self a b i = true →
           blockedInput w self fr i = false) →
      ∃ w', Backprop E this fr a b w = (Ok tt, w') ∧
            sameButGradients w w' ∧
            backpropCalls w' =
              backpropCalls w ++
                map (λ i, (this, i, fr))
                  (List.filter (selectedInput w self a b)
                     (seq 0 (length (m_inputs self))))) ∧
     ((∃ i, i < length (m_inputs self) ∧ selectedInput w self a b i = true ∧
            blockedInput w self fr i = true) →
      ∃ w', Backprop E this fr a b w = (Fail (Thrown LogicError), w') ∧
            sameButGradients w w')).
Proof.
  intros Hs Hvalid Halloc. unfold Backprop.
  rewrite (bind_run _ _ _ _ _ (getNode_run _ _ _ Hs)). split.
  { intros -> -> ->. reflexivity. }
  intros ->. simpl. unfold bind at 1. unfold ret at 1.
  destruct (Backprop_loop E w this self fr a b Hs Hvalid Halloc
              (seq 0 (length (m_inputs self))) w)
    as (w' & Hrun & HR & Hcalls).
  { intros i Hi. apply elem_of_seq in Hi. lia. }
  { apply sameButGradients_refl. }
  split.
  - intros Hok. exists w'.
    rewrite backpropOutcome_unblocked in Hrun, Hcalls.
    + split; [done|]. split; [done|]. by apply Hcalls.
    + intros i Hi. apply Hok. apply elem_of_seq in Hi. lia.
    + intros i Hi. apply Hok. apply elem_of_seq in Hi. lia.
  - intros (i & Hi & Hsel & Hblk). exists w'.
    rewrite (backpropOutcome_blocked _ _ _ _ _ _ i) in Hrun; [done| |done|done].
    apply elem_of_seq. lia.
Qed.

Lemma Backprop_spec_witness :
  ∃ w', Backprop Float 0 AllFrames true false timesWorld = (Ok tt, w') ∧
        backpropCalls w' = [(0, 0, AllFrames); (0, 1, AllFrames)].
Proof.
  destruct (Backprop_spec Float timesWorld 0
              (set_m_needsGradient true
                 (basicNode (floatOp "Times" (Some 2)) "z" [Some 1; Some 2] 9))
              AllFrames true false) as [_ Hrun].
  - reflexivity.
  - simpl. repeat constructor.
    + eexists 1, _. split; [reflexivity|]. split; reflexivity.
    + eexists 2, _. split; [reflexivity|]. split; reflexivity.
  - intros c child Hin Hc _. simpl in Hin.
    apply elem_of_cons in Hin as [Heq|Hin].
    { injection Heq as ->. vm_compute in Hc. injection Hc as <-.
      exists 21. split; [reflexivity|]. eexists. reflexivity. }
    apply elem_of_cons in Hin as [Heq|Hin].
    { injection Heq as ->. vm_compute in Hc. injection Hc as <-.
      exists 22. split; [reflexivity|]. eexists. reflexivity. }
    by apply elem_of_nil in Hin.
  - destruct (Hrun eq_refl) as [Hok _].
    destruct Hok as (w' & Hw' & _ & Hcalls).
    + intros i Hi _. simpl in Hi.
      destruct i as [|[|i]]; [reflexivity|reflexivity|lia].
    + exists w'. split; [exact Hw'|]. rewrite Hcalls. reflexivity.
Defined.

(** ** C4: ZeroGradientsOfInputs and LazyZeroGradient *)

Lemma ZeroGradientsOfInputs_loop E w this self :
  nodes w !! this = Some self →
  ∀ rest done w',
    m_inputs self = done ++ rest →
    Forall (validInput E w) rest →
    flagsCleared done w w' →
    ∃ w'', forEach (seq (length done) (length rest))
             (λ i, let* child := Input E this i in
                   updateNode child (set_m_gradientInitialized false)) w'
           = (Ok tt, w'') ∧ flagsCleared (done ++ rest) w w''.
Proof.
  intros Hs rest. induction rest as [|input rest IH]; intros done w' Hsplit Hvalid Hinv.
  { exists w'. split; [done|]. by rewrite app_nil_r. }
  apply Forall_cons in Hvalid as [(c & child & -> & Hc & Hcl) Hvalid].
  destruct Hinv as [Hnodes Hrest].
  simpl.
  assert (Hs' : ∃ self', nodes w' !! this = Some self' ∧ m_inputs self' = m_inputs self).
  { rewrite Hnodes, Hs. simpl. eexists. split; [done|]. by case_bool_decide. }
  destruct Hs' as (self' & Hs' & Hinp).
  assert (Hc' : ∃ child', nodes w' !! c = Some child' ∧
                 nodeType child' = nodeType child ∧
                 set_m_gradientInitialized false child' =
                 set_m_gradientInitialized false child).
  { rewrite Hnodes, Hc. simpl. eexists. split; [done|]. by case_bool_decide. }
  destruct Hc' as (child' & Hc' & Hty & Hset).
  rewrite (bind_run _ _ w' tt
             (set_nodes (<[c := set_m_gradientInitialized false child]> (nodes w')) w')).
  2:{ erewrite bind_run.
      2:{ eapply Input_run; [exact Hs'| |exact Hc'|by rewrite Hty].
          rewrite Hinp, Hsplit. by rewrite list_lookup_middle. }
      erewrite updateNode_run by exact Hc'. by rewrite Hset. }
  destruct (IH (done ++ [Some c])
              (set_nodes (<[c := set_m_gradientInitialized false child]> (nodes w')) w'))
    as (w'' & Hrun & Hfinal).
  - by rewrite <- app_assoc.
  - done.
  - split.
    + intros q. simpl. destruct (decide (q = c)) as [->|Hne].
      * rewrite lookup_insert_eq, Hc. simpl.
        rewrite bool_decide_eq_true_2; [done|]. apply elem_of_app. right. left.
      * rewrite lookup_insert_ne by done. rewrite Hnodes.
        destruct (nodes w !! q); [simpl|done]. f_equal.
        assert (Hiff : Some q ∈ done ++ [Some c] ↔ Some q ∈ done).
        { rewrite elem_of_app, list_elem_of_singleton.
          split; [intros [?|?]; [done|congruence]|by left]. }
        by rewrite (bool_decide_ext _ _ Hiff).
    + simpl. rewrite Hrest. by destruct w.
  - exists w''. rewrite length_app in Hrun. simpl in Hrun.
    rewrite Nat.add_1_r in Hrun. split; [done|]. by rewrite <- app_assoc in Hfinal.
Qed.

(** C4: [ZeroGradientsOfInputs] clears the initialized flag of every input;
    the first [LazyZeroGradient] on such an input that needs a gradient
    resizes its gradient buffer to the node's dimensions, fills it with
    zeros and sets the flag; a [LazyZeroGradient] on a node whose flag is
    set changes nothing; on a node that needs no gradient it is a logic
    error. *)
Theorem lazy_zero_gradient_once E w parent self c child g mg :
  nodes w !! parent = Some self →
  Forall (validInput E w) (m_inputs self) →
  Some c ∈ m_inputs self →
  nodes w !! c = Some child →
  m_needsGradient child = true →
  m_gradient child = Some g →
  matrices w !! g = Some mg →
  (∃ w1 w2,
     ZeroGradientsOfInputs E parent w = (Ok tt, w1) ∧
     flagsCleared (m_inputs self) w w1 ∧
     (∀ c', Some c' ∈ m_inputs self →
        ∃ n', nodes w1 !! c' = Some n' ∧ m_gradientInitialized n' = false) ∧
     LazyZeroGradient c w1 = (Ok tt, w2) ∧
     (∃ m2, matrices w2 !! g = Some m2 ∧
        (GetNumRows m2, GetNumColsOf m2) = DetermineDataSize child ∧
        elems m2 = replicate (GetNumRows m2 * GetNumColsOf m2) 0%Z) ∧
     (∃ child2, nodes w2 !! c = Some child2 ∧
        m_gradientInitialized child2 = true ∧
        child2 = set_m_gradientInitialized true child) ∧
     LazyZeroGradient c w2 = (Ok tt, w2)) ∧
  (∀ w3 c3 n3, nodes w3 !! c3 = Some n3 → m_needsGradient n3 = true →
     m_gradientInitialized n3 = true → LazyZeroGradient c3 w3 = (Ok tt, w3)) ∧
  (∀ w3 c3 n3, nodes w3 !! c3 = Some n3 → m_needsGradient n3 = false →
     LazyZeroGradient c3 w3 = (Fail (Thrown LogicError), w3)).
Proof.
  intros Hs Hvalid Hin Hc Hneed Hg Hmg.
  split; [|split; [apply LazyZeroGradient_again|apply LazyZeroGradient_unneeded]].
  destruct (ZeroGradientsOfInputs_loop E w parent self Hs (m_inputs self) [] w)
    as (w1 & Hrun & Hinv); [done|done| |].
  { split; [|by destruct w]. intros q. by destruct (nodes w !! q). }
  simpl in Hrun, Hinv.
  assert (Hcleared : ∀ c', Some c' ∈ m_inputs self →
            ∃ n', nodes w1 !! c' = Some n' ∧ m_gradientInitialized n' = false).
  { intros c' Hin'. destruct Hinv as [Hnodes _].
    rewrite Forall_forall in Hvalid.
    destruct (Hvalid _ Hin') as (c0 & n0 & [= <-] & Hn0 & _).
    rewrite Hnodes, Hn0. simpl. eexists. split; [done|].
    by rewrite bool_decide_eq_true_2. }
  assert (Hc1 : nodes w1 !! c = Some (set_m_gradientInitialized false child)).
  { destruct Hinv as [Hnodes _]. rewrite Hnodes, Hc. simpl.
    by rewrite bool_decide_eq_true_2. }
  assert (Hmg1 : matrices w1 !! g = Some mg).
  { destruct Hinv as [_ ->]. done. }
  eexists w1, _. split.
  { unfold ZeroGradientsOfInputs.
    rewrite (bind_run _ _ _ _ _ (getNode_run _ _ _ Hs)). exact Hrun. }
  split; [done|]. split; [done|]. split.
  { eapply LazyZeroGradient_first;
      [exact Hc1|exact Hneed|reflexivity|exact Hg|exact Hmg1]. }
  split; [|split].
  - eexists. simpl. rewrite lookup_insert_eq. split; [done|].
    unfold zeroedGradient. simpl. split; [|done].
    change (DetermineDataSize (set_m_gradientInitialized false child))
      with (DetermineDataSize child).
    by destruct (DetermineDataSize child).
  - eexists. simpl. rewrite lookup_insert_eq. split; [done|]. done.
  - eapply LazyZeroGradient_again; simpl; [apply lookup_insert_eq|done|done].
Qed.

Lemma lazy_zero_gradient_once_witness :
  ∃ w1 w2 m2,
    ZeroGradientsOfInputs Float 0 timesWorld = (Ok tt, w1) ∧
    LazyZeroGradient 2 w1 = (Ok tt, w2) ∧
    matrices w2 !! 22 = Some m2 ∧
    (GetNumRows m2, GetNumColsOf m2) = (2, 3) ∧
    elems m2 = [0; 0; 0; 0; 0; 0]%Z ∧
    LazyZeroGradient 2 w2 = (Ok tt, w2).
Proof.
  destruct (lazy_zero_gradient_once Float timesWorld 0
              (set_m_needsGradient true
                 (basicNode (floatOp "Times" (Some 2)) "z" [Some 1; Some 2] 9))
              2
              (set_m_gradientInitialized true
                 (set_m_gradient (Some 22)
                    (set_m_needsGradient true
                       (set_m_pMBLayout (Some (mkMBLayout 3 1))
                          (basicNode (floatOp "InputValue" None) "x" [] 8)))))
              22 (mkMatrix 2 2 DENSE [1; 2; 3; 4]%Z))
    as [(w1 & w2 & Hz & _ & _ & Hl & (m2 & Hm2 & Hdims & Helems) & _ & Hl2) _].
  - reflexivity.
  - simpl. repeat constructor.
    + eexists 1, _. split; [reflexivity|]. split; reflexivity.
    + eexists 2, _. split; [reflexivity|]. split; reflexivity.
  - simpl. right. left.
  - reflexivity.
  - reflexivity.
  - reflexivity.
  - reflexivity.
  - exists w1, w2, m2. split; [done|]. split; [done|]. split; [done|].
    split; [by rewrite Hdims|]. split; [|done].
    rewrite Helems. injection Hdims as -> ->. reflexivity.
Defined.

(** ** C5: releasing buffers to the pool *)

(** C5: [ReleaseMatricesAfterForwardProp] on a node with a value buffer
    appends that buffer to the pool exactly when the output is not needed
    during backprop, the buffer is dense and the value is sharable, and
    otherwise changes nothing.  [ReleaseMatricesAfterBackprop] on a node
    that is neither a leaf nor a precompute node appends the gradient
    buffer when there is one and it is dense, and then the value buffer
    when the output was needed during backprop, the buffer is dense and the
    value is sharable; on a leaf or precompute node it changes nothing. *)
Theorem release_hooks_spec w this self v mv :
  nodes w !! this = Some self →
  m_value self = Some v →
  matrices w !! v = Some mv →
  (∀ g, m_gradient self = Some g → is_Some (matrices w !! g)) →
  (∃ w', ReleaseMatricesAfterForwardProp this w = (Ok tt, w') ∧
     (releasedMatrices w' = releasedMatrices w ++ [v] ↔
        IsOutputNeededDuringBackprop w self = false ∧
        GetMatrixType mv = DENSE ∧ isValueSharable self = true) ∧
     (releasedMatrices w' = releasedMatrices w ++ [v] ∨ w' = w) ∧
     w' = set_releasedMatrices (releasedMatrices w') w) ∧
  (∃ w', ReleaseMatricesAfterBackprop this w = (Ok tt, w') ∧
     w' = set_releasedMatrices (releasedMatrices w') w ∧
     (IsLeaf self = false → RequiresPreCompute (nodeType self) = false →
      releasedMatrices w' =
        releasedMatrices w ++ denseBuffer w (m_gradient self) ++
          (if IsOutputNeededDuringBackprop w self && isValueSharable self
           then denseBuffer w (Some v) else [])) ∧
     (IsLeaf self = true ∨ RequiresPreCompute (nodeType self) = true → w' = w)).
Proof.
  intros Hs Hv Hmv Hg. split.
  - unfold ReleaseMatricesAfterForwardProp.
    rewrite (bind_run _ _ _ _ _ (getNode_run _ _ _ Hs)).
    unfold bind at 1. unfold readOnly at 1.
    destruct (IsOutputNeededDuringBackprop w self) eqn:Hn; simpl.
    { exists w. split; [done|]. split; [|split; [by right|by destruct w]].
      split; [intros H; by apply snoc_ne in H|]. by intros [? _]. }
    rewrite Hv. rewrite (bind_run _ _ _ _ _ (notSparse_run _ _ _ Hmv)).
    destruct (GetMatrixType mv) eqn:Hty, (isValueSharable self) eqn:Hsh; simpl.
    + eexists. split; [reflexivity|]. simpl. split; [|split; [by left|done]].
      split; done.
    + exists w. split; [done|]. split; [|split; [by right|by destruct w]].
      split; [intros H; by apply snoc_ne in H|]. by intros (_ & _ & ?).
    + exists w. split; [done|]. split; [|split; [by right|by destruct w]].
      split; [intros H; by apply snoc_ne in H|]. by intros (_ & ? & _).
    + exists w. split; [done|]. split; [|split; [by right|by destruct w]].
      split; [intros H; by apply snoc_ne in H|]. by intros (_ & ? & _).
  - unfold ReleaseMatricesAfterBackprop.
    rewrite (bind_run _ _ _ _ _ (getNode_run _ _ _ Hs)).
    destruct (IsLeaf self) eqn:Hleaf; simpl.
    { exists w. split; [done|]. split; [by destruct w|]. split; [done|done]. }
    destruct (RequiresPreCompute (nodeType self)) eqn:Hpre; simpl.
    { exists w. split; [done|]. split; [by destruct w|]. split; [done|done]. }
    assert (Hgrad : ∃ w1,
      (match m_gradient self with
       | Some _ => let* dense := notSparse (m_gradient self) in
                   when dense (ReleaseMatrixToPool (m_gradient self))
       | None => ret tt
       end) w = (Ok tt, w1) ∧
      w1 = set_releasedMatrices
             (releasedMatrices w ++ denseBuffer w (m_gradient self)) w).
    { destruct (m_gradient self) as [g|] eqn:Hgr.
      - destruct (Hg g eq_refl) as [mg Hmg].
        rewrite (bind_run _ _ _ _ _ (notSparse_run _ _ _ Hmg)).
        unfold denseBuffer. rewrite Hmg.
        destruct (GetMatrixType mg); simpl.
        + eexists. split; reflexivity.
        + exists w. split; [done|]. rewrite app_nil_r. by destruct w.
      - exists w. split; [done|]. simpl. rewrite app_nil_r. by destruct w. }
    destruct Hgrad as (w1 & Hrun & Hw1).
    rewrite (bind_run _ _ _ _ _ Hrun).
    assert (Hmv1 : matrices w1 !! v = Some mv) by (by rewrite Hw1).
    assert (Hn1 : IsOutputNeededDuringBackprop w1 self =
                  IsOutputNeededDuringBackprop w self) by (by rewrite Hw1).
    unfold bind at 1. unfold readOnly at 1. rewrite Hn1.
    destruct (IsOutputNeededDuringBackprop w self) eqn:Hn; simpl.
    2:{ exists w1. split; [done|]. rewrite Hw1. simpl.
        split; [done|]. split; [|by intros [?|?]].
        intros _ _. by rewrite app_nil_r. }
    rewrite Hv. rewrite (bind_run _ _ _ _ _ (notSparse_run _ _ _ Hmv1)).
    rewrite Hmv.
    destruct (GetMatrixType mv) eqn:Hty, (isValueSharable self) eqn:Hsh; simpl.
    + eexists. split; [reflexivity|]. rewrite Hw1. simpl.
      split; [done|]. split; [|by intros [?|?]].
      intros _ _. by rewrite <- app_assoc.
    + exists w1. split; [done|]. rewrite Hw1. simpl.
      split; [done|]. split; [|by intros [?|?]]. intros _ _. by rewrite app_nil_r.
    + exists w1. split; [done|]. rewrite Hw1. simpl.
      split; [done|]. split; [|by intros [?|?]]. intros _ _. by rewrite app_nil_r.
    + exists w1. split; [done|]. rewrite Hw1. simpl.
      split; [done|]. split; [|by intros [?|?]]. intros _ _. by rewrite app_nil_r.
Qed.

Lemma release_hooks_spec_witness :
  ReleaseMatricesAfterForwardProp 0 (bufferWorld true) =
    (Ok tt, set_releasedMatrices [10] (bufferWorld true)) ∧
  ∃ w', ReleaseMatricesAfterBackprop 0 (bufferWorld true) = (Ok tt, w') ∧
        releasedMatrices w' = [12].
Proof.
  destruct (release_hooks_spec (bufferWorld true) 0
              (set_m_gradient (Some 12)
                 (set_m_value (Some 10)
                    (set_m_outputNeededDuringBackprop false
                       (basicNode (floatOp "Sigmoid" (Some 1)) "s" [Some 1] 7))))
              10 (mkMatrix 2 1 DENSE [0; 0]%Z))
    as [(w1 & Hrun1 & Hiff & _ & Hw1) (w2 & Hrun2 & _ & Hrel & _)].
  - reflexivity.
  - reflexivity.
  - reflexivity.
  - intros g Hg. injection Hg as <-. eexists. reflexivity.
  - split.
    + rewrite Hrun1, Hw1. f_equal.
      destruct Hiff as [_ ->]; [reflexivity|]. by vm_compute.
    + exists w2. split; [done|]. rewrite Hrel by reflexivity. reflexivity.
Defined.

(** ** C6: AttachInputs *)

Lemma attachedUpTo_step k x (inputs old : list (option NodePtr)) :
  inputs !! k = Some x →
  <[k := x]> (attachedUpTo k inputs old) = attachedUpTo (S k) inputs old.
Proof.
  intros Hk. unfold attachedUpTo.
  assert (Hlt : k < length inputs) by (by eapply lookup_lt_Some).
  assert (Hlen : length (take k inputs) = k) by (rewrite length_take; lia).
  rewrite insert_app_r_alt by lia. rewrite Hlen, Nat.sub_diag.
  rewrite (take_S_r _ _ _ Hk), <- app_assoc. f_equal.
  destruct (drop k (resize (length inputs) None old)) as [|y rest] eqn:Hd.
  { apply (f_equal length) in Hd. rewrite length_drop, length_resize in Hd.
    simpl in Hd. lia. }
  simpl. f_equal.
  replace (S k) with (k + 1) by lia. by rewrite <- drop_drop, Hd.
Qed.

Lemma AttachInputs_loop E w this self inputs old :
  nodes w !! this = Some self →
  (∀ c, Some c ∈ inputs → validInput E w (Some c)) →
  ∀ n k, k + n = length inputs →
    forEach (seq k n) (λ i,
      match default None (inputs !! i) with
      | Some p =>
          let* c := UpCast E (Some p) in
          updateNode this (λ n, set_m_inputs (<[i := Some c]> (m_inputs n)) n)
      | None =>
          updateNode this (λ n, set_m_inputs (<[i := None]> (m_inputs n)) n)
      end)
      (set_nodes (<[this := set_m_inputs (attachedUpTo k inputs old) self]> (nodes w)) w)
    = (Ok tt,
       set_nodes (<[this := set_m_inputs (attachedUpTo (k + n) inputs old) self]> (nodes w)) w).
Proof.
  intros Hs Hvalid n. induction n as [|n IH]; intros k Hk.
  { by rewrite Nat.add_0_r. }
  simpl.
  destruct (lookup_lt_is_Some_2 inputs k) as [x Hx]; [lia|].
  set (wk := set_nodes (<[this := set_m_inputs (attachedUpTo k inputs old) self]> (nodes w)) w).
  assert (Hstep : updateNode this (λ n0, set_m_inputs (<[k := x]> (m_inputs n0)) n0) wk =
    (Ok tt, set_nodes (<[this := set_m_inputs (attachedUpTo (S k) inputs old) self]> (nodes w)) w)).
  { erewrite updateNode_run by (simpl; apply lookup_insert_eq).
    simpl. rewrite insert_insert_eq. unfold set_nodes at 1. simpl.
    f_equal. unfold set_nodes. f_equal. f_equal.
    rewrite <- (attachedUpTo_step k x) by done. reflexivity. }
  rewrite Hx. simpl.
  erewrite bind_run.
  2:{ destruct x as [p|]; [|exact Hstep].
      erewrite bind_run; [exact Hstep|].
      destruct (Hvalid p) as (c & child & [= <-] & Hc & Hcl).
      { by eapply list_elem_of_lookup_2. }
      unfold UpCast. destruct (decide (p = this)) as [->|Hne].
      - rewrite Hs in Hc. injection Hc as <-.
        erewrite bind_run by (apply getNode_run; simpl; apply lookup_insert_eq).
        simpl. by rewrite decide_True.
      - erewrite bind_run
          by (apply getNode_run; simpl; rewrite lookup_insert_ne by done; exact Hc).
        by rewrite decide_True. }
  rewrite IH by lia. by rewrite Nat.add_succ_r.
Qed.

(** C6, as stated, fails when a supplied input has another element type:
    the arity of [Plus] is respected, yet [AttachInputs] throws, the inputs
    are not stored, and the input list was already resized and partly
    overwritten when the exception left the function. *)
Lemma AttachInputs_mixed_precision_counterexample :
  arityMismatch (basicNode (floatOp "Plus" (Some 2)) "sum" [] 1) 2 = false ∧
  (¬ ∃ w', AttachInputs Float 0 [Some 2; Some 1] mixedWorld = (Ok tt, w')) ∧
  ∃ w', AttachInputs Float 0 [Some 2; Some 1] mixedWorld =
          (Fail (Thrown InvalidArgument), w') ∧
        m_inputs <$> nodes w' !! 0 = Some [Some 2; None] ∧
        m_inputs <$> nodes mixedWorld !! 0 = Some [].
Proof.
  split; [reflexivity|]. split.
  - intros [w' H]. vm_compute in H. discriminate.
  - eexists. split; [vm_compute; reflexivity|]. split; reflexivity.
Qed.

(** C6, amended: [AttachInputs] throws a runtime error, leaving the store
    as it was, when the node's class derives from [NumInputs<N>] and the
    number of supplied inputs differs from N; otherwise, when every
    non-null supplied input is a node of the receiver's element type, it
    returns normally and the node's input list is exactly the supplied
    list, null entries included, nothing else being changed. *)
Theorem AttachInputs_spec E w this self inputs :
  nodes w !! this = Some self →
  (∀ N, ExpectedNumInputs (nodeType self) = Some N → N ≠ length inputs →
     AttachInputs E this inputs w = (Fail (Thrown RuntimeError), w)) ∧
  ((ExpectedNumInputs (nodeType self) = None ∨
    ExpectedNumInputs (nodeType self) = Some (length inputs)) →
   (∀ c, Some c ∈ inputs → validInput E w (Some c)) →
   AttachInputs E this inputs w =
     (Ok tt, set_nodes (<[this := set_m_inputs inputs self]> (nodes w)) w)).
Proof.
  intros Hs. unfold AttachInputs.
  rewrite (bind_run _ _ _ _ _ (getNode_run _ _ _ Hs)). split.
  - intros N HN Hne. unfold arityMismatch. rewrite HN.
    destruct (Nat.eqb_spec N (length inputs)); [done|]. reflexivity.
  - intros Harity Hvalid.
    assert (Hok : arityMismatch self (length inputs) = false).
    { unfold arityMismatch. destruct Harity as [->| ->]; [done|].
      by rewrite Nat.eqb_refl. }
    rewrite Hok. simpl. unfold bind at 1. unfold ret at 1.
    erewrite bind_run by (by apply updateNode_run).
    cbv beta.
    change (set_m_inputs (resize (length inputs) None (m_inputs self)) self)
      with (set_m_inputs (attachedUpTo 0 inputs (m_inputs self)) self).
    etrans;
      [exact (AttachInputs_loop E w this self inputs (m_inputs self) Hs Hvalid
                (length inputs) 0 eq_refl)|].
    simpl. unfold attachedUpTo.
    rewrite firstn_all, drop_ge, app_nil_r; [done|].
    by rewrite length_resize.
Qed.

Lemma AttachInputs_spec_witness :
  AttachInputs Float 0 [Some 2; None] mixedWorld =
    (Ok tt, set_nodes (<[0 := set_m_inputs [Some 2; None]
                                (basicNode (floatOp "Plus" (Some 2)) "sum" [] 1)]>
                         (nodes mixedWorld)) mixedWorld) ∧
  AttachInputs Float 0 [Some 2] mixedWorld = (Fail (Thrown RuntimeError), mixedWorld).
Proof.
  destruct (AttachInputs_spec Float mixedWorld 0
              (basicNode (floatOp "Plus" (Some 2)) "sum" [] 1) [Some 2; None])
    as [_ Hok]; [reflexivity|].
  destruct (AttachInputs_spec Float mixedWorld 0
              (basicNode (floatOp "Plus" (Some 2)) "sum" [] 1) [Some 2])
    as [Herr _]; [reflexivity|].
  split.
  - apply Hok; [by right|].
    intros c Hin. apply elem_of_cons in Hin as [Heq|Hin].
    { injection Heq as ->. eexists 2, _. split; [reflexivity|]. split; reflexivity. }
    apply elem_of_cons in Hin as [Heq|Hin]; [discriminate|].
    by apply elem_of_nil in Hin.
  - apply (Herr 2); [reflexivity|]. simpl. lia.
Defined.

(** ** C7: Validate *)

Lemma ValidateNoNull_ok inputs :
  None ∉ inputs → ValidateNoNull inputs = Ok tt.
Proof.
  induction inputs as [|[c|] rest IH]; intros Hn; simpl.
  - done.
  - apply IH. intros H. apply Hn. by right.
  - exfalso. apply Hn. left.
Qed.

Lemma ValidateNoNull_null inputs :
  None ∈ inputs → ValidateNoNull inputs = Fail (Thrown RuntimeError).
Proof.
  induction inputs as [|[c|] rest IH]; intros Hn; simpl.
  - by apply elem_of_nil in Hn.
  - apply IH. by apply elem_of_cons in Hn as [?|?].
  - done.
Qed.

Lemma ValidateNoEmpty_ok w inputs :
  (∀ input, input ∈ inputs → ∃ c child, input = Some c ∧
      nodes w !! c = Some child ∧ GetSampleMatrixNumRows child ≠ 0) →
  ValidateNoEmpty w inputs = Ok tt.
Proof.
  induction inputs as [|input rest IH]; intros Hall; [done|].
  destruct (Hall input) as (c & child & -> & Hlk & Hne); [left|].
  simpl. unfold lookupNode. rewrite Hlk. simpl.
  destruct (Nat.eqb_spec (GetSampleMatrixNumRows child) 0); [done|].
  apply IH. intros i Hi. apply Hall. by right.
Qed.

Lemma ValidateNoEmpty_empty w inputs :
  (∀ input, input ∈ inputs → ∃ c child, input = Some c ∧
      nodes w !! c = Some child) →
  (∃ c child, Some c ∈ inputs ∧ nodes w !! c = Some child ∧
      GetSampleMatrixNumRows child = 0) →
  ValidateNoEmpty w inputs = Fail (Thrown RuntimeError).
Proof.
  induction inputs as [|input rest IH]; intros Hall (c0 & child0 & Hin & Hlk0 & Hz).
  { by apply elem_of_nil in Hin. }
  destruct (Hall input) as (c & child & -> & Hlk); [left|].
  simpl. unfold lookupNode. rewrite Hlk. simpl.
  destruct (Nat.eqb_spec (GetSampleMatrixNumRows child) 0); [done|].
  apply IH.
  - intros i Hi. apply Hall. by right.
  - apply elem_of_cons in Hin as [Heq|Hin].
    + injection Heq as ->. congruence.
    + by exists c0, child0.
Qed.

(** C7: the base [Validate] throws when some entry of the input list is
    null, in either pass; in the final pass it also throws when some input
    has a sample matrix of zero rows; when all inputs are non-null and, in
    the final pass, non-empty, it returns normally.  In each case the store
    is left as it was. *)
Theorem Validate_base_spec w this self isFinalValidationPass :
  closed w →
  nodes w !! this = Some self →
  (None ∈ m_inputs self →
     Validate this isFinalValidationPass w = (Fail (Thrown RuntimeError), w)) ∧
  (isFinalValidationPass = true →
     (∃ c child, Some c ∈ m_inputs self ∧ nodes w !! c = Some child ∧
        GetSampleMatrixNumRows child = 0) →
     Validate this isFinalValidationPass w = (Fail (Thrown RuntimeError), w)) ∧
  (None ∉ m_inputs self →
     (isFinalValidationPass = true →
        ∀ c child, Some c ∈ m_inputs self → nodes w !! c = Some child →
          GetSampleMatrixNumRows child ≠ 0) →
     Validate this isFinalValidationPass w = (Ok tt, w)).
Proof.
  intros Hcl Hs. unfold Validate.
  rewrite (bind_run _ _ _ _ _ (getNode_run _ _ _ Hs)).
  assert (Hnull : None ∈ m_inputs self →
    bind (readOnly (λ _, ValidateNoNull (m_inputs self)))
      (λ _, if isFinalValidationPass
            then readOnly (λ w0, ValidateNoEmpty w0 (m_inputs self))
            else ret tt) w = (Fail (Thrown RuntimeError), w)).
  { intros Hn. unfold bind, readOnly. by rewrite ValidateNoNull_null. }
  split; [done|]. split.
  - intros -> Hempty.
    destruct (decide (None ∈ m_inputs self)) as [Hn|Hn]; [by apply Hnull|].
    unfold bind, readOnly. rewrite ValidateNoNull_ok by done.
    rewrite ValidateNoEmpty_empty; [done| |done].
    by eapply closed_inputs_live.
  - intros Hn Hne. unfold bind, readOnly. rewrite ValidateNoNull_ok by done.
    destruct isFinalValidationPass; [|done].
    rewrite ValidateNoEmpty_ok; [done|].
    intros input Hin.
    destruct (closed_inputs_live w this self Hcl Hs Hn input Hin)
      as (c & child & -> & Hlk).
    exists c, child. split; [done|]. split; [done|]. by eapply Hne.
Qed.

Lemma Validate_base_spec_witness :
  Validate 0 true plusWorld = (Ok tt, plusWorld).
Proof.
  eapply (Validate_base_spec plusWorld 0
            (basicNode (floatOp "Plus" (Some 2)) "sum" [Some 1; Some 2] 5) true).
  - apply closedb_closed. vm_compute. reflexivity.
  - reflexivity.
  - simpl. intros Hn. repeat (apply elem_of_cons in Hn as [Hn|Hn]; [discriminate|]).
    by apply elem_of_nil in Hn.
  - intros _ c child Hin Hlk. simpl in Hin.
    apply elem_of_cons in Hin as [Heq|Hin].
    { injection Heq as ->. vm_compute in Hlk. injection Hlk as <-. by vm_compute. }
    apply elem_of_cons in Hin as [Heq|Hin].
    { injection Heq as ->. vm_compute in Hlk. injection Hlk as <-. by vm_compute. }
    by apply elem_of_nil in Hin.
Defined.

(** ** C8: Duplicate *)

(** C8 fails on the code: [Duplicate] calls [CopyTo] on the new node with
    the original as its target.  Duplicating [Plus(a, b)] with
    [copyNodeChildren] returns a node without inputs and removes the inputs
    of the original. *)
Lemma Duplicate_copies_into_the_original :
  ∃ copy w',
    Duplicate Float 0 "copy" copyNodeChildren plusWorld = (Ok copy, w') ∧
    m_inputs <$> nodes plusWorld !! 0 = Some [Some 1; Some 2] ∧
    m_inputs <$> nodes w' !! 0 = Some [] ∧
    m_inputs <$> nodes w' !! copy = Some [] ∧
    copy ≠ 0.
Proof.
  eexists _, _. split; [vm_compute; reflexivity|].
  split; [reflexivity|]. split; [reflexivity|]. split; [reflexivity|]. done.
Qed.

(** With [copyNodeAll] the original is renamed and its layout, flags and
    stamp are overwritten with those of the fresh node before the copy of
    the value dereferences the fresh node's null value pointer. *)
Lemma Duplicate_all_overwrites_the_original :
  ∃ w',
    Duplicate Float 0 "copy" copyNodeAll plusWorld = (Fail NullDereference, w') ∧
    m_nodeName <$> nodes plusWorld !! 0 = Some "sum" ∧
    m_nodeName <$> nodes w' !! 0 = Some "copy" ∧
    m_inputs <$> nodes w' !! 0 = Some [] ∧
    m_sampleLayout <$> nodes w' !! 0 = Some (mkTensorShape []).
Proof.
  eexists. split; [vm_compute; reflexivity|].
  split; [reflexivity|]. split; [reflexivity|]. split; reflexivity.
Qed.

(** ** C9: ReducesInTimeWrt *)

(** C9: for nodes A and B, [A.ReducesInTimeWrt(B)] returns true exactly when
    the effective column count of A (the layout's column count, or 1 for a
    node without layout) is strictly smaller than that of B. *)
Theorem ReducesInTimeWrt_iff_fewer_columns w a b na nb :
  nodes w !! a = Some na →
  nodes w !! b = Some nb →
  ∃ r, ReducesInTimeWrt w a (Some b) = Ok r ∧
       (r = true ↔ effectiveColumnCount na < effectiveColumnCount nb).
Proof.
  intros Ha Hb. unfold ReducesInTimeWrt, derefNode, lookupNode.
  rewrite Ha, Hb. simpl. eexists. split; [reflexivity|].
  rewrite Nat.ltb_lt. unfold GetSampleMatrixNumCols, effectiveColumnCount.
  by destruct (m_pMBLayout na), (m_pMBLayout nb).
Qed.

Lemma ReducesInTimeWrt_iff_fewer_columns_witness :
  ∃ r, ReducesInTimeWrt timesWorld 1 (Some 2) = Ok r ∧
       (r = true ↔ 1 < 3).
Proof.
  exact (ReducesInTimeWrt_iff_fewer_columns timesWorld 1 2
           (set_m_gradientInitialized true
              (set_m_gradient (Some 21)
                 (set_m_needsGradient true
                    (basicNode (floatOp "LearnableParameter" None) "W" [] 4))))
           (set_m_gradientInitialized true
              (set_m_gradient (Some 22)
                 (set_m_needsGradient true
                    (set_m_pMBLayout (Some (mkMBLayout 3 1))
                       (basicNode (floatOp "InputValue" None) "x" [] 8)))))
           eq_refl eq_refl).
Defined.

(** ** C10: no sharing of value matrices *)

(** C10: when [g_shareNodeValueMatrices] is false, every node reports its
    output as needed during backprop whatever was set through
    [SetOutputNeededDuringBackprop], and [ReleaseMatricesAfterForwardProp]
    returns without releasing anything. *)
Theorem no_sharing_never_releases_after_forward w this self :
  g_shareNodeValueMatrices w = false →
  nodes w !! this = Some self →
  (∀ f, ∃ w' self',
      SetOutputNeededDuringBackprop this f w = (Ok tt, w') ∧
      nodes w' !! this = Some self' ∧
      m_outputNeededDuringBackprop self' = f ∧
      IsOutputNeededDuringBackprop w' self' = true ∧
      ReleaseMatricesAfterForwardProp this w' = (Ok tt, w')) ∧
  IsOutputNeededDuringBackprop w self = true ∧
  ReleaseMatricesAfterForwardProp this w = (Ok tt, w).
Proof.
  intros Hg Hs.
  assert (Hrel : ∀ w1 n1, g_shareNodeValueMatrices w1 = false →
            nodes w1 !! this = Some n1 →
            ReleaseMatricesAfterForwardProp this w1 = (Ok tt, w1)).
  { intros w1 n1 Hg1 Hn1. unfold ReleaseMatricesAfterForwardProp.
    rewrite (bind_run _ _ _ _ _ (getNode_run _ _ _ Hn1)).
    unfold bind, readOnly, IsOutputNeededDuringBackprop. by rewrite Hg1. }
  split; [|split].
  - intros f. unfold SetOutputNeededDuringBackprop, updateNode. rewrite Hs.
    eexists _, _. split; [reflexivity|]. simpl.
    rewrite lookup_insert_eq. split; [reflexivity|]. split; [reflexivity|].
    split.
    + unfold IsOutputNeededDuringBackprop. simpl. by rewrite Hg.
    + eapply Hrel; [done|]. simpl. by rewrite lookup_insert_eq.
  - unfold IsOutputNeededDuringBackprop. by rewrite Hg.
  - by eapply Hrel.
Qed.

Lemma no_sharing_never_releases_after_forward_witness :
  IsOutputNeededDuringBackprop (bufferWorld false)
    (set_m_gradient (Some 12)
       (set_m_value (Some 10)
          (set_m_outputNeededDuringBackprop false
             (basicNode (floatOp "Sigmoid" (Some 1)) "s" [Some 1] 7)))) = true ∧
  ReleaseMatricesAfterForwardProp 0 (bufferWorld false) = (Ok tt, bufferWorld false).
Proof.
  eapply (no_sharing_never_releases_after_forward (bufferWorld false) 0);
    reflexivity.
Defined.

(** * Further properties *)

(** ** EnumerateNodes on arbitrary graphs *)

Lemma reachableVia_mono w skip roots roots' x :
  (∀ r, r ∈ roots → r ∈ roots') →
  reachableVia w skip roots x → reachableVia w skip roots' x.
Proof.
  intros Hsub Hx. induction Hx as [r Hr|p n c _ IH Hn Hc].
  - apply reachableVia_root. by apply Hsub.
  - by eapply reachableVia_input.
Qed.

Lemma reachableVia_step w skip roots p n c x :
  nodes w !! p = Some n → Some c ∈ enteredInputs skip n →
  (∃ r, Some r ∈ roots ∧ r = p) →
  reachableVia w skip [Some c] x → reachableVia w skip roots x.
Proof.
  intros Hn Hc (r & Hr & ->) Hx. induction Hx as [r Hr'|q m d _ IH Hm Hd].
  - apply list_elem_of_singleton in Hr'. injection Hr' as ->.
    eapply reachableVia_input; [by apply reachableVia_root|done|done].
  - by eapply reachableVia_input.
Qed.

Lemma enumAdds_nil w skip from st : enumAdds w skip from st st [].
Proof.
  split; [by rewrite app_nil_r|]. split.
  { simpl. by rewrite (right_id_L ∅ (∪)). }
  split; [apply NoDup_nil_2|].
  split; [intros x Hx; by apply elem_of_nil in Hx|].
  split; intros x; intros; by (exfalso; eapply not_elem_of_nil).
Qed.

Lemma enumAdds_trans w skip from st1 st2 st3 new1 new2 :
  enumAdds w skip from st1 st2 new1 → enumAdds w skip from st2 st3 new2 →
  enumAdds w skip from st1 st3 (new1 ++ new2).
Proof.
  intros (E1 & V1 & N1 & F1 & R1 & C1) (E2 & V2 & N2 & F2 & R2 & C2).
  split; [by rewrite E2, E1, app_assoc|]. split.
  { rewrite V2, V1, list_to_set_app_L. by rewrite (assoc_L (∪)). }
  split.
  { apply NoDup_app. split; [done|]. split; [|done].
    intros x Hx1 Hx2. apply (F2 x Hx2). rewrite V1.
    apply elem_of_union. right. by apply elem_of_list_to_set. }
  split.
  { intros x Hx. apply elem_of_app in Hx as [Hx|Hx]; [by apply F1|].
    intros Hv. apply (F2 x Hx). rewrite V1. apply elem_of_union. by left. }
  split.
  { intros x Hx. apply elem_of_app in Hx as [Hx|Hx]; [by apply R1|by apply R2]. }
  intros x n c Hx Hn Hc. apply elem_of_app in Hx as [Hx|Hx].
  - rewrite V2. apply elem_of_union. left. by eapply C1.
  - by eapply C2.
Qed.

Lemma enumAdds_from w skip from from' st st' new :
  (∀ x, reachableVia w skip from x → reachableVia w skip from' x) →
  enumAdds w skip from st st' new → enumAdds w skip from' st st' new.
Proof.
  intros Hsub (E & V & N & F & R & C).
  split; [done|]. split; [done|]. split; [done|]. split; [done|].
  split; [|done]. intros x Hx. apply Hsub. by apply R.
Qed.

Lemma reachableVia_inputs w skip p n x :
  nodes w !! p = Some n →
  reachableVia w skip (enteredInputs skip n) x → reachableVia w skip [Some p] x.
Proof.
  intros Hn Hx. induction Hx as [r Hr|q m d _ IH Hm Hd].
  - eapply reachableVia_input; [|exact Hn|exact Hr].
    apply reachableVia_root. left.
  - by eapply reachableVia_input.
Qed.

Lemma EnumerateInputs_entered fuel w skip self st :
  (if bool_decide (OperationName (nodeType self) ≠ "PairNetwork") || negb skip
   then EnumerateInputs (EnumerateNodesRec fuel w skip) (m_inputs self) st
   else Ok st) =
  EnumerateInputs (EnumerateNodesRec fuel w skip) (enteredInputs skip self) st.
Proof.
  unfold enteredInputs.
  by destruct (bool_decide (OperationName (nodeType self) ≠ "PairNetwork")
               || negb skip).
Qed.

Lemma EnumerateInputs_adds fuel w skip inputs :
  (∀ c st st', EnumerateNodesRec fuel w skip c st = Ok st' →
     ∃ new, enumAdds w skip [Some c] st st' new ∧ c ∈ st'.1) →
  ∀ st st', EnumerateInputs (EnumerateNodesRec fuel w skip) inputs st = Ok st' →
    ∃ new, enumAdds w skip inputs st st' new ∧ ∀ c, Some c ∈ inputs → c ∈ st'.1.
Proof.
  intros Hrec. induction inputs as [|[c|] rest IH]; intros st st' Hrun.
  - injection Hrun as <-. exists []. split; [apply enumAdds_nil|].
    intros c Hc. by apply elem_of_nil in Hc.
  - simpl in Hrun. apply bindR_Ok in Hrun as (st1 & Hrun1 & Hrun2).
    destruct (Hrec c st st1 Hrun1) as (new1 & Hadds1 & Hc1).
    destruct (IH st1 st' Hrun2) as (new2 & Hadds2 & Hrest).
    exists (new1 ++ new2). split.
    + eapply enumAdds_trans.
      * eapply enumAdds_from; [|exact Hadds1].
        intros x0. apply reachableVia_mono. intros r Hr.
        apply list_elem_of_singleton in Hr as ->. left.
      * eapply enumAdds_from; [|exact Hadds2].
        intros x0. apply reachableVia_mono. intros r Hr. by right.
    + intros c' Hc'. apply elem_of_cons in Hc' as [[= ->]|Hc']; [|by apply Hrest].
      destruct Hadds2 as (_ & -> & _). apply elem_of_union. by left.
  - simpl in Hrun. destruct (IH st st' Hrun) as (new & Hadds & Hrest).
    exists new. split.
    + eapply enumAdds_from; [|exact Hadds].
      intros x0. apply reachableVia_mono. intros r Hr. by right.
    + intros c' Hc'. apply elem_of_cons in Hc' as [[=]|Hc']. by apply Hrest.
Qed.

Lemma EnumerateNodesRec_adds w skip fuel :
  ∀ this st st', EnumerateNodesRec fuel w skip this st = Ok st' →
    ∃ new, enumAdds w skip [Some this] st st' new ∧ this ∈ st'.1.
Proof.
  induction fuel as [|fuel IH]; intros this st st' Hrun; [done|].
  simpl in Hrun. destruct (decide (this ∈ st.1)) as [Hin|Hnin].
  { injection Hrun as <-. exists []. split; [apply enumAdds_nil|done]. }
  unfold lookupNode in Hrun.
  destruct (nodes w !! this) as [self|] eqn:Hself; [|done].
  simpl in Hrun. rewrite EnumerateInputs_entered in Hrun.
  apply bindR_Ok in Hrun as (st2 & Hrun & [= <-]).
  destruct (EnumerateInputs_adds fuel w skip (enteredInputs skip self) IH _ _ Hrun)
    as (new2 & (E2 & V2 & N2 & F2 & R2 & C2) & Hinputs).
  simpl in E2, V2, F2.
  assert (Hthis : this ∈ st2.1).
  { rewrite V2. apply elem_of_union. left. apply elem_of_union. left.
    by apply elem_of_singleton. }
  exists (new2 ++ [this]). split; [|done].
  split; [simpl; by rewrite E2, app_assoc|]. split.
  { simpl. rewrite V2, list_to_set_app_L. apply set_eq. intros y.
    rewrite !elem_of_union, !elem_of_list_to_set, list_elem_of_singleton,
      elem_of_singleton. tauto. }
  split.
  { apply NoDup_app. split; [done|]. split; [|apply NoDup_singleton].
    intros x Hx Hx'. apply list_elem_of_singleton in Hx' as ->.
    apply (F2 this Hx). apply elem_of_union. left. by apply elem_of_singleton. }
  split.
  { intros x Hx Hv. apply elem_of_app in Hx as [Hx|Hx].
    - apply (F2 x Hx). apply elem_of_union. by right.
    - by apply list_elem_of_singleton in Hx as ->. }
  split.
  { intros x Hx. apply elem_of_app in Hx as [Hx|Hx].
    - eapply reachableVia_inputs; [exact Hself|]. by apply R2.
    - apply list_elem_of_singleton in Hx as ->. apply reachableVia_root. left. }
  intros x n c Hx Hn Hc. simpl. apply elem_of_app in Hx as [Hx|Hx].
  - by eapply C2.
  - apply list_elem_of_singleton in Hx as ->.
    rewrite Hself in Hn. injection Hn as <-. by apply Hinputs.
Qed.

Lemma EnumerateRoots_adds w skip fuel roots :
  ∀ st st', EnumerateRoots fuel w skip roots st = Ok st' →
    ∃ new, enumAdds w skip roots st st' new ∧ ∀ r, Some r ∈ roots → r ∈ st'.1.
Proof.
  induction roots as [|[r|] rest IH]; intros st st' Hrun; [| |done].
  - injection Hrun as <-. exists []. split; [apply enumAdds_nil|].
    intros r Hr. by apply elem_of_nil in Hr.
  - simpl in Hrun. apply bindR_Ok in Hrun as (st1 & Hrun1 & Hrun2).
    destruct (EnumerateNodesRec_adds w skip fuel r st st1 Hrun1) as (new1 & Hadds1 & Hr1).
    destruct (IH st1 st' Hrun2) as (new2 & Hadds2 & Hrest).
    exists (new1 ++ new2). split.
    + eapply enumAdds_trans.
      * eapply enumAdds_from; [|exact Hadds1].
        intros x0. apply reachableVia_mono. intros r' Hr'.
        apply list_elem_of_singleton in Hr' as ->. left.
      * eapply enumAdds_from; [|exact Hadds2].
        intros x0. apply reachableVia_mono. intros r' Hr'. by right.
    + intros r' Hr'. apply elem_of_cons in Hr' as [[= ->]|Hr']; [|by apply Hrest].
      destruct Hadds2 as (_ & -> & _). apply elem_of_union. by left.
Qed.

Lemma EnumerateRoots_terminates w skip fuel roots :
  closed w →
  size (nodes w) < fuel →
  (∀ root, root ∈ roots → ∃ r, root = Some r ∧ is_Some (nodes w !! r)) →
  ∀ st, ∃ st', EnumerateRoots fuel w skip roots st = Ok st'.
Proof.
  intros Hclosed Hfuel. induction roots as [|root rest IH]; intros Hroots st.
  { by exists st. }
  destruct (Hroots root) as (r & -> & Hlive); [left|].
  simpl.
  destruct (EnumerateNodesRec_terminates w Hclosed skip fuel r st Hlive)
    as (st1 & -> & _).
  { eapply Nat.le_lt_trans; [|exact Hfuel]. rewrite <- size_dom.
    apply subseteq_size. intros x. rewrite elem_of_difference. by intros [? _]. }
  simpl. apply IH. intros root Hroot. apply Hroots. by right.
Qed.

(** X1: on every closed store, cyclic or not, and for either value of
    [skipPairNetwork], [EnumerateNodes] returns with any fuel above the
    number of stored nodes; the list has no duplicates and holds exactly
    the nodes reachable from the roots through the inputs the enumeration
    enters. *)
Theorem EnumerateNodes_lists_reachable w roots skip fuel :
  closed w →
  (∀ root, root ∈ roots → ∃ r, root = Some r ∧ is_Some (nodes w !! r)) →
  size (nodes w) < fuel →
  ∃ l, EnumerateNodes fuel w roots skip = Ok l ∧
       NoDup l ∧
       ∀ x, x ∈ l ↔ reachableVia w skip roots x.
Proof.
  intros Hclosed Hroots Hfuel.
  destruct (EnumerateRoots_terminates w skip fuel roots Hclosed Hfuel Hroots (∅, []))
    as (st' & Hrun).
  destruct (EnumerateRoots_adds w skip fuel roots _ _ Hrun)
    as (new & (E & V & N & F & R & C) & Hin).
  simpl in E, V. rewrite (left_id_L ∅ (∪)) in V.
  exists st'.2. unfold EnumerateNodes. rewrite Hrun. split; [done|].
  rewrite E. split; [done|]. intros x. split; [by apply R|].
  intros Hx. induction Hx as [r Hr|p n c _ IH Hn Hc].
  - apply Hin in Hr. rewrite V in Hr. by apply elem_of_list_to_set in Hr.
  - specialize (C p n c IH Hn Hc). rewrite V in C.
    by apply elem_of_list_to_set in C.
Qed.

Lemma EnumerateNodes_lists_reachable_witness :
  ∃ l, EnumerateNodes 5 ringWorld [Some 0] false = Ok l ∧
       l = [2; 1; 0] ∧ NoDup l ∧ (∀ x, x ∈ l ↔ reachableVia ringWorld false [Some 0] x).
Proof.
  destruct (EnumerateNodes_lists_reachable ringWorld [Some 0] false 5)
    as (l & Hrun & Hnodup & Hiff).
  - apply closedb_closed. vm_compute. reflexivity.
  - intros root Hroot. apply list_elem_of_singleton in Hroot as ->.
    exists 0. split; [reflexivity|]. eexists. reflexivity.
  - vm_compute. lia.
  - exists l. split; [exact Hrun|]. split; [|done].
    vm_compute in Hrun. by injection Hrun as <-.
Defined.









(** ** Time stamps and lazy recomputation *)

Lemma CreateUniqId_run w :
  (0 ≤ s_timeStampCounter w < 2 ^ 63)%Z →
  CreateUniqId w =
    (Ok (s_timeStampCounter w),
     set_s_timeStampCounter (s_timeStampCounter w + 1)%Z w).
Proof.
  intros Hk. unfold CreateUniqId. rewrite int64_wrap_id by lia.
  rewrite Z.mod_small by lia. reflexivity.
Qed.

Lemma BumpEvalTimeStamp_run w this self :
  nodes w !! this = Some self →
  (0 ≤ s_timeStampCounter w < 2 ^ 63)%Z →
  BumpEvalTimeStamp this w =
    (Ok tt,
     set_nodes (<[this := set_m_evalTimeStamp (s_timeStampCounter w) self]> (nodes w))
       (set_s_timeStampCounter (s_timeStampCounter w + 1)%Z w)).
Proof.
  intros Hs Hk. unfold BumpEvalTimeStamp.
  rewrite (bind_run _ _ _ _ _ (CreateUniqId_run w Hk)).
  by erewrite updateNode_run by exact Hs.
Qed.

(** X5: once the inputs of a node carry stamps given out earlier, bumping
    the node's own stamp makes it up to date: the stamp is the old value
    of the counter, the counter advances by one, and
    [IsOutputOlderThanInputs] returns false. *)
Theorem BumpEvalTimeStamp_makes_up_to_date w this self :
  nodes w !! this = Some self →
  (0 ≤ s_timeStampCounter w < 2 ^ 63)%Z →
  inputsStampedBefore w this self →
  ∃ w', BumpEvalTimeStamp this w = (Ok tt, w') ∧
        m_evalTimeStamp <$> nodes w' !! this = Some (s_timeStampCounter w) ∧
        s_timeStampCounter w' = (s_timeStampCounter w + 1)%Z ∧
        IsOutputOlderThanInputs w' this = Ok false.
Proof.
  intros Hs Hk Hinputs. eexists.
  split; [by apply BumpEvalTimeStamp_run|].
  split; [simpl; by rewrite lookup_insert_eq|]. split; [done|].
  unfold IsOutputOlderThanInputs, lookupNode. simpl.
  rewrite lookup_insert_eq. simpl.
  set (self' := set_m_evalTimeStamp (s_timeStampCounter w) self).
  set (w' := set_nodes _ _).
  destruct (IsOutputOlderThanInputs_from_spec w' self' (m_inputs self))
    as (b & Hb & Hiff).
  { intros input Hin. destruct (Hinputs input Hin) as (c & child & -> & Hne & Hc & Hr).
    exists c, child. split; [done|]. split.
    - simpl. by rewrite lookup_insert_ne.
    - simpl. lia. }
  rewrite Hb. destruct b; [|done].
  destruct Hiff as [Hex _].
  destruct (Hex eq_refl) as (c & child & Hin & Hc & Hle).
  destruct (Hinputs (Some c) Hin) as (c0 & child0 & [= <-] & Hne & Hc0 & Hr).
  simpl in Hc. rewrite lookup_insert_ne in Hc by done.
  rewrite Hc0 in Hc. injection Hc as <-. simpl in Hle. lia.
Qed.

Lemma BumpEvalTimeStamp_makes_up_to_date_witness :
  ∃ w', BumpEvalTimeStamp 0 plusWorld = (Ok tt, w') ∧
        m_evalTimeStamp <$> nodes w' !! 0 = Some 100%Z ∧
        IsOutputOlderThanInputs w' 0 = Ok false.
Proof.
  destruct (BumpEvalTimeStamp_makes_up_to_date plusWorld 0
              (basicNode (floatOp "Plus" (Some 2)) "sum" [Some 1; Some 2] 5))
    as (w' & Hrun & Hstamp & _ & Hold).
  - reflexivity.
  - simpl. lia.
  - intros input Hin. simpl in Hin.
    apply elem_of_cons in Hin as [->|Hin].
    { eexists 1, _. split; [reflexivity|]. split; [done|].
      split; [reflexivity|]. simpl. lia. }
    apply list_elem_of_singleton in Hin as ->.
    eexists 2, _. split; [reflexivity|]. split; [done|].
    split; [reflexivity|]. simpl. lia.
  - exists w'. split; [exact Hrun|]. split; [exact Hstamp|exact Hold].
Defined.

(** X6: bumping the stamp of an input makes its consumer stale: if the
    stamps of a node and of its inputs lie between 0 and the counter, then
    after [BumpEvalTimeStamp] on one of the inputs
    [IsOutputOlderThanInputs] on the node returns true. *)
Theorem BumpEvalTimeStamp_of_input_makes_stale w this self c :
  nodes w !! this = Some self →
  (0 ≤ s_timeStampCounter w < 2 ^ 63)%Z →
  (0 ≤ m_evalTimeStamp self ≤ s_timeStampCounter w)%Z →
  inputsStamped w self →
  Some c ∈ m_inputs self →
  ∃ w', BumpEvalTimeStamp c w = (Ok tt, w') ∧
        IsOutputOlderThanInputs w' this = Ok true.
Proof.
  intros Hs Hk Hself Hinputs Hin.
  destruct (Hinputs (Some c) Hin) as (c0 & child & [= <-] & Hc & Hr).
  eexists. split; [by apply BumpEvalTimeStamp_run|].
  set (child' := set_m_evalTimeStamp (s_timeStampCounter w) child).
  set (w' := set_nodes _ _).
  assert (Hself' : ∃ self', nodes w' !! this = Some self' ∧
            m_inputs self' = m_inputs self ∧
            (0 ≤ m_evalTimeStamp self' ≤ s_timeStampCounter w)%Z).
  { subst w'. simpl. destruct (decide (this = c)) as [->|Hne].
    - rewrite lookup_insert_eq. eexists. split; [done|].
      rewrite Hs in Hc. injection Hc as <-. split; [done|]. simpl. lia.
    - rewrite lookup_insert_ne by done. by exists self. }
  destruct Hself' as (self' & Hs' & Hinp & Hr').
  unfold IsOutputOlderThanInputs, lookupNode. rewrite Hs'. simpl. rewrite Hinp.
  destruct (IsOutputOlderThanInputs_from_spec w' self' (m_inputs self))
    as (b & Hb & Hiff).
  { intros input Hi. destruct (Hinputs input Hi) as (d & dn & -> & Hd & Hdr).
    destruct (decide (d = c)) as [->|Hne].
    - exists c, child'. split; [done|]. split.
      + subst w'. simpl. by rewrite lookup_insert_eq.
      + simpl. lia.
    - exists d, dn. split; [done|]. split.
      + subst w'. simpl. by rewrite lookup_insert_ne.
      + lia. }
  rewrite Hb. f_equal. apply Hiff. exists c, child'. split; [done|]. split.
  - subst w'. simpl. by rewrite lookup_insert_eq.
  - simpl. lia.
Qed.

Lemma BumpEvalTimeStamp_of_input_makes_stale_witness :
  ∃ w', BumpEvalTimeStamp 2 diamondWorld = (Ok tt, w') ∧
        IsOutputOlderThanInputs w' 0 = Ok true.
Proof.
  apply (BumpEvalTimeStamp_of_input_makes_stale diamondWorld 0
           (basicNode (floatOp "Times" (Some 2)) "t" [Some 1; Some 2] 4) 2).
  - reflexivity.
  - simpl. lia.
  - simpl. lia.
  - intros input Hin. simpl in Hin.
    apply elem_of_cons in Hin as [->|Hin].
    { eexists 1, _. split; [reflexivity|]. split; [reflexivity|]. simpl. lia. }
    apply list_elem_of_singleton in Hin as ->.
    eexists 2, _. split; [reflexivity|]. split; [reflexivity|]. simpl. lia.
  - simpl. right. left.
Defined.

(** X7: a stamp taken with [ResetEvalTimeStamp] does not advance the
    counter, so the next [BumpEvalTimeStamp] hands out the very same
    value: the two nodes tie, and [IsOlderThan] holds in both directions. *)
Theorem ResetEvalTimeStamp_ties_with_next_bump w this self c child :
  nodes w !! this = Some self →
  nodes w !! c = Some child →
  c ≠ this →
  (0 ≤ s_timeStampCounter w < 2 ^ 63)%Z →
  ∃ w1 w2 self2 child2,
    ResetEvalTimeStamp this w = (Ok tt, w1) ∧
    BumpEvalTimeStamp c w1 = (Ok tt, w2) ∧
    nodes w2 !! this = Some self2 ∧ nodes w2 !! c = Some child2 ∧
    m_evalTimeStamp self2 = m_evalTimeStamp child2 ∧
    IsOlderThan self2 child2 = true ∧ IsOlderThan child2 self2 = true.
Proof.
  intros Hs Hc Hne Hk.
  assert (Hreset : ResetEvalTimeStamp this w =
    (Ok tt, set_nodes (<[this := set_m_evalTimeStamp (s_timeStampCounter w) self]>
                         (nodes w)) w)).
  { unfold ResetEvalTimeStamp, bind, readOnly.
    erewrite updateNode_run by exact Hs. by rewrite int64_wrap_id by lia. }
  eexists _, _, _, _. split; [exact Hreset|]. split.
  { apply BumpEvalTimeStamp_run; [|done]. simpl. by rewrite lookup_insert_ne. }
  simpl. split.
  { rewrite lookup_insert_ne by done. by rewrite lookup_insert_eq. }
  split; [by rewrite lookup_insert_eq|]. split; [done|].
  unfold IsOlderThan. simpl. rewrite Z.sub_diag. by vm_compute.
Qed.

Lemma ResetEvalTimeStamp_ties_with_next_bump_witness :
  ∃ w1 w2 self2 child2,
    ResetEvalTimeStamp 0 plusWorld = (Ok tt, w1) ∧
    BumpEvalTimeStamp 1 w1 = (Ok tt, w2) ∧
    nodes w2 !! 0 = Some self2 ∧ nodes w2 !! 1 = Some child2 ∧
    m_evalTimeStamp self2 = m_evalTimeStamp child2 ∧
    IsOlderThan self2 child2 = true ∧ IsOlderThan child2 self2 = true.
Proof.
  eapply (ResetEvalTimeStamp_ties_with_next_bump plusWorld 0 _ 1).
  - reflexivity.
  - reflexivity.
  - done.
  - simpl. lia.
Defined.

(** ** SetInput *)

Lemma pushNullsWhile_spec rounds childIndex inputs :
  S childIndex - length inputs ≤ rounds →
  pushNullsWhile rounds childIndex inputs =
    inputs ++ replicate (S childIndex - length inputs) None.
Proof.
  revert inputs. induction rounds as [|rounds IH]; intros inputs Hr; simpl.
  { replace (S childIndex - length inputs) with 0 by lia. by rewrite app_nil_r. }
  destruct (Nat.leb_spec (length inputs) childIndex) as [Hle|Hgt].
  - rewrite IH by (rewrite length_app; simpl; lia).
    rewrite length_app. simpl.
    replace (S childIndex - length inputs)
      with (S (S childIndex - (length inputs + 1))) by lia.
    simpl. by rewrite <- app_assoc.
  - replace (S childIndex - length inputs) with 0 by lia. by rewrite app_nil_r.
Qed.

Lemma UpCast_run E w c child :
  nodes w !! c = Some child →
  nodeClass (nodeType child) = ComputationNodeOf E →
  UpCast E (Some c) w = (Ok c, w).
Proof.
  intros Hc Hcl. unfold UpCast.
  rewrite (bind_run _ _ _ _ _ (getNode_run _ _ _ Hc)). by rewrite decide_True.
Qed.

Lemma UpCast_reject E w c child :
  nodes w !! c = Some child →
  nodeClass (nodeType child) ≠ ComputationNodeOf E →
  UpCast E (Some c) w = (Fail (Thrown InvalidArgument), w).
Proof.
  intros Hc Hcl. unfold UpCast.
  rewrite (bind_run _ _ _ _ _ (getNode_run _ _ _ Hc)). by rewrite decide_False.
Qed.

Lemma SetInput_run E w this self childIndex c child :
  nodes w !! this = Some self →
  nodes w !! c = Some child →
  nodeClass (nodeType child) = ComputationNodeOf E →
  childIndex ≤ length (m_inputs self) →
  SetInput E this childIndex (Some c) w =
    (Ok tt,
     set_nodes
       (<[this := set_m_inputs
                    (<[childIndex := Some c]>
                       (m_inputs self ++
                        replicate (S childIndex - length (m_inputs self)) None))
                    self]> (nodes w)) w).
Proof.
  intros Hs Hc Hcl Hle. unfold SetInput.
  rewrite (bind_run _ _ _ _ _ (UpCast_run _ _ _ _ Hc Hcl)).
  rewrite (bind_run _ _ _ _ _ (getNode_run _ _ _ Hs)).
  destruct (Nat.ltb_spec (length (m_inputs self)) childIndex) as [?|_]; [lia|].
  unfold when. unfold bind at 1. unfold ret at 1.
  erewrite bind_run by (by apply updateNode_run).
  erewrite updateNode_run by (cbn -[pushNullsWhile]; apply lookup_insert_eq).
  cbn -[pushNullsWhile]. rewrite insert_insert_eq.
  rewrite pushNullsWhile_spec by lia. reflexivity.
Qed.

Lemma UpCast_cases E inode w :
  (∃ c child, inode = Some c ∧ nodes w !! c = Some child ∧
     nodeClass (nodeType child) = ComputationNodeOf E ∧
     UpCast E inode w = (Ok c, w)) ∨
  (∃ f, UpCast E inode w = (Fail f, w)).
Proof.
  destruct inode as [c|]; [|right; by eexists].
  destruct (nodes w !! c) as [child|] eqn:Hc.
  - destruct (decide (nodeClass (nodeType child) = ComputationNodeOf E)) as [Hcl|Hcl].
    + left. exists c, child. split; [done|]. split; [done|]. split; [done|].
      by eapply UpCast_run.
    + right. eexists. by eapply UpCast_reject.
  - right. exists DanglingPointer. unfold UpCast, bind, getNode, readOnly, lookupNode.
    by rewrite Hc.
Qed.

(** X8: [SetInput(i, node)] with a node of the element type and
    [i <= m_inputs.size()] returns normally; afterwards the list has its
    old length, or one more when [i] was the old length, entry [i] is
    [node], the entries at other indices are as before, and [Input(i)]
    returns [node].  With [i > m_inputs.size()], with a null [node] or with
    a node of another class it throws an invalid-argument error and leaves
    the store as it was. *)
Theorem SetInput_spec E w this self childIndex :
  nodes w !! this = Some self →
  (∀ c child,
     nodes w !! c = Some child →
     nodeClass (nodeType child) = ComputationNodeOf E →
     childIndex ≤ length (m_inputs self) →
     ∃ w' self',
       SetInput E this childIndex (Some c) w = (Ok tt, w') ∧
       nodes w' !! this = Some self' ∧
       length (m_inputs self') = max (length (m_inputs self)) (S childIndex) ∧
       m_inputs self' !! childIndex = Some (Some c) ∧
       (∀ j, j ≠ childIndex → j < length (m_inputs self) →
             m_inputs self' !! j = m_inputs self !! j) ∧
       Input E this childIndex w' = (Ok c, w')) ∧
  (∀ c child,
     nodes w !! c = Some child →
     nodeClass (nodeType child) = ComputationNodeOf E →
     length (m_inputs self) < childIndex →
     SetInput E this childIndex (Some c) w = (Fail (Thrown InvalidArgument), w)) ∧
  SetInput E this childIndex None w = (Fail (Thrown InvalidArgument), w) ∧
  (∀ c child,
     nodes w !! c = Some child →
     nodeClass (nodeType child) ≠ ComputationNodeOf E →
     SetInput E this childIndex (Some c) w = (Fail (Thrown InvalidArgument), w)).
Proof.
  intros Hs. split; [|split; [|split]].
  - intros c child Hc Hcl Hle.
    set (inputs' := <[childIndex := Some c]>
           (m_inputs self ++ replicate (S childIndex - length (m_inputs self)) None)).
    assert (Hlen : length inputs' = max (length (m_inputs self)) (S childIndex)).
    { unfold inputs'. rewrite length_insert, length_app, length_replicate. lia. }
    assert (Hat : inputs' !! childIndex = Some (Some c)).
    { unfold inputs'. apply list_lookup_insert_eq.
      rewrite length_app, length_replicate. lia. }
    eexists _, _. split; [by eapply SetInput_run|].
    simpl. rewrite lookup_insert_eq. split; [done|].
    split; [exact Hlen|]. split; [exact Hat|]. split.
    + intros j Hj Hlt. simpl. unfold inputs'.
      rewrite list_lookup_insert_ne by done. by rewrite lookup_app_l.
    + destruct (decide (c = this)) as [->|Hne].
      * rewrite Hs in Hc. injection Hc as <-.
        eapply Input_run; simpl.
        -- apply lookup_insert_eq.
        -- exact Hat.
        -- apply lookup_insert_eq.
        -- done.
      * eapply Input_run; simpl.
        -- apply lookup_insert_eq.
        -- exact Hat.
        -- rewrite lookup_insert_ne by done. exact Hc.
        -- done.
  - intros c child Hc Hcl Hgt. unfold SetInput.
    rewrite (bind_run _ _ _ _ _ (UpCast_run _ _ _ _ Hc Hcl)).
    rewrite (bind_run _ _ _ _ _ (getNode_run _ _ _ Hs)).
    destruct (Nat.ltb_spec (length (m_inputs self)) childIndex) as [_|?]; [|lia].
    reflexivity.
  - reflexivity.
  - intros c child Hc Hcl. unfold SetInput.
    by rewrite (bind_fail _ _ _ _ _ (UpCast_reject _ _ _ _ Hc Hcl)).
Qed.

Lemma SetInput_spec_witness :
  ∃ w' self',
    SetInput Float 0 0 (Some 2) mixedWorld = (Ok tt, w') ∧
    nodes w' !! 0 = Some self' ∧
    m_inputs self' = [Some 2] ∧
    Input Float 0 0 w' = (Ok 2, w').
Proof.
  destruct (SetInput_spec Float mixedWorld 0
              (basicNode (floatOp "Plus" (Some 2)) "sum" [] 1) 0) as [Hok _];
    [reflexivity|].
  destruct (Hok 2 (basicNode (floatOp "InputValue" None) "f" [] 1))
    as (w' & self' & Hrun & Hs' & Hlen & Hat & _ & Hinput).
  - reflexivity.
  - reflexivity.
  - simpl. lia.
  - exists w', self'. split; [exact Hrun|]. split; [exact Hs'|]. split; [|exact Hinput].
    destruct (m_inputs self') as [|x [|y rest]]; simpl in Hlen; [lia| |lia].
    simpl in Hat. by injection Hat as ->.
Defined.

(** X9: [SetInput] never leaves a hole: whatever its outcome, if no entry
    of the receiver's input list was null before the call, none is null
    after it. *)
Theorem SetInput_keeps_inputs_connected E w this self childIndex inode r w' :
  nodes w !! this = Some self →
  None ∉ m_inputs self →
  SetInput E this childIndex inode w = (r, w') →
  ∃ self', nodes w' !! this = Some self' ∧ None ∉ m_inputs self'.
Proof.
  intros Hs Hnn Hrun. unfold SetInput in Hrun.
  destruct (UpCast_cases E inode w)
    as [(c & child & -> & Hc & Hcl & Hup)|(f & Hup)].
  2:{ rewrite (bind_fail _ _ _ _ _ Hup) in Hrun. injection Hrun as <- <-.
      by exists self. }
  rewrite (bind_run _ _ _ _ _ Hup) in Hrun.
  rewrite (bind_run _ _ _ _ _ (getNode_run _ _ _ Hs)) in Hrun.
  destruct (Nat.ltb_spec (length (m_inputs self)) childIndex) as [Hgt|Hle].
  { injection Hrun as <- <-. by exists self. }
  pose proof (SetInput_run E w this self childIndex c child Hs Hc Hcl Hle) as Hok.
  unfold SetInput in Hok.
  rewrite (bind_run _ _ _ _ _ (UpCast_run _ _ _ _ Hc Hcl)) in Hok.
  rewrite (bind_run _ _ _ _ _ (getNode_run _ _ _ Hs)) in Hok.
  destruct (Nat.ltb_spec (length (m_inputs self)) childIndex) as [?|_]; [lia|].
  rewrite Hok in Hrun. injection Hrun as <- <-.
  eexists. simpl. rewrite lookup_insert_eq. split; [done|]. simpl.
  intros Hnone. apply list_elem_of_lookup in Hnone as [j Hj].
  destruct (decide (j = childIndex)) as [->|Hne].
  - rewrite list_lookup_insert_eq in Hj; [done|].
    rewrite length_app, length_replicate. lia.
  - rewrite list_lookup_insert_ne in Hj by done.
    apply lookup_app_Some in Hj as [Hj|[Hlen Hj]].
    + apply Hnn. by eapply list_elem_of_lookup_2.
    + apply lookup_replicate in Hj as [_ Hj]. lia.
Qed.

Lemma SetInput_keeps_inputs_connected_witness :
  ∃ self', nodes (SetInput Float 0 0 (Some 2) mixedWorld).2 !! 0 = Some self' ∧
           None ∉ m_inputs self'.
Proof.
  eapply (SetInput_keeps_inputs_connected Float mixedWorld 0 _ 0 (Some 2)).
  - reflexivity.
  - simpl. apply not_elem_of_nil.
  - apply surjective_pairing.
Defined.

(** ** IsEqualTo *)

Lemma sameInputPointers_refl l : sameInputPointers l l = true.
Proof. induction l as [|x l IH]; simpl; [done|]. by rewrite decide_True. Qed.

Lemma sameInputPointers_sym l1 l2 :
  sameInputPointers l1 l2 = sameInputPointers l2 l1.
Proof.
  revert l2. induction l1 as [|x l1 IH]; intros [|y l2]; simpl; try done.
  destruct (decide (x = y)) as [->|Hne].
  - rewrite decide_True by done. apply IH.
  - by rewrite decide_False by congruence.
Qed.

Lemma sameInputPointers_eq l1 l2 :
  length l1 = length l2 → sameInputPointers l1 l2 = true → l1 = l2.
Proof.
  revert l2. induction l1 as [|x l1 IH]; intros [|y l2]; simpl; try done.
  intros [= Hlen]. destruct (decide (x = y)) as [->|]; [|done].
  intros H. f_equal. by apply IH.
Qed.

(** X10: [IsEqualTo] is reflexive and symmetric on stored nodes.  It
    returns true exactly when the operation names agree and either the node
    names and the numbers of inputs agree, or the input lists are the same
    non-empty list of pointers. *)
Theorem IsEqualTo_reflexive_symmetric w a b na nb :
  nodes w !! a = Some na →
  nodes w !! b = Some nb →
  IsEqualTo w a (Some a) = Ok true ∧
  IsEqualTo w a (Some b) = IsEqualTo w b (Some a) ∧
  (IsEqualTo w a (Some b) = Ok true ↔
   OperationName (nodeType na) = OperationName (nodeType nb) ∧
   ((m_nodeName na = m_nodeName nb ∧
     length (m_inputs na) = length (m_inputs nb)) ∨
    (m_inputs na = m_inputs nb ∧ m_inputs na ≠ []))).
Proof.
  intros Ha Hb. unfold IsEqualTo, derefNode, lookupNode. rewrite Ha, Hb. simpl.
  split; [|split].
  - rewrite bool_decide_eq_false_2 by (intros H; by apply H).
    rewrite Nat.eqb_refl. simpl. by rewrite bool_decide_eq_true_2.
  - rewrite (Nat.eqb_sym (length (m_inputs nb))).
    rewrite (sameInputPointers_sym (m_inputs nb)).
    rewrite (andb_comm (IsLeaf nb)).
    assert (H1 : bool_decide (OperationName (nodeType na) ≠ OperationName (nodeType nb))
               = bool_decide (OperationName (nodeType nb) ≠ OperationName (nodeType na))).
    { apply bool_decide_ext. split; intros H E; by apply H. }
    assert (H2 : bool_decide (m_nodeName na = m_nodeName nb)
               = bool_decide (m_nodeName nb = m_nodeName na)).
    { apply bool_decide_ext. split; by intros ->. }
    by rewrite H1, H2.
  - destruct (decide (OperationName (nodeType na) = OperationName (nodeType nb)))
      as [Hop|Hop].
    2:{ rewrite bool_decide_eq_true_2 by done. simpl. split; [done|]. by intros [? _]. }
    rewrite bool_decide_eq_false_2 by (intros H; by apply H). simpl.
    destruct (Nat.eqb_spec (length (m_inputs na)) (length (m_inputs nb))) as [Hlen|Hlen];
      simpl.
    2:{ split; [done|]. intros [_ [[_ ?]|[Heq _]]]; [done|]. by rewrite Heq in Hlen. }
    destruct (decide (m_nodeName na = m_nodeName nb)) as [Hn|Hn].
    { rewrite bool_decide_eq_true_2 by done. split; [|done].
      intros _. split; [done|]. by left. }
    rewrite bool_decide_eq_false_2 by done.
    unfold IsLeaf, GetNumInputs.
    destruct (m_inputs na) as [|x la] eqn:Ea.
    { destruct (m_inputs nb) as [|y lb]; [|done]. simpl.
      split; [done|]. intros [_ [[? _]|[_ ?]]]; done. }
    simpl. split.
    + intros [= Hsame]. split; [done|]. right. split; [|done].
      rewrite <- Ea. apply sameInputPointers_eq; [by rewrite Ea|].
      by rewrite Ea.
    + intros [_ [[? _]|[<- _]]]; [done|].
      f_equal. simpl. rewrite decide_True by done. apply sameInputPointers_refl.
Qed.

Lemma IsEqualTo_reflexive_symmetric_witness :
  IsEqualTo namesakeWorld 0 (Some 0) = Ok true ∧
  IsEqualTo namesakeWorld 0 (Some 1) = IsEqualTo namesakeWorld 1 (Some 0).
Proof.
  destruct (IsEqualTo_reflexive_symmetric namesakeWorld 0 1
              (basicNode (floatOp "Plus" (Some 2)) "s" [Some 3; Some 3] 1)
              (basicNode (floatOp "Plus" (Some 2)) "s" [Some 3; Some 4] 1))
    as (Hrefl & Hsym & _); [reflexivity|reflexivity|].
  split; [exact Hrefl|exact Hsym].
Defined.


(** ** Dimensions *)





Lemma UpdateFunctionValuesSize_run w this self v mv :
  nodes w !! this = Some self →
  m_value self = Some v →
  matrices w !! v = Some mv →
  UpdateFunctionValuesSize this w =
    (Ok tt,
     set_matrices
       (<[v := Resize (DetermineDataSize self).1 (DetermineDataSize self).2 mv]>
          (matrices w)) w).
Proof.
  intros Hs Hv Hmv. unfold UpdateFunctionValuesSize, UpdateDataSize.
  rewrite (bind_run _ _ _ _ _ (getNode_run _ _ _ Hs)).
  rewrite (bind_run _ _ _ _ _ (getNode_run _ _ _ Hs)).
  rewrite Hv. by apply updateMatrix_run.
Qed.

(** X14: [NotifyFunctionValuesMBSizeModified] never changes the store; on a
    node with an allocated value it returns normally exactly when the node
    has a layout and the value has [GetSampleMatrixNumRows] rows and as
    many columns as the layout, and throws a logic error otherwise; right
    after [UpdateFunctionValuesSize] on a node with layout it returns
    normally. *)
Theorem NotifyFunctionValuesMBSizeModified_spec w this self v mv :
  nodes w !! this = Some self →
  m_value self = Some v →
  matrices w !! v = Some mv →
  (NotifyFunctionValuesMBSizeModified this w = (Ok tt, w) ∨
   NotifyFunctionValuesMBSizeModified this w = (Fail (Thrown LogicError), w)) ∧
  (NotifyFunctionValuesMBSizeModified this w = (Ok tt, w) ↔
   ∃ layout, m_pMBLayout self = Some layout ∧
             GetNumRows mv = GetNumElements (m_sampleLayout self) ∧
             GetNumColsOf mv = GetNumCols layout) ∧
  (HasMBLayout self = true →
   ∃ w1, UpdateFunctionValuesSize this w = (Ok tt, w1) ∧
         NotifyFunctionValuesMBSizeModified this w1 = (Ok tt, w1)).
Proof.
  intros Hs Hv Hmv.
  assert (Hrun : ∀ w0 m0, nodes w0 !! this = Some self → matrices w0 !! v = Some m0 →
    NotifyFunctionValuesMBSizeModified this w0 =
      (if HasMBLayout self &&
          (GetSampleMatrixNumRows self =? GetNumRows m0) &&
          (GetSampleMatrixNumCols self =? GetNumColsOf m0)
       then Ok tt else Fail (Thrown LogicError), w0)).
  { intros w0 m0 Hs0 Hm0. unfold NotifyFunctionValuesMBSizeModified.
    rewrite (bind_run _ _ _ _ _ (getNode_run _ _ _ Hs0)).
    destruct (HasMBLayout self); [|done]. simpl.
    unfold bind at 1. unfold ret at 1. unfold bind at 1.
    unfold readOnly at 1. rewrite Hv. simpl. unfold lookupMatrix. rewrite Hm0.
    destruct (GetSampleMatrixNumRows self =? GetNumRows m0); [|done]. simpl.
    unfold bind at 1. unfold ret at 1.
    by destruct (GetSampleMatrixNumCols self =? GetNumColsOf m0). }
  split; [|split].
  - rewrite (Hrun w mv Hs Hmv).
    destruct (HasMBLayout self && _ && _); [by left|by right].
  - rewrite (Hrun w mv Hs Hmv).
    unfold HasMBLayout, GetSampleMatrixNumCols, GetSampleMatrixNumRows.
    destruct (m_pMBLayout self) as [layout|]; simpl.
    2:{ split; [done|]. by intros (? & ? & _). }
    destruct (Nat.eqb_spec (GetNumElements (m_sampleLayout self)) (GetNumRows mv))
      as [Hr|Hr]; simpl.
    2:{ split; [done|]. intros (? & _ & ? & _). congruence. }
    destruct (Nat.eqb_spec (GetNumCols layout) (GetNumColsOf mv)) as [Hc|Hc].
    + split; [|done]. intros _. by exists layout.
    + split; [done|]. intros (l & [= <-] & _ & ?). congruence.
  - intros Hl. eexists.
    split; [by eapply UpdateFunctionValuesSize_run|].
    erewrite Hrun; [|exact Hs|simpl; apply lookup_insert_eq].
    unfold DetermineDataSize. rewrite Hl. simpl. by rewrite !Nat.eqb_refl.
Qed.

Lemma NotifyFunctionValuesMBSizeModified_spec_witness :
  ∃ w1, UpdateFunctionValuesSize 1 staleSizeWorld = (Ok tt, w1) ∧
        NotifyFunctionValuesMBSizeModified 1 w1 = (Ok tt, w1) ∧
        NotifyFunctionValuesMBSizeModified 1 staleSizeWorld =
          (Fail (Thrown LogicError), staleSizeWorld).
Proof.
  destruct (NotifyFunctionValuesMBSizeModified_spec staleSizeWorld 1
              (set_m_value (Some 41)
                 (set_m_pMBLayout (Some (mkMBLayout 3 2))
                    (basicNode (floatOp "InputValue" None) "x" [] 1)))
              41 (mkMatrix 5 5 DENSE []))
    as ([Hok|Hfail] & Hiff & Hafter); [reflexivity|reflexivity|reflexivity| |].
  - apply Hiff in Hok as (layout & [= <-] & Hr & _). by vm_compute in Hr.
  - destruct (Hafter eq_refl) as (w1 & Hup & Hn). by exists w1.
Defined.

(** ** SetDims and VerifyDims *)

(** X15: copying the dimensions of another node with [SetDims(node)] works
    exactly when both nodes agree on having a layout: then the receiver
    takes over the sample layout, nothing else changes, and a following
    [VerifyDims(node)] returns normally; otherwise [SetDims(node)] throws a
    logic error and leaves the store as it was, and so does
    [VerifyDims(node)]. *)
Theorem SetDims_then_VerifyDims w this self node other :
  nodes w !! this = Some self →
  nodes w !! node = Some other →
  node ≠ this →
  (HasMBLayout self = HasMBLayout other →
   SetDimsFrom this (Some node) w =
     (Ok tt, set_nodes (<[this := set_m_sampleLayout (m_sampleLayout other) self]>
                          (nodes w)) w) ∧
   ∀ w1, SetDimsFrom this (Some node) w = (Ok tt, w1) →
         VerifyDimsFrom this (Some node) w1 = (Ok tt, w1)) ∧
  (HasMBLayout self ≠ HasMBLayout other →
   SetDimsFrom this (Some node) w = (Fail (Thrown LogicError), w) ∧
   VerifyDimsFrom this (Some node) w = (Fail (Thrown LogicError), w)).
Proof.
  intros Hs Ho Hne.
  assert (Hderef : ∀ w0, nodes w0 !! node = Some other →
            readOnly (λ w1, derefNode w1 (Some node)) w0 = (Ok other, w0)).
  { intros w0 H0. unfold readOnly, derefNode, lookupNode. by rewrite H0. }
  split.
  - intros Hl.
    assert (Hset : SetDimsFrom this (Some node) w =
      (Ok tt, set_nodes (<[this := set_m_sampleLayout (m_sampleLayout other) self]>
                           (nodes w)) w)).
    { unfold SetDimsFrom. rewrite (bind_run _ _ _ _ _ (Hderef w Ho)).
      unfold SetDims. rewrite (bind_run _ _ _ _ _ (getNode_run _ _ _ Hs)).
      rewrite Hl, eqb_reflx. simpl. unfold bind at 1. unfold ret at 1.
      by apply updateNode_run. }
    split; [exact Hset|]. intros w1 Hw1. rewrite Hset in Hw1.
    injection Hw1 as <-. unfold VerifyDimsFrom.
    erewrite bind_run by (apply Hderef; simpl; by rewrite lookup_insert_ne).
    unfold VerifyDims.
    erewrite bind_run by (apply getNode_run; simpl; apply lookup_insert_eq).
    simpl. rewrite bool_decide_eq_false_2 by (intros H; by apply H).
    change (HasMBLayout (set_m_sampleLayout (m_sampleLayout other) self))
      with (HasMBLayout self).
    by rewrite Hl, eqb_reflx.
  - intros Hl.
    assert (Hdiff : eqb (HasMBLayout self) (HasMBLayout other) = false).
    { by destruct (HasMBLayout self), (HasMBLayout other). }
    split.
    + unfold SetDimsFrom. rewrite (bind_run _ _ _ _ _ (Hderef w Ho)).
      unfold SetDims. rewrite (bind_run _ _ _ _ _ (getNode_run _ _ _ Hs)).
      by rewrite Hdiff.
    + unfold VerifyDimsFrom. rewrite (bind_run _ _ _ _ _ (Hderef w Ho)).
      unfold VerifyDims. rewrite (bind_run _ _ _ _ _ (getNode_run _ _ _ Hs)).
      rewrite Hdiff. simpl. by rewrite orb_true_r.
Qed.

Lemma SetDims_then_VerifyDims_witness :
  ∃ w1, SetDimsFrom 0 (Some 1) mixedWorld = (Ok tt, w1) ∧
        VerifyDimsFrom 0 (Some 1) w1 = (Ok tt, w1).
Proof.
  destruct (SetDims_then_VerifyDims mixedWorld 0
              (basicNode (floatOp "Plus" (Some 2)) "sum" [] 1) 1
              (basicNode (doubleOp "InputValue" None) "d" [] 1))
    as [Hok _]; [reflexivity|reflexivity|done|].
  destruct (Hok eq_refl) as [Hset Hverify].
  eexists. split; [exact Hset|]. by apply Hverify.
Defined.

(** ** BeginForwardProp *)

(** X16: on a node with an allocated value, [BeginForwardProp] resizes the
    value to [DetermineDataSize] and returns normally when the node is
    neither a leaf nor a precompute node; on a leaf or precompute node it
    never touches the value and returns normally exactly when the value
    already has that size, failing otherwise. *)
Theorem BeginForwardProp_spec w this self v mv :
  nodes w !! this = Some self →
  m_value self = Some v →
  matrices w !! v = Some mv →
  (IsLeaf self = false → RequiresPreCompute (nodeType self) = false →
   BeginForwardProp this w =
     (Ok tt,
      set_matrices
        (<[v := Resize (DetermineDataSize self).1 (DetermineDataSize self).2 mv]>
           (matrices w)) w)) ∧
  (IsLeaf self = true ∨ RequiresPreCompute (nodeType self) = true →
   (BeginForwardProp this w = (Ok tt, w) ↔
    (GetNumRows mv, GetNumColsOf mv) = DetermineDataSize self) ∧
   ∃ r, BeginForwardProp this w = (r, w)).
Proof.
  intros Hs Hv Hmv.
  assert (Hverify : ∀ w0 m0, nodes w0 !! this = Some self → matrices w0 !! v = Some m0 →
    VerifyDataSize this (Some v) w0 =
      (VerifySize (DetermineDataSize self).1 (DetermineDataSize self).2 m0, w0)).
  { intros w0 m0 Hs0 Hm0. unfold VerifyDataSize.
    rewrite (bind_run _ _ _ _ _ (getNode_run _ _ _ Hs0)).
    unfold bind, readOnly, derefMatrix, lookupMatrix. rewrite Hm0.
    by destruct (VerifySize _ _ m0). }
  unfold BeginForwardProp. rewrite (bind_run _ _ _ _ _ (getNode_run _ _ _ Hs)).
  rewrite Hv. split.
  - intros -> ->. simpl.
    rewrite (bind_run _ _ _ _ _ (UpdateFunctionValuesSize_run _ _ _ _ _ Hs Hv Hmv)).
    erewrite Hverify; [|exact Hs|simpl; apply lookup_insert_eq].
    unfold VerifySize. simpl. by rewrite !Nat.eqb_refl.
  - intros Hskip.
    assert (Hno : negb (IsLeaf self) && negb (RequiresPreCompute (nodeType self)) = false).
    { destruct Hskip as [-> | ->]; [done|]. by rewrite andb_false_r. }
    rewrite Hno. simpl. unfold bind at 1 2. unfold ret at 1 2.
    rewrite (Hverify w mv Hs Hmv). split; [|by eexists].
    unfold VerifySize. destruct (DetermineDataSize self) as [r c]. simpl.
    destruct (Nat.eqb_spec (GetNumRows mv) r) as [->|Hr]; simpl.
    2:{ split; [done|]. intros [= ? _]. done. }
    destruct (Nat.eqb_spec (GetNumColsOf mv) c) as [->|Hc].
    + done.
    + split; [done|]. intros [= ?]. done.
Qed.

Lemma BeginForwardProp_spec_witness :
  ∃ w1 m, BeginForwardProp 0 staleSizeWorld = (Ok tt, w1) ∧
          matrices w1 !! 40 = Some m ∧ (GetNumRows m, GetNumColsOf m) = (2, 1).
Proof.
  destruct (BeginForwardProp_spec staleSizeWorld 0
              (set_m_value (Some 40)
                 (basicNode (floatOp "Sigmoid" (Some 1)) "s" [Some 1] 2))
              40 (mkMatrix 5 5 DENSE []))
    as [Hok _]; [reflexivity|reflexivity|reflexivity|].
  eexists _, _. split; [apply Hok; reflexivity|]. split; reflexivity.
Defined.

(** ** Values that are not sharable *)

Lemma MarkValueNonSharable_run w this self :
  nodes w !! this = Some self →
  ∃ w1 v,
    MarkValueNonSharable this w = (Ok tt, w1) ∧
    nodes w1 = <[this := set_m_value (Some v) (set_m_valueSharable false self)]> (nodes w) ∧
    match m_value self with
    | Some v0 => v = v0 ∧ matrices w1 = matrices w
    | None => matrices w !! v = None ∧ matrices w1 = <[v := newMatrix]> (matrices w)
    end ∧
    releasedMatrices w1 = releasedMatrices w ∧
    g_shareNodeValueMatrices w1 = g_shareNodeValueMatrices w.
Proof.
  intros Hs. unfold MarkValueNonSharable.
  rewrite (bind_run _ _ _ _ _ (updateNode_run _ _ _ _ Hs)).
  unfold CreateMatrixIfNull.
  erewrite bind_run; [|apply getNode_run; simpl; apply lookup_insert_eq].
  destruct self as [ty ng vs pl ts dev nm ins sl mb pu gi on val gr]. simpl.
  destruct val as [v0|].
  - exists (set_nodes (<[this := set_m_valueSharable false
             (mkNode ty ng vs pl ts dev nm ins sl mb pu gi on (Some v0) gr)]> (nodes w)) w), v0.
    repeat split.
  - set (p := fresh (dom (matrices w))).
    eexists _, p. split.
    { unfold bind, makeMatrix. simpl. fold p. unfold updateNode. simpl.
      rewrite lookup_insert_eq. reflexivity. }
    simpl. rewrite insert_insert_eq. repeat split.
    apply not_elem_of_dom. apply is_fresh.
Qed.

Lemma ReleaseMatricesAfterForwardProp_unsharable w this n v :
  nodes w !! this = Some n →
  isValueSharable n = false →
  m_value n = Some v →
  is_Some (matrices w !! v) →
  ReleaseMatricesAfterForwardProp this w = (Ok tt, w).
Proof.
  intros Hn Hsh Hv [mv Hmv]. unfold ReleaseMatricesAfterForwardProp.
  rewrite (bind_run _ _ _ _ _ (getNode_run _ _ _ Hn)).
  unfold bind at 1. unfold readOnly at 1.
  destruct (negb (IsOutputNeededDuringBackprop w n)); [|done].
  rewrite Hv, (bind_run _ _ _ _ _ (notSparse_run _ _ _ Hmv)).
  by rewrite Hsh, andb_false_r.
Qed.

Lemma ReleaseMatricesAfterBackprop_unsharable w this n v :
  nodes w !! this = Some n →
  isValueSharable n = false →
  m_value n = Some v →
  is_Some (matrices w !! v) →
  (∀ g, m_gradient n = Some g → is_Some (matrices w !! g)) →
  ∃ w2, ReleaseMatricesAfterBackprop this w = (Ok tt, w2) ∧
        nodes w2 = nodes w ∧ matrices w2 = matrices w ∧
        (releasedMatrices w2 = releasedMatrices w ∨
         ∃ g, m_gradient n = Some g ∧
              releasedMatrices w2 = releasedMatrices w ++ [g]).
Proof.
  intros Hn Hsh Hv [mv Hmv] Hg. unfold ReleaseMatricesAfterBackprop.
  rewrite (bind_run _ _ _ _ _ (getNode_run _ _ _ Hn)).
  destruct (negb (IsLeaf n) && negb (RequiresPreCompute (nodeType n))).
  2:{ exists w. by repeat split; try left. }
  assert (Hrest : ∀ w0, matrices w0 = matrices w →
    (let* needed := readOnly (fun w => Ok (IsOutputNeededDuringBackprop w n)) in
     if needed then
       let* dense := notSparse (m_value n) in
       if dense && isValueSharable n
       then ReleaseMatrixToPool (m_value n)
       else ret tt
     else ret tt) w0 = (Ok tt, w0)).
  { intros w0 Hm. unfold bind at 1. unfold readOnly at 1.
    destruct (IsOutputNeededDuringBackprop w0 n); [|done].
    rewrite Hv. erewrite bind_run; [|apply notSparse_run; rewrite Hm; exact Hmv].
    by rewrite Hsh, andb_false_r. }
  destruct (m_gradient n) as [g|] eqn:Hgr.
  - destruct (Hg g eq_refl) as [mg Hmg].
    unfold bind at 1. unfold bind at 1. rewrite (notSparse_run _ _ _ Hmg).
    unfold when. destruct (GetMatrixType mg); simpl.
    + rewrite Hrest by done.
      eexists. split; [reflexivity|]. repeat split. right. by exists g.
    + unfold ret at 1. rewrite Hrest by done.
      exists w. by repeat split; try left.
  - unfold bind at 1. unfold ret at 1. rewrite Hrest by done.
    exists w. by repeat split; try left.
Qed.

(** X17: [MarkValueNonSharable] gives the node a value buffer when it has
    none (a new one at an unused address) and keeps the one it has; from
    then on neither release hook hands the value to the pool: the forward
    hook changes nothing, and the backprop hook releases at most the
    gradient buffer. *)
Theorem MarkValueNonSharable_pins_value w this self :
  nodes w !! this = Some self →
  (∀ v, m_value self = Some v → is_Some (matrices w !! v)) →
  (∀ g, m_gradient self = Some g → is_Some (matrices w !! g)) →
  ∃ w1 v,
    MarkValueNonSharable this w = (Ok tt, w1) ∧
    nodes w1 = <[this := set_m_value (Some v) (set_m_valueSharable false self)]> (nodes w) ∧
    match m_value self with
    | Some v0 => v = v0 ∧ matrices w1 = matrices w
    | None => matrices w !! v = None ∧ matrices w1 = <[v := newMatrix]> (matrices w)
    end ∧
    releasedMatrices w1 = releasedMatrices w ∧
    ReleaseMatricesAfterForwardProp this w1 = (Ok tt, w1) ∧
    ∃ w2, ReleaseMatricesAfterBackprop this w1 = (Ok tt, w2) ∧
          nodes w2 = nodes w1 ∧ matrices w2 = matrices w1 ∧
          (releasedMatrices w2 = releasedMatrices w ∨
           ∃ g, m_gradient self = Some g ∧
                releasedMatrices w2 = releasedMatrices w ++ [g]).
Proof.
  intros Hs Hv Hg.
  destruct (MarkValueNonSharable_run w this self Hs)
    as (w1 & v & Hrun & Hnodes & Hmat & Hrel & _).
  assert (Hs1 : nodes w1 !! this =
                Some (set_m_value (Some v) (set_m_valueSharable false self))).
  { rewrite Hnodes. apply lookup_insert_eq. }
  assert (Hlive : ∀ p, is_Some (matrices w !! p) → is_Some (matrices w1 !! p)).
  { intros p Hp. destruct (m_value self).
    - destruct Hmat as [_ ->]. exact Hp.
    - destruct Hmat as [Hfresh ->]. destruct (decide (p = v)) as [->|Hne].
      + rewrite lookup_insert_eq. by eexists.
      + by rewrite lookup_insert_ne. }
  assert (Hv1 : is_Some (matrices w1 !! v)).
  { destruct (m_value self) as [v0|] eqn:Hval.
    - destruct Hmat as [-> _]. apply Hlive, Hv. reflexivity.
    - destruct Hmat as [_ ->]. rewrite lookup_insert_eq. by eexists. }
  exists w1, v. split; [exact Hrun|]. split; [exact Hnodes|].
  split; [exact Hmat|]. split; [exact Hrel|]. split.
  - by apply (ReleaseMatricesAfterForwardProp_unsharable w1 this _ v Hs1).
  - destruct (ReleaseMatricesAfterBackprop_unsharable w1 this _ v Hs1)
      as (w2 & Hrun2 & Hn2 & Hm2 & Hr2); [done|done|exact Hv1| |].
    { intros g Hgr. apply Hlive, Hg. exact Hgr. }
    exists w2. rewrite <- Hrel. by repeat split.
Qed.

Lemma MarkValueNonSharable_pins_value_witness :
  ∃ w1, MarkValueNonSharable 1 unallocatedWorld = (Ok tt, w1) ∧
        ReleaseMatricesAfterForwardProp 1 w1 = (Ok tt, w1).
Proof.
  destruct (MarkValueNonSharable_pins_value unallocatedWorld 1
              (set_m_needsGradient true
                 (basicNode (floatOp "LearnableParameter" None) "W" [] 4)))
    as (w1 & v & Hrun & _ & _ & _ & Hfwd & _);
    [reflexivity|intros v [=]|intros g [=]|].
  exists w1. split; [exact Hrun|exact Hfwd].
Defined.

(** ** Gradient buffers of the inputs *)

Lemma set_m_gradient_same n : set_m_gradient (m_gradient n) n = n.
Proof. by destruct n. Qed.

Lemma gradientsAdded_refl w : gradientsAdded w w.
Proof.
  split; [|done]. intros q n Hq. exists n.
  split; [done|]. split; [apply set_m_gradient_same|done].
Qed.

Lemma gradientsAdded_trans w1 w2 w3 :
  gradientsAdded w1 w2 → gradientsAdded w2 w3 → gradientsAdded w1 w3.
Proof.
  intros [Hn12 Hm12] [Hn23 Hm23]. split; [|by auto].
  intros q n Hq. destruct (Hn12 q n Hq) as (n2 & Hq2 & Heq2 & Hsame2).
  destruct (Hn23 q n2 Hq2) as (n3 & Hq3 & Heq3 & Hsame3).
  exists n3. split; [done|]. split.
  - rewrite <- Heq2 at 2. rewrite <- Heq3. reflexivity.
  - intros H. assert (n2 = n) as -> by auto. auto.
Qed.

Lemma gradientsAdded_needsGradient w w' q n n' :
  gradientsAdded w w' → nodes w !! q = Some n → nodes w' !! q = Some n' →
  m_needsGradient n' = m_needsGradient n ∧ m_inputs n' = m_inputs n.
Proof.
  intros [Hn _] Hq Hq'. destruct (Hn q n Hq) as (n2 & Hq2 & Heq & _).
  assert (n2 = n') as -> by congruence.
  split; [exact (f_equal m_needsGradient Heq)|exact (f_equal m_inputs Heq)].
Qed.

Lemma RequestMatricesBeforeBackprop_run w c n :
  buffersLive w →
  nodes w !! c = Some n →
  m_needsGradient n = true →
  ∃ w' n', RequestMatricesBeforeBackprop c w = (Ok tt, w') ∧
           gradientsAdded w w' ∧ buffersLive w' ∧
           nodes w' !! c = Some n' ∧ is_Some (m_gradient n').
Proof.
  intros [Hgl Hpl] Hc Hneed.
  unfold RequestMatricesBeforeBackprop, RequestMatrixFromPool.
  rewrite (bind_run _ _ _ _ _ (getNode_run _ _ _ Hc)).
  destruct (m_gradient n) as [g|] eqn:Hg.
  { exists w, n. split; [done|]. split; [apply gradientsAdded_refl|].
    split; [by split|]. split; [done|]. rewrite Hg. by eexists. }
  assert (Hadded : ∀ p w0, nodes w0 = nodes w →
            (∀ g, is_Some (matrices w !! g) → is_Some (matrices w0 !! g)) →
            gradientsAdded w
              (set_nodes (<[c := set_m_gradient (Some p) n]> (nodes w0)) w0)).
  { intros p w0 Hn0 Hm0. split; [|exact Hm0]. intros q n0 Hq. simpl. rewrite Hn0.
    destruct (decide (q = c)) as [->|Hne].
    - rewrite lookup_insert_eq. eexists. split; [done|].
      assert (n0 = n) as -> by congruence. split.
      + rewrite Hg. destruct n. simpl in Hg. by subst.
      + intros [[? H]|H]; congruence.
    - rewrite lookup_insert_ne by done. exists n0.
      split; [done|]. split; [apply set_m_gradient_same|done]. }
  unfold MatrixPoolRequest. destruct (last (releasedMatrices w)) as [p|] eqn:Hlast.
  - apply last_Some in Hlast as [l' Hl'].
    exists (set_nodes (<[c := set_m_gradient (Some p) n]> (nodes w))
              (set_releasedMatrices l' w)), (set_m_gradient (Some p) n).
    split.
    { unfold bind. rewrite Hl'. rewrite last_snoc, removelast_last.
      unfold updateNode. simpl. rewrite Hc. reflexivity. }
    split; [by apply (Hadded p (set_releasedMatrices l' w))|].
    split; [|split; [simpl; apply lookup_insert_eq|by eexists]].
    split; simpl.
    + intros q n0 g0. destruct (decide (q = c)) as [->|Hne].
      * rewrite lookup_insert_eq. intros [= <-]. simpl. intros [= <-].
        apply Hpl. rewrite Hl'. apply elem_of_app. right. by apply list_elem_of_singleton.
      * rewrite lookup_insert_ne by done. apply Hgl.
    + intros p0 Hp0. apply Hpl. rewrite Hl'. apply elem_of_app. by left.
  - set (p := fresh (dom (matrices w))).
    assert (Hgrow : ∀ g, is_Some (matrices w !! g) →
                         is_Some (<[p := newMatrix]> (matrices w) !! g)).
    { intros g0 Hg0. rewrite lookup_insert_is_Some. destruct (decide (p = g0)); auto. }
    exists (set_nodes (<[c := set_m_gradient (Some p) n]> (nodes w))
              (set_matrices (<[p := newMatrix]> (matrices w)) w)),
           (set_m_gradient (Some p) n).
    split.
    { unfold bind, makeMatrix. fold p. unfold updateNode.
      rewrite Hlast. cbn [nodes set_matrices]. rewrite Hc. reflexivity. }
    split; [by apply (Hadded p (set_matrices (<[p := newMatrix]> (matrices w)) w))|].
    split; [|split; [simpl; apply lookup_insert_eq|by eexists]].
    split; simpl.
    + intros q n0 g0. destruct (decide (q = c)) as [->|Hne].
      * rewrite lookup_insert_eq. intros [= <-]. simpl. intros [= <-].
        rewrite lookup_insert_eq. by eexists.
      * rewrite lookup_insert_ne by done. intros Hq Hg0. eapply Hgrow, Hgl; eauto.
    + intros p0 Hp0. by apply Hgrow, Hpl.
Qed.

Lemma AllocateGradientMatricesForInputs_loop ins : ∀ w,
  buffersLive w →
  (∀ input, input ∈ ins → ∃ c child, input = Some c ∧ nodes w !! c = Some child) →
  ∃ w', forEach ins (fun input =>
          let* child := readOnly (fun w => derefNode w input) in
          match input with
          | Some c => when (m_needsGradient child) (RequestMatricesBeforeBackprop c)
          | None => fail NullDereference
          end) w = (Ok tt, w') ∧
        gradientsAdded w w' ∧ buffersLive w' ∧
        ∀ c child', Some c ∈ ins → nodes w' !! c = Some child' →
          m_needsGradient child' = true → is_Some (m_gradient child').
Proof.
  induction ins as [|input ins IH]; intros w Hlive Hins.
  { exists w. split; [done|]. split; [apply gradientsAdded_refl|].
    split; [done|]. intros c child' Hc. by apply elem_of_nil in Hc. }
  destruct (Hins input) as (c & child & -> & Hc); [by left|].
  assert (Hstep : ∃ w1 n1,
    (let* child := readOnly (fun w => derefNode w (Some c)) in
     when (m_needsGradient child) (RequestMatricesBeforeBackprop c)) w = (Ok tt, w1) ∧
    gradientsAdded w w1 ∧ buffersLive w1 ∧ nodes w1 !! c = Some n1 ∧
    (m_needsGradient n1 = true → is_Some (m_gradient n1))).
  { unfold bind at 1. unfold readOnly at 1. simpl. unfold lookupNode. rewrite Hc.
    destruct (m_needsGradient child) eqn:Hneed; simpl.
    - destruct (RequestMatricesBeforeBackprop_run w c child Hlive Hc Hneed)
        as (w1 & n1 & Hrun & Hadd & Hl1 & Hc1 & Hg1).
      exists w1, n1. split; [exact Hrun|]. split; [exact Hadd|].
      split; [exact Hl1|]. split; [exact Hc1|]. intros _. exact Hg1.
    - exists w, child. split; [done|]. split; [apply gradientsAdded_refl|].
      split; [done|]. split; [done|]. congruence. }
  destruct Hstep as (w1 & n1 & Hrun & Hadd & Hl1 & Hc1 & Hg1).
  destruct (IH w1 Hl1) as (w' & Hrest & Hadd' & Hl' & Hdone).
  { intros input Hin. destruct (Hins input) as (c0 & child0 & -> & Hc0); [by right|].
    destruct Hadd as [Hn _]. destruct (Hn c0 child0 Hc0) as (n0 & Hn0 & _).
    by exists c0, n0. }
  exists w'. split.
  { simpl. erewrite bind_run; [exact Hrest|exact Hrun]. }
  split; [by eapply gradientsAdded_trans|]. split; [done|].
  intros c0 child' Hin Hc0 Hneed. apply elem_of_cons in Hin as [[= ->]|Hin].
  - destruct Hadd' as [Hn' _]. destruct (Hn' c n1 Hc1) as (n' & Hc' & Heq & Hsame).
    assert (n' = child') as -> by congruence.
    assert (Hneed1 : m_needsGradient n1 = true).
    { rewrite <- Heq. simpl. exact Hneed. }
    specialize (Hg1 Hneed1). rewrite Hsame; auto.
  - by eapply Hdone.
Qed.

(** X18: on a store whose gradient pointers and pool buffers are live,
    [AllocateGradientMatricesForInputs] of a node whose inputs are non-null
    live nodes returns normally; afterwards every input that needs a
    gradient owns a live gradient buffer, and nothing else has changed: an
    input that already had a buffer keeps it, and nodes that need no
    gradient are as before. *)
Theorem AllocateGradientMatricesForInputs_spec w this self :
  nodes w !! this = Some self →
  buffersLive w →
  (∀ input, input ∈ m_inputs self →
     ∃ c child, input = Some c ∧ nodes w !! c = Some child ∧
                nodeClass (nodeType child) ≠ FlowControlNode) →
  ∃ w' self',
    AllocateGradientMatricesForInputs this w = (Ok tt, w') ∧
    gradientsAdded w w' ∧ buffersLive w' ∧
    nodes w' !! this = Some self' ∧
    m_inputs self' = m_inputs self ∧
    gradientsAllocated w' self'.
Proof.
  intros Hs Hlive Hins. unfold AllocateGradientMatricesForInputs.
  rewrite (bind_run _ _ _ _ _ (getNode_run _ _ _ Hs)).
  destruct (AllocateGradientMatricesForInputs_loop (m_inputs self) w Hlive)
    as (w' & Hrun & Hadd & Hl' & Hdone).
  { intros input Hin. destruct (Hins input Hin) as (c & child & ? & ? & _). eauto. }
  destruct (proj1 Hadd this self Hs) as (self' & Hs' & Heq & _).
  exists w', self'. split; [exact Hrun|]. split; [exact Hadd|]. split; [exact Hl'|].
  split; [exact Hs'|].
  assert (Hsame : m_inputs self' = m_inputs self) by exact (f_equal m_inputs Heq).
  split; [exact Hsame|].
  intros c child Hin Hc Hneed. rewrite Hsame in Hin.
  destruct (Hdone c child Hin Hc Hneed) as [g Hg].
  exists g. split; [exact Hg|]. destruct Hl' as [Hgl _]. by eapply Hgl.
Qed.

Lemma AllocateGradientMatricesForInputs_spec_witness :
  ∃ w' self', AllocateGradientMatricesForInputs 0 unallocatedWorld = (Ok tt, w') ∧
              nodes w' !! 0 = Some self' ∧ gradientsAllocated w' self'.
Proof.
  destruct (AllocateGradientMatricesForInputs_spec unallocatedWorld 0
              (set_m_needsGradient true
                 (basicNode (floatOp "Times" (Some 2)) "z" [Some 1; Some 2] 9)))
    as (w' & self' & Hrun & _ & _ & Hs' & _ & Halloc).
  - reflexivity.
  - split.
    + intros q n g Hq Hg.
      assert (Hq' : q = 0 ∨ q = 1 ∨ q = 2).
      { destruct (decide (q = 0)); [auto|]. destruct (decide (q = 1)); [auto|].
        destruct (decide (q = 2)); [auto|].
        exfalso. unfold unallocatedWorld in Hq. simpl in Hq.
        rewrite !lookup_insert_ne in Hq by done. by rewrite lookup_empty in Hq. }
      destruct Hq' as [-> | [-> | ->]]; vm_compute in Hq; injection Hq as <-; discriminate Hg.
    + intros p Hp. apply list_elem_of_singleton in Hp as ->. by eexists.
  - intros input Hin.
    apply elem_of_cons in Hin as [-> | Hin];
      [|apply list_elem_of_singleton in Hin as ->]; eexists _, _;
      (split; [reflexivity|]); (split; [reflexivity|]); discriminate.
  - exists w', self'. by repeat split.
Defined.

(** ** CopyTo *)

Lemma set_nodes_same w : set_nodes (nodes w) w = w.
Proof. by destruct w. Qed.

Lemma CopyTo_Base_run w this target self other newName flags :
  nodes w !! this = Some self →
  nodes w !! target = Some other →
  OperationName (nodeType self) = OperationName (nodeType other) →
  ∃ other',
    CopyTo_Base this (Some target) newName flags w =
      (Ok tt, set_nodes (<[target := other']> (nodes w)) w) ∧
    copiedFrom self other newName flags other'.
Proof.
  intros Hs Ht Hop. unfold CopyTo_Base, copiedFrom.
  rewrite (bind_run _ _ _ _ _ (getNode_run _ _ _ Hs)).
  unfold bind at 1. unfold deref at 1. rewrite Ht.
  rewrite (bind_run _ _ _ _ _ (getNode_run _ _ _ Ht)).
  rewrite bool_decide_eq_false_2 by (intros H; by apply H).
  unfold when at 1. unfold bind at 1. unfold ret at 1.
  destruct (hasFlag flags copyNodeChildren), (hasFlag flags copyNodeValue);
    unfold when.
  - eexists. split.
    { repeat (erewrite bind_run;
              [|apply updateNode_run; cbn [nodes set_nodes];
                first [exact Ht | apply lookup_insert_eq]]).
      erewrite updateNode_run by (cbn [nodes set_nodes]; apply lookup_insert_eq).
      cbn [nodes set_nodes matrices releasedMatrices g_shareNodeValueMatrices
           s_timeStampCounter backpropCalls].
      rewrite !insert_insert_eq. reflexivity. }
    by repeat split.
  - eexists. split.
    { erewrite bind_run; [|apply updateNode_run; exact Ht]. reflexivity. }
    by repeat split.
  - eexists. split.
    { unfold bind at 1. unfold ret at 1.
      repeat (erewrite bind_run;
              [|apply updateNode_run; cbn [nodes set_nodes];
                first [exact Ht | apply lookup_insert_eq]]).
      erewrite updateNode_run by (cbn [nodes set_nodes]; apply lookup_insert_eq).
      cbn [nodes set_nodes matrices releasedMatrices g_shareNodeValueMatrices
           s_timeStampCounter backpropCalls].
      rewrite !insert_insert_eq. reflexivity. }
    by repeat split.
  - exists other. split.
    { unfold bind, ret. by rewrite insert_id, set_nodes_same. }
    by repeat split.
Qed.

(** X19: [ComputationNodeBase::CopyTo] from a node into a node of another
    operation name throws a runtime error and changes nothing.  Between
    nodes of the same operation it changes the target only: the target gets
    the receiver's inputs with [copyNodeChildren] and the new name and six
    further fields with [copyNodeValue]; its layout, its value and gradient
    pointers and its sharing and backprop flags are never copied, and the
    receiver, when it is another node, is as before. *)
Theorem CopyTo_Base_spec w this target self other newName flags :
  nodes w !! this = Some self →
  nodes w !! target = Some other →
  (OperationName (nodeType self) ≠ OperationName (nodeType other) →
   CopyTo_Base this (Some target) newName flags w = (Fail (Thrown RuntimeError), w)) ∧
  (OperationName (nodeType self) = OperationName (nodeType other) →
   ∃ w' other',
     CopyTo_Base this (Some target) newName flags w = (Ok tt, w') ∧
     nodes w' !! target = Some other' ∧
     copiedFrom self other newName flags other' ∧
     (∀ q, q ≠ target → nodes w' !! q = nodes w !! q) ∧
     matrices w' = matrices w ∧ releasedMatrices w' = releasedMatrices w).
Proof.
  intros Hs Ht. split.
  - intros Hop. unfold CopyTo_Base.
    rewrite (bind_run _ _ _ _ _ (getNode_run _ _ _ Hs)).
    unfold bind at 1. unfold deref at 1. rewrite Ht.
    rewrite (bind_run _ _ _ _ _ (getNode_run _ _ _ Ht)).
    by rewrite bool_decide_eq_true_2.
  - intros Hop.
    destruct (CopyTo_Base_run w this target self other newName flags Hs Ht Hop)
      as (other' & Hrun & Hcopied).
    eexists _, other'. split; [exact Hrun|]. simpl.
    split; [apply lookup_insert_eq|]. split; [exact Hcopied|].
    split; [|done]. intros q Hq. by rewrite lookup_insert_ne.
Qed.

Lemma CopyTo_Base_spec_witness :
  ∃ w' other',
    CopyTo_Base 1 (Some 2) "copy" copyNodeAll copyWorld = (Ok tt, w') ∧
    nodes w' !! 2 = Some other' ∧ m_nodeName other' = "copy" ∧
    m_value other' = Some 61 ∧
    CopyTo_Base 1 (Some 4) "copy" copyNodeAll copyWorld =
      (Fail (Thrown RuntimeError), copyWorld).
Proof.
  destruct (CopyTo_Base_spec copyWorld 1 2
              (set_m_gradient (Some 62)
                 (set_m_value (Some 60)
                    (set_m_needsGradient true
                       (basicNode (floatOp "LearnableParameter" None) "W" [] 4))))
              (set_m_gradient (Some 63)
                 (set_m_value (Some 61)
                    (basicNode (floatOp "LearnableParameter" None) "V" [] 2)))
              "copy" copyNodeAll eq_refl eq_refl) as [_ Hok].
  destruct (Hok eq_refl) as (w' & other' & Hrun & Ht & Hcopied & _).
  exists w', other'. split; [exact Hrun|]. split; [exact Ht|].
  destruct Hcopied as ((_ & _ & _ & _ & _ & Hv & _) & _ & Hname & _).
  split; [exact Hname|]. split; [exact Hv|]. reflexivity.
Defined.

Lemma readMatrix_run w p m :
  matrices w !! p = Some m →
  readOnly (fun w => derefMatrix w (Some p)) w = (Ok m, w).
Proof. intros H. unfold readOnly, derefMatrix, lookupMatrix. by rewrite H. Qed.

(** X20: [ComputationNode<ElemType>::CopyTo] with [copyNodeValue] copies
    the contents of the receiver's value buffer into the target's own value
    buffer, and likewise the gradient; the target keeps its buffer pointers,
    except that its gradient pointer becomes null when the receiver has no
    gradient.  A target without value buffer, or without gradient buffer
    when the receiver has one, makes the copy dereference a null pointer. *)
Theorem CopyTo_copies_matrix_contents E w this target self other newName flags sv msv :
  nodes w !! this = Some self →
  nodes w !! target = Some other →
  OperationName (nodeType self) = OperationName (nodeType other) →
  nodeClass (nodeType other) = ComputationNodeOf E →
  hasFlag flags copyNodeValue = true →
  m_value self = Some sv →
  matrices w !! sv = Some msv →
  match m_value other with
  | None =>
      ∃ w', CopyTo E this (Some target) newName flags w = (Fail NullDereference, w')
  | Some tv =>
      is_Some (matrices w !! tv) →
      match m_gradient self, m_gradient other with
      | None, _ =>
          ∃ w' other',
            CopyTo E this (Some target) newName flags w = (Ok tt, w') ∧
            matrices w' = <[tv := msv]> (matrices w) ∧
            nodes w' !! target = Some other' ∧
            m_value other' = Some tv ∧ m_gradient other' = None
      | Some sg, None =>
          is_Some (matrices w !! sg) →
          ∃ w', CopyTo E this (Some target) newName flags w = (Fail NullDereference, w')
      | Some sg, Some tg =>
          is_Some (matrices w !! sg) → is_Some (matrices w !! tg) →
          ∃ w' other' msg,
            CopyTo E this (Some target) newName flags w = (Ok tt, w') ∧
            <[tv := msv]> (matrices w) !! sg = Some msg ∧
            matrices w' = <[tg := msg]> (<[tv := msv]> (matrices w)) ∧
            nodes w' !! target = Some other' ∧
            m_value other' = Some tv ∧ m_gradient other' = Some tg
      end
  end.
Proof.
  intros Hs Ht Hop Hcl Hflag Hsv Hmsv.
  destruct (CopyTo_Base_run w this target self other newName flags Hs Ht Hop)
    as (other' & Hbase & (Hty & _ & _ & _ & _ & Hval' & Hgr') & _).
  set (w1 := set_nodes (<[target := other']> (nodes w)) w) in *.
  assert (Ht1 : nodes w1 !! target = Some other') by apply lookup_insert_eq.
  assert (Hself : ∃ self1, nodes w1 !! this = Some self1 ∧
                    m_value self1 = m_value self ∧ m_gradient self1 = m_gradient self).
  { destruct (decide (this = target)) as [->|Hne].
    - exists other'. split; [done|]. assert (self = other) as -> by congruence. done.
    - exists self. split; [|done]. simpl. by rewrite lookup_insert_ne. }
  destruct Hself as (self1 & Hs1 & Hv1 & Hg1).
  assert (Hhead : CopyTo E this (Some target) newName flags w =
    (updateMatrix (m_value other) (fun _ => msv) ;;;
     match m_gradient self with
     | Some _ =>
         let* gradient := readOnly (fun w => derefMatrix w (m_gradient self)) in
         updateMatrix (m_gradient other) (fun _ => gradient)
     | None => updateNode target (set_m_gradient None)
     end) w1).
  { unfold CopyTo. rewrite (bind_run _ _ _ _ _ Hbase). rewrite Hflag. unfold when.
    erewrite bind_run; [|apply (UpCast_run E w1 target other' Ht1); by rewrite Hty].
    rewrite (bind_run _ _ _ _ _ (getNode_run _ _ _ Hs1)).
    rewrite (bind_run _ _ _ _ _ (getNode_run _ _ _ Ht1)).
    rewrite Hv1, Hsv, Hval', Hg1, Hgr'.
    unfold bind at 1. unfold readOnly at 1. unfold derefMatrix at 1, lookupMatrix at 1.
    change (matrices w1) with (matrices w). by rewrite Hmsv. }
  rewrite Hhead. clear Hhead.
  destruct (m_value other) as [tv|] eqn:Hov.
  2:{ eexists. unfold bind, updateMatrix. simpl. reflexivity. }
  intros [mtv Hmtv].
  set (w2 := set_matrices (<[tv := msv]> (matrices w1)) w1).
  assert (Hlive2 : ∀ p, is_Some (matrices w !! p) → is_Some (matrices w2 !! p)).
  { intros p Hp. simpl. rewrite lookup_insert_is_Some.
    destruct (decide (tv = p)); auto. }
  destruct (m_gradient self) as [sg|] eqn:Hsg.
  - destruct (m_gradient other) as [tg|] eqn:Hog.
    + intros Hmsg Hmtg.
      destruct (Hlive2 sg Hmsg) as [m2 Hm2]. destruct (Hlive2 tg Hmtg) as [m3 Hm3].
      erewrite bind_run; [|apply updateMatrix_run; exact Hmtv]. fold w2.
      erewrite bind_run; [|apply readMatrix_run; exact Hm2].
      rewrite (updateMatrix_run _ _ _ _ Hm3).
      eexists _, other', m2. split; [reflexivity|]. split; [exact Hm2|].
      split; [reflexivity|]. split; [exact Ht1|]. by rewrite Hval', Hgr'.
    + intros Hmsg. destruct (Hlive2 sg Hmsg) as [m2 Hm2].
      erewrite bind_run; [|apply updateMatrix_run; exact Hmtv]. fold w2.
      erewrite bind_run; [|apply readMatrix_run; exact Hm2].
      eexists. unfold updateMatrix. simpl. reflexivity.
  - erewrite bind_run; [|apply updateMatrix_run; exact Hmtv]. fold w2.
    erewrite updateNode_run by exact Ht1.
    eexists _, _. split; [reflexivity|]. split; [reflexivity|]. simpl.
    split; [apply lookup_insert_eq|]. simpl. by rewrite Hval'.
Qed.

Lemma CopyTo_copies_matrix_contents_witness :
  ∃ w' m, CopyTo Float 1 (Some 2) "copy" copyNodeAll copyWorld = (Ok tt, w') ∧
          matrices w' !! 61 = Some m ∧ elems m = [3; 4]%Z.
Proof.
  destruct (CopyTo_copies_matrix_contents Float copyWorld 1 2
              (set_m_gradient (Some 62)
                 (set_m_value (Some 60)
                    (set_m_needsGradient true
                       (basicNode (floatOp "LearnableParameter" None) "W" [] 4))))
              (set_m_gradient (Some 63)
                 (set_m_value (Some 61)
                    (basicNode (floatOp "LearnableParameter" None) "V" [] 2)))
              "copy" copyNodeAll 60 (mkMatrix 2 1 DENSE [3; 4]%Z)
              eq_refl eq_refl eq_refl eq_refl eq_refl eq_refl eq_refl)
    as (w' & other' & msg & Hrun & _ & Hm & _).
  - by eexists.
  - by eexists.
  - by eexists.
  - exists w', (mkMatrix 2 1 DENSE [3; 4]%Z). split; [exact Hrun|].
    split; [|reflexivity]. rewrite Hm. reflexivity.
Defined.

(** ** DetachInputs *)

(** X21: [DetachInputs] turns a node into a leaf and changes nothing else:
    afterwards [EnumerateNodes] from it lists the node alone, its output is
    never older than its inputs, [ReleaseMatricesAfterBackprop] releases
    nothing, and a closed store is still closed. *)
Theorem DetachInputs_makes_leaf w this self :
  nodes w !! this = Some self →
  ∃ w',
    DetachInputs this w = (Ok tt, w') ∧
    nodes w' = <[this := set_m_inputs [] self]> (nodes w) ∧
    matrices w' = matrices w ∧
    (∀ fuel skip, EnumerateNodes (S fuel) w' [Some this] skip = Ok [this]) ∧
    IsOutputOlderThanInputs w' this = Ok false ∧
    ReleaseMatricesAfterBackprop this w' = (Ok tt, w') ∧
    (closed w → closed w').
Proof.
  intros Hs. unfold DetachInputs. rewrite (updateNode_run _ _ _ _ Hs).
  set (w' := set_nodes (<[this := set_m_inputs [] self]> (nodes w)) w).
  assert (Hs' : nodes w' !! this = Some (set_m_inputs [] self)) by apply lookup_insert_eq.
  exists w'. split; [done|]. split; [done|]. split; [done|]. split; [|split; [|split]].
  - intros fuel skip. unfold EnumerateNodes. cbn [EnumerateRoots EnumerateNodesRec].
    rewrite decide_False by set_solver. unfold lookupNode. rewrite Hs'.
    cbn [bindR m_inputs set_m_inputs EnumerateInputs].
    by destruct (_ || _).
  - unfold IsOutputOlderThanInputs, lookupNode. by rewrite Hs'.
  - unfold ReleaseMatricesAfterBackprop.
    by rewrite (bind_run _ _ _ _ _ (getNode_run _ _ _ Hs')).
  - intros Hclosed p n c Hp Hc. simpl in Hp |- *.
    destruct (decide (p = this)) as [->|Hne].
    + rewrite lookup_insert_eq in Hp. injection Hp as <-. simpl in Hc.
      by apply elem_of_nil in Hc.
    + rewrite lookup_insert_ne in Hp by done.
      rewrite lookup_insert_is_Some. destruct (decide (this = c)); [by left|].
      right. split; [done|]. by eapply Hclosed.
Qed.

Lemma DetachInputs_makes_leaf_witness :
  ∃ w', DetachInputs 0 plusWorld = (Ok tt, w') ∧
        EnumerateNodes 1 w' [Some 0] false = Ok [0].
Proof.
  destruct (DetachInputs_makes_leaf plusWorld 0
              (basicNode (floatOp "Plus" (Some 2)) "sum" [Some 1; Some 2] 5) eq_refl)
    as (w' & Hrun & _ & _ & Henum & _).
  exists w'. split; [exact Hrun|apply Henum].
Defined.

(** ** EnumerateArcs *)

Lemma linkedb_linked w : linkedb w = true → linked w.
Proof.
  intros H p n input Hp Hin. apply bool_decide_eq_true_1 in H.
  specialize (H p n Hp). simpl in H. rewrite Forall_forall in H. by apply H.
Qed.

Lemma pushArcs_spec visited cur ins : ∀ st,
  (pushArcs visited cur ins st).2 = st.2 ++ map (λ i, (Some cur, i)) ins ∧
  ∀ t, t ∈ (pushArcs visited cur ins st).1 ↔
       t ∈ st.1 ∨ (t ∈ ins ∧ notVisited visited t = true).
Proof.
  induction ins as [|input ins IH]; intros st; simpl.
  { split; [by rewrite app_nil_r|]. intros t. split; [by left|].
    intros [H|[H _]]; [done|by apply elem_of_nil in H]. }
  destruct (IH (if notVisited visited input then input :: st.1 else st.1,
                st.2 ++ [(Some cur, input)])) as [Harcs Hto].
  split.
  - rewrite Harcs. simpl. by rewrite <- app_assoc.
  - intros t. rewrite Hto. simpl. rewrite elem_of_cons.
    destruct (notVisited visited input) eqn:Hnv.
    + rewrite elem_of_cons. split.
      * intros [[-> | H]|[H1 H2]]; auto.
      * intros [H|[[-> | H1] H2]]; auto.
    + split.
      * intros [H|[H1 H2]]; auto.
      * intros [H|[[-> | H1] H2]]; auto. congruence.
Qed.

Lemma reachable_from w roots roots' p :
  (∀ r, Some r ∈ roots → reachable w roots' r) →
  reachable w roots p → reachable w roots' p.
Proof.
  intros Hroots. induction 1 as [r Hr|q n c _ IH Hq Hc]; [by apply Hroots|].
  by eapply reachable_input.
Qed.

Lemma EnumerateArcsLoop_spec w :
  linked w →
  ∀ U tovisit visited arcs,
    size (dom (nodes w) ∖ visited) = U →
    (∀ t, t ∈ tovisit → inputLinked w t) →
    ∃ fuel0, ∀ fuel, fuel0 ≤ fuel →
      ∃ visited' new,
        EnumerateArcsLoop fuel w tovisit visited arcs = Ok (visited', arcs ++ new) ∧
        arcsAdded w tovisit visited visited' new.
Proof.
  intros Hlinked U. induction U as [U IHU] using lt_wf_ind.
  induction tovisit as [|t rest IHt]; intros visited arcs HU Hlive.
  { exists 1. intros [|fuel] Hfuel; [lia|]. exists visited, []. simpl.
    split; [by rewrite app_nil_r|]. split; [done|].
    split; [intros c Hc; by apply elem_of_nil in Hc|].
    split; [done|]. split; [done|]. intros a. split.
    - intros Ha. by apply elem_of_nil in Ha.
    - intros (p & n & _ & Hp & Hnp & _). done. }
  destruct t as [cur|]; [|exfalso; apply (Hlive None); by left].
  destruct (Hlive (Some cur)) as [n Hn]; [by left|].
  destruct (decide (cur ∈ visited)) as [Hvis|Hnvis].
  - destruct (IHt visited arcs HU) as [fuel0 Hrun].
    { intros t Ht. apply Hlive. by right. }
    exists (S fuel0). intros [|fuel] Hfuel; [lia|].
    destruct (Hrun fuel) as (visited' & new & Heq & Hsub & Hto & Hreach & Hclosed & Hnew);
      [lia|].
    exists visited', new. split.
    { simpl. rewrite bool_decide_eq_false_2 by (intros H; by apply H). exact Heq. }
    split; [done|]. split.
    { intros c Hc. apply elem_of_cons in Hc as [[= ->]|Hc]; [by apply Hsub|by apply Hto]. }
    split; [|by split].
    intros p Hp Hnp. eapply reachable_from; [|by apply Hreach].
    intros r Hr. apply reachable_root. by right.
  - destruct (pushArcs_spec visited cur (m_inputs n) (rest, arcs)) as [Harcs Hto].
    simpl in Harcs, Hto.
    set (st := pushArcs visited cur (m_inputs n) (rest, arcs)) in *.
    destruct (IHU (size (dom (nodes w) ∖ ({[cur]} ∪ visited)))
                (ltac:(subst U; apply subset_size; split;
                       [intros x; rewrite !elem_of_difference, elem_of_union;
                        intros [Hd Hx]; split; [done|]; intros Hv; apply Hx; by right
                       |intros Hsub; specialize (Hsub cur);
                        rewrite !elem_of_difference, elem_of_union, elem_of_singleton in Hsub;
                        destruct Hsub as [_ Hx]; [|apply Hx; by left];
                        split; [|done]; apply elem_of_dom; by exists n]))
                st.1 ({[cur]} ∪ visited) st.2 eq_refl) as [fuel0 Hrun].
    { intros t Ht. apply Hto in Ht as [Ht|[Ht _]].
      - apply Hlive. by right.
      - by eapply Hlinked. }
    exists (S fuel0). intros [|fuel] Hfuel; [lia|].
    destruct (Hrun fuel) as (visited' & new & Heq & Hsub & Hin & Hreach & Hclosed & Hnew);
      [lia|].
    exists visited', (map (λ i, (Some cur, i)) (m_inputs n) ++ new). split.
    { simpl. rewrite bool_decide_eq_true_2 by done. simpl.
      unfold lookupNode. rewrite Hn. simpl. fold st.
      rewrite Heq, Harcs. by rewrite <- app_assoc. }
    assert (Hcur : cur ∈ visited').
    { apply Hsub. apply elem_of_union. left. by apply elem_of_singleton. }
    split; [intros x Hx; apply Hsub, elem_of_union; by right|].
    split.
    { intros c Hc. apply elem_of_cons in Hc as [[= ->]|Hc]; [done|].
      apply Hin, Hto. by left. }
    split.
    { intros p Hp Hnp. destruct (decide (p = cur)) as [->|Hne].
      - apply reachable_root. by left.
      - eapply reachable_from; [|apply Hreach; [done|]].
        + intros r Hr. apply Hto in Hr as [Hr|[Hr _]].
          * apply reachable_root. by right.
          * eapply reachable_input; [apply reachable_root; by left|exact Hn|exact Hr].
        + rewrite elem_of_union, elem_of_singleton. intros [?|?]; done. }
    split.
    { intros p n0 c Hp Hnp Hn0 Hc. destruct (decide (p = cur)) as [->|Hne].
      - assert (n0 = n) as -> by congruence.
        destruct (decide (c ∈ visited)) as [Hcv|Hcv].
        + apply Hsub, elem_of_union. by right.
        + apply Hin, Hto. right. split; [done|]. simpl. by apply bool_decide_eq_true_2.
      - eapply Hclosed; [exact Hp| |exact Hn0|exact Hc].
        rewrite elem_of_union, elem_of_singleton. intros [?|?]; done. }
    intros a. rewrite elem_of_app, list_elem_of_fmap, Hnew. split.
    + intros [(i & -> & Hi)|(p & n0 & Ha & Hp & Hnp & Hn0 & Hi)].
      * exists cur, n. by repeat split.
      * exists p, n0. repeat split; try done.
        intros Hv. apply Hnp, elem_of_union. by right.
    + intros (p & n0 & Ha & Hp & Hnp & Hn0 & Hi).
      destruct (decide (p = cur)) as [->|Hne].
      * left. assert (n0 = n) as -> by congruence. exists a.2.
        split; [|done]. destruct a as [a1 a2]. simpl in *. by subst.
      * right. exists p, n0. repeat split; try done.
        rewrite elem_of_union, elem_of_singleton. intros [?|?]; done.
Qed.

(** X22: on a fully connected store, [EnumerateArcs] from a node returns
    when given enough rounds.  The arcs it appends are exactly the arcs
    (node, input) that leave the nodes it newly visits; these nodes are
    reachable from the start node, include it, and all their inputs count
    as visited afterwards.  From a node that was already visited nothing
    changes. *)
Theorem EnumerateArcs_spec w this visited arcs :
  linked w →
  is_Some (nodes w !! this) →
  (this ∈ visited → ∀ fuel, EnumerateArcs fuel w this visited arcs = Ok (visited, arcs)) ∧
  (this ∉ visited →
   ∃ fuel0, ∀ fuel, fuel0 ≤ fuel →
     ∃ visited' new,
       EnumerateArcs fuel w this visited arcs = Ok (visited', arcs ++ new) ∧
       arcsAdded w [Some this] visited visited' new).
Proof.
  intros Hlinked Hthis. split.
  - intros Hin fuel. unfold EnumerateArcs. simpl.
    by rewrite bool_decide_eq_false_2 by (intros H; by apply H).
  - intros Hnin.
    destruct (EnumerateArcsLoop_spec w Hlinked _ [Some this] visited arcs eq_refl)
      as [fuel0 Hrun].
    { intros t Ht. apply list_elem_of_singleton in Ht as ->. exact Hthis. }
    exists fuel0. intros fuel Hfuel.
    destruct (Hrun fuel Hfuel) as (visited' & new & Heq & Hadded).
    exists visited', new. split; [|exact Hadded].
    unfold EnumerateArcs. simpl. by rewrite bool_decide_eq_true_2.
Qed.

Lemma EnumerateArcs_spec_witness :
  ∃ fuel0, ∀ fuel, fuel0 ≤ fuel →
    ∃ visited' new,
      EnumerateArcs fuel diamondWorld 0 ∅ [] = Ok (visited', new) ∧
      arcsAdded diamondWorld [Some 0] ∅ visited' new.
Proof.
  destruct (EnumerateArcs_spec diamondWorld 0 ∅ []) as [_ Hrun].
  - apply linkedb_linked. vm_compute. reflexivity.
  - by eexists.
  - destruct Hrun as [fuel0 Hrun]; [set_solver|]. exists fuel0. exact Hrun.
Defined.

Lemma EnumerateArcsLoop_null w :
  closed w →
  ∀ U tovisit visited arcs,
    size (dom (nodes w) ∖ visited) = U →
    (∀ c, Some c ∈ tovisit → is_Some (nodes w !! c)) →
    None ∈ tovisit →
    ∃ fuel0, ∀ fuel, fuel0 ≤ fuel →
      EnumerateArcsLoop fuel w tovisit visited arcs = Fail NullDereference.
Proof.
  intros Hclosed U. induction U as [U IHU] using lt_wf_ind.
  induction tovisit as [|t rest IHt]; intros visited arcs HU Hlive Hnull.
  { by apply elem_of_nil in Hnull. }
  destruct t as [cur|].
  2:{ exists 1. intros [|fuel] Hfuel; [lia|]. reflexivity. }
  apply elem_of_cons in Hnull as [[=]|Hnull].
  destruct (Hlive cur) as [n Hn]; [by left|].
  destruct (decide (cur ∈ visited)) as [Hvis|Hnvis].
  - destruct (IHt visited arcs HU) as [fuel0 Hrun]; [|done|].
    { intros c Hc. apply Hlive. by right. }
    exists (S fuel0). intros [|fuel] Hfuel; [lia|]. simpl.
    rewrite bool_decide_eq_false_2 by (intros H; by apply H). apply Hrun. lia.
  - destruct (pushArcs_spec visited cur (m_inputs n) (rest, arcs)) as [_ Hto].
    simpl in Hto.
    set (st := pushArcs visited cur (m_inputs n) (rest, arcs)) in *.
    destruct (IHU (size (dom (nodes w) ∖ ({[cur]} ∪ visited)))
                (ltac:(subst U; apply subset_size; split;
                       [intros x; rewrite !elem_of_difference, elem_of_union;
                        intros [Hd Hx]; split; [done|]; intros Hv; apply Hx; by right
                       |intros Hsub; specialize (Hsub cur);
                        rewrite !elem_of_difference, elem_of_union, elem_of_singleton in Hsub;
                        destruct Hsub as [_ Hx]; [|apply Hx; by left];
                        split; [|done]; apply elem_of_dom; by exists n]))
                st.1 ({[cur]} ∪ visited) st.2 eq_refl) as [fuel0 Hrun].
    { intros c Hc. apply Hto in Hc as [Hc|[Hc _]].
      - apply Hlive. by right.
      - by eapply Hclosed. }
    { apply Hto. by left. }
    exists (S fuel0). intros [|fuel] Hfuel; [lia|]. simpl.
    rewrite bool_decide_eq_true_2 by done. simpl.
    unfold lookupNode. rewrite Hn. simpl. apply Hrun. lia.
Qed.

(** X23: [EnumerateArcs] does not skip null inputs as [EnumerateNodes]
    does: on a closed store, started from an unvisited node with a null
    input, it pushes the null pointer on its work list and, given enough
    rounds, ends by dereferencing it. *)
Theorem EnumerateArcs_null_input w this self visited arcs :
  closed w →
  nodes w !! this = Some self →
  this ∉ visited →
  None ∈ m_inputs self →
  ∃ fuel0, ∀ fuel, fuel0 ≤ fuel →
    EnumerateArcs fuel w this visited arcs = Fail NullDereference.
Proof.
  intros Hclosed Hs Hnin Hnull.
  destruct (pushArcs_spec visited this (m_inputs self) ([], arcs)) as [_ Hto].
  simpl in Hto.
  destruct (EnumerateArcsLoop_null w Hclosed _
              (pushArcs visited this (m_inputs self) ([], arcs)).1
              ({[this]} ∪ visited)
              (pushArcs visited this (m_inputs self) ([], arcs)).2 eq_refl)
    as [fuel0 Hrun].
  - intros c Hc. apply Hto in Hc as [Hc|[Hc _]]; [by apply elem_of_nil in Hc|].
    by eapply Hclosed.
  - apply Hto. by right.
  - exists (S fuel0). intros [|fuel] Hfuel; [lia|].
    unfold EnumerateArcs. simpl. rewrite !bool_decide_eq_true_2 by done. simpl.
    unfold lookupNode. rewrite Hs. simpl. apply Hrun. lia.
Qed.

Lemma EnumerateArcs_null_input_witness :
  (∃ fuel0, ∀ fuel, fuel0 ≤ fuel →
     EnumerateArcs fuel unfinishedWorld 0 ∅ [] = Fail NullDereference) ∧
  EnumerateNodes 3 unfinishedWorld [Some 0] false = Ok [1; 0].
Proof.
  split; [|reflexivity].
  apply (EnumerateArcs_null_input unfinishedWorld 0
           (basicNode (floatOp "Plus" (Some 2)) "sum" [Some 1; None] 5)).
  - apply closedb_closed. vm_compute. reflexivity.
  - reflexivity.
  - apply not_elem_of_empty.
  - apply elem_of_cons. right. by left.
Defined.

(** ** ConstOnes *)


